(** * GeeCache: a byte-bounded LRU engine, a consistent-hash ring and the
    group coordinator, embedded from the Go sources.

    Part I gives the embedding, one module per Go package (the HTTP
    client and the pool of peers of package geecache have modules of
    their own); Part II the vocabulary of the statements; Part III the
    properties the specification claims; Part IV further properties of
    the code.  Go [int] and
    [int64] values are integers in [Z] with the two's-complement
    wrap-around written out; Go strings are byte strings ([string]); maps
    are [gmap]s; pointers into the recency list are node addresses.  A
    loop of the source that may run forever takes fuel and yields [None]
    when the fuel runs out; a run-time panic is a result of its own. *)

From Stdlib Require Import ZArith Lia List Sorted Permutation Ascii.
From stdpp Require Import base numbers list strings gmap pretty sorting.

Local Open Scope Z_scope.

(* ===================================================================== *)
(** * Part I.  The embedding                                              *)
(* ===================================================================== *)

(** ** Machine integers *)

Module I64.
Definition min_int64 : Z := - 2 ^ 63.
Definition max_int64 : Z := 2 ^ 63 - 1.

(** Two's-complement reduction of a mathematical integer to [int64]. *)
Definition wrap64 (z : Z) : Z := (z + 2 ^ 63) `mod` 2 ^ 64 - 2 ^ 63.

(** The conversion [int64(x)] of an [int] and the wrapping operators. *)
Definition int64 (z : Z) : Z := wrap64 z.
Definition add64 (a b : Z) : Z := wrap64 (a + b).
Definition sub64 (a b : Z) : Z := wrap64 (a - b).

(** [int(x)] for [x : uint32] on a 64-bit platform, and the reduction of
    an integer to [uint32]. *)
Definition uint32 (z : Z) : Z := z `mod` 2 ^ 32.
End I64.

(** ** container/list, as far as the LRU engine uses it

    A list element is a heap node: it has an identity (its address) and a
    payload.  The list itself is the sequence of its nodes, front first. *)

Module clist.
Section Elements.
Context {A : Type}.

Record Element := mkElement { addr : nat; Value : A }.

Definition is_elem (a : nat) (e : Element) : bool := Nat.eqb (addr e) a.

(** The node with address [a], when it is linked into the list. *)
Definition deref (a : nat) (l : list Element) : option Element :=
  List.find (is_elem a) l.

Definition Back (l : list Element) : option Element := last l.

Definition Remove (a : nat) (l : list Element) : list Element :=
  List.filter (fun e => negb (is_elem a e)) l.

(** [MoveToFront] leaves the list alone when the node is not linked. *)
Definition MoveToFront (a : nat) (l : list Element) : list Element :=
  match deref a l with
  | Some e => e :: Remove a l
  | None => l
  end.

Definition PushFront (a : nat) (v : A) (l : list Element) : list Element :=
  mkElement a v :: l.

(** Assignment through the node's payload pointer. *)
Definition store (a : nat) (v : A) (l : list Element) : list Element :=
  List.map (fun e => if is_elem a e then mkElement a v else e) l.

Definition Len (l : list Element) : Z := Z.of_nat (length l).
End Elements.
Arguments Element : clear implicits.
End clist.

(** ** package lru *)

Module lru.
Import I64.

(** [Value] counts how many bytes it takes; a byte count is never
  negative. *)
Class Value (V : Type) := {
Len : V -> Z;
Len_nonneg : forall v, 0 <= Len v
}.

Section Engine.
Context {V : Type} `{Value V}.

Record entry := mk_entry { key : string; value : V }.

(** Go's [len] of a string: its number of bytes. *)
Definition len (s : string) : Z := Z.of_nat (String.length s).

(** The engine.  [fresh] is the allocator's next node address and
    [evicted] the calls made so far to a non-nil [OnEvicted], oldest
    first; [OnEvicted] tells whether a callback is installed. *)
Record Cache := mkCache {
  maxBytes : Z;
  nowBytes : Z;
  ll : list (clist.Element entry);
  cache : gmap string nat;
  OnEvicted : bool;
  evicted : list (string * V);
  fresh : nat
}.

Definition New (maxBytes : Z) (onEvicted : bool) : Cache :=
  mkCache maxBytes 0 [] ∅ onEvicted [] 0%nat.

Definition Get (c : Cache) (k : string) : Cache * option V :=
  match cache c !! k with
  | Some ele =>
      let l := clist.MoveToFront ele (ll c) in
      let c' := mkCache (maxBytes c) (nowBytes c) l (cache c)
                        (OnEvicted c) (evicted c) (fresh c) in
      match clist.deref ele l with
      | Some n => (c', Some (value (clist.Value n)))
      | None => (c', None)
      end
  | None => (c, None)
  end.

Definition RemoveOldest (c : Cache) : Cache :=
  match clist.Back (ll c) with
  | Some ele =>
      let kv := clist.Value ele in
      mkCache (maxBytes c)
              (sub64 (nowBytes c)
                     (add64 (int64 (len (key kv))) (int64 (Len (value kv)))))
              (clist.Remove (clist.addr ele) (ll c))
              (delete (key kv) (cache c))
              (OnEvicted c)
              (if OnEvicted c then evicted c ++ [(key kv, value kv)]
               else evicted c)
              (fresh c)
  | None => c
  end.

(** The two branches of [Add], before the eviction loop. *)
Definition Add_body (c : Cache) (k : string) (v : V) : Cache :=
  match cache c !! k with
  | Some ele =>
      let l := clist.MoveToFront ele (ll c) in
      match clist.deref ele l with
      | Some n =>
          let kv := clist.Value n in
          mkCache (maxBytes c)
                  (add64 (nowBytes c)
                         (sub64 (int64 (Len v)) (int64 (Len (value kv)))))
                  (clist.store ele (mk_entry (key kv) v) l)
                  (cache c) (OnEvicted c) (evicted c) (fresh c)
      | None => c
      end
  | None =>
      mkCache (maxBytes c)
              (add64 (nowBytes c) (add64 (int64 (len k)) (int64 (Len v))))
              (clist.PushFront (fresh c) (mk_entry k v) (ll c))
              (<[k := fresh c]> (cache c))
              (OnEvicted c) (evicted c) (S (fresh c))
  end.

(** The guard of the eviction loop, as the source has it. *)
Definition over_budget (c : Cache) : bool :=
  negb (maxBytes c =? 0) && (maxBytes c <? nowBytes c).

(** [for c.maxBytes != 0 && c.maxBytes < c.nowBytes { c.RemoveOldest() }]:
    [None] when the loop is still running after [fuel] iterations. *)
Fixpoint evict_loop (fuel : nat) (c : Cache) : option Cache :=
  if over_budget c then
    match fuel with
    | O => None
    | S fuel' => evict_loop fuel' (RemoveOldest c)
    end
  else Some c.

Definition Add (fuel : nat) (c : Cache) (k : string) (v : V) : option Cache :=
  evict_loop fuel (Add_body c k v).

Definition Cache_Len (c : Cache) : Z := clist.Len (ll c).
End Engine.
Arguments entry : clear implicits.
Arguments Cache V : clear implicits.
End lru.

(** ** package consistenthash *)

Module consistenthash.
Import I64.

(** [Hash] maps bytes to [uint32]; the bytes of a Go string are the string. *)
Definition Hash : Type := string -> Z.

(** hash/crc32's [ChecksumIEEE], bit by bit (reflected polynomial). *)
Definition crc32_shift (crc : Z) : Z :=
  if Z.testbit crc 0 then Z.lxor (Z.shiftr crc 1) 3988292384
  else Z.shiftr crc 1.

Definition crc32_update (crc : Z) (c : Ascii.ascii) : Z :=
  Nat.iter 8 crc32_shift (Z.lxor crc (Z.of_N (Ascii.N_of_ascii c))).

Definition ChecksumIEEE (data : string) : Z :=
  Z.lxor (fold_left crc32_update (String.list_ascii_of_string data) 4294967295)
         4294967295.

(** strconv.Itoa *)
Definition Itoa (i : Z) : string := pretty i.

Record Map := mkMap {
  hash : Hash;
  replicas : Z;
  keys : list Z;
  hashMap : gmap Z string
}.

Definition New (replicas : Z) (fn : option Hash) : Map :=
  mkMap (match fn with Some f => f | None => ChecksumIEEE end) replicas [] ∅.

(** [int(m.hash([]byte(strconv.Itoa(i) + key)))] *)
Definition replica_hash (m : Map) (i : Z) (key : string) : Z :=
  uint32 (hash m (Itoa i +:+ key)).

(** sort.Ints: the ascending rearrangement of the slice. *)
Definition sort_Ints (l : list Z) : list Z := merge_sort Z.le l.

(** One pass of the inner loop of [Add]. *)
Definition Add_replica (key : string) (m : Map) (i : Z) : Map :=
  let h := replica_hash m i key in
  mkMap (hash m) (replicas m) (keys m ++ [h]) (<[h := key]> (hashMap m)).

Definition Add_key (m : Map) (key : string) : Map :=
  fold_left (Add_replica key) (seqZ 0 (replicas m)) m.

Definition Add (m : Map) (ks : list string) : Map :=
  let m' := fold_left Add_key ks m in
  mkMap (hash m') (replicas m') (sort_Ints (keys m')) (hashMap m').

(** [a[i]] for an index the binary search keeps in range. *)
Definition index (a : list Z) (i : Z) : Z := default 0 (a !! Z.to_nat i).

(** sort.Search: the loop [for i < j] with [h := int(uint(i+j) >> 1)]; the
    interval halves at every turn, so [fuel = j - i] turns are enough. *)
Fixpoint search_loop (fuel : nat) (f : Z -> bool) (i j : Z) : Z :=
  match fuel with
  | O => i
  | S fuel' =>
      if i <? j then
        let h := Z.shiftr (i + j) 1 in
        if negb (f h) then search_loop fuel' f (h + 1) j
        else search_loop fuel' f i h
      else i
  end.

Definition Search (n : Z) (f : Z -> bool) : Z :=
  search_loop (Z.to_nat n) f 0 n.

Definition SearchInts (a : list Z) (x : Z) : Z :=
  Search (Z.of_nat (length a)) (fun i => x <=? index a i).

(** One pass of the loop of [Remove]; [None] is the run-time panic of
    [m.keys[idx+1:]] when [idx] is the length of the ring. *)
Definition Remove_replica (key : string) (m : Map) (i : Z) : option Map :=
  let h := replica_hash m i key in
  let idx := SearchInts (keys m) h in
  if idx + 1 <=? Z.of_nat (length (keys m)) then
    Some (mkMap (hash m) (replicas m)
                (take (Z.to_nat idx) (keys m) ++ drop (Z.to_nat (idx + 1)) (keys m))
                (delete h (hashMap m)))
  else None.

Definition Remove (m : Map) (key : string) : option Map :=
  fold_left (fun om i => m' ← om; Remove_replica key m' i)
            (seqZ 0 (replicas m)) (Some m).

Definition Get (m : Map) (key : string) : string :=
  if Z.of_nat (length (keys m)) =? 0 then ""
  else
    let h := uint32 (hash m key) in
    let idx := Search (Z.of_nat (length (keys m)))
                      (fun i => h <=? index (keys m) i) in
    default "" (hashMap m !! index (keys m) (Z.rem idx (Z.of_nat (length (keys m))))).

End consistenthash.

(** ** package geecache *)

Module geecache.

(** *** ByteView *)

Record ByteView := mkByteView { b : list Byte.byte }.

Definition ByteView_Len (v : ByteView) : Z := Z.of_nat (length (b v)).

(** [make([]byte, n)] and the built-in [copy], which moves as many bytes
    as the shorter of the two slices holds. *)
Definition make (n : nat) : list Byte.byte := repeat Byte.x00 n.

Definition copy (dst src : list Byte.byte) : list Byte.byte :=
  take (length dst) src ++ drop (length src) dst.

Definition cloneBytes (bs : list Byte.byte) : list Byte.byte :=
  copy (make (length bs)) bs.

Definition ByteSlice (v : ByteView) : list Byte.byte := cloneBytes (b v).

#[global] Instance ByteView_Value : lru.Value ByteView :=
  {| lru.Len := ByteView_Len;
     lru.Len_nonneg := fun v => Nat2Z.is_nonneg (length (b v)) |}.

(** *** The concurrent cache shell *)

(** Modelled from the spec: the type [cache] with its methods [add] and
    [get] (the file that declares it is not among the sources).  It holds
    [cacheBytes] and an optional LRU engine, creates the engine with the
    configured ceiling (and no eviction callback) on the first [add], and
    answers a [get] on an engine that was never created with a miss,
    without creating one.  The mutex has no counterpart in this
    sequential model. *)
Record cache := mk_cache {
  cacheBytes : Z;
  lru_ : option (lru.Cache ByteView)
}.

Definition cache_add (fuel : nat) (c : cache) (key : string) (value : ByteView)
  : option cache :=
  let engine := match lru_ c with
                | Some l => l
                | None => lru.New (cacheBytes c) false
                end in
  l' ← lru.Add fuel engine key value;
  Some (mk_cache (cacheBytes c) (Some l')).

Definition cache_get (c : cache) (key : string) : cache * option ByteView :=
  match lru_ c with
  | None => (c, None)
  | Some l =>
      let '(l', r) := lru.Get l key in
      (mk_cache (cacheBytes c) (Some l'), r)
  end.

(** *** Collaborators of a group *)

(** A Go [error] is represented by its message; [None] is [nil]. *)
Definition error : Type := string.

(** [Getter.Get(key) ([]byte, error)] *)
Definition Getter : Type := string -> list Byte.byte * option error.

(** Modelled from the spec: the interfaces [PeerClient] and [PeerPicker]
    (their declarations are not among the sources).
    [Get(group, key) -> (bytes, error)] and
    [PickPeer(key) -> (client, selected?)], the latter as an option:
    [Some client] when a remote peer was selected. *)
Record PeerClient := mkPeerClient {
  peer_Get : string -> string -> list Byte.byte * option error
}.

Record PeerPicker := mkPeerPicker {
  PickPeer : string -> option PeerClient
}.

(** What a call leaves behind outside the group: log lines and the calls
    made to the collaborators, in order. *)
Inductive Event :=
| EvLog (msg : string)
| EvPickPeer (key : string)
| EvPeerGet (group key : string)
| EvGetter (key : string).

(** *** Group *)

Record Group := mkGroup {
  name : string;
  getter : Getter;
  mainCache : cache;
  peers : option PeerPicker
}.

Definition set_mainCache (g : Group) (c : cache) : Group :=
  mkGroup (name g) (getter g) c (peers g).

(** The registry [groups]; a registered group is the group object itself,
    so what a call does to a group is written back under its name. *)
Inductive result (A : Type) :=
| Done (a : A)
| Panic (msg : string).
Arguments Done {A} a.
Arguments Panic {A} msg.

Definition NewGroup (groups : gmap string Group) (name : string)
    (cacheBytes : Z) (getter : option Getter)
  : result (Group * gmap string Group) :=
  match getter with
  | None => Panic "nil Getter"
  | Some f =>
      let g := mkGroup name f (mk_cache cacheBytes None) None in
      Done (g, <[name := g]> groups)
  end.

Definition GetGroup (groups : gmap string Group) (name : string) : option Group :=
  groups !! name.

(** The argument is an interface value: [None] is [nil], which passes
    the guard like any picker and is stored. *)
Definition RegisterPeers (g : Group) (picker : option PeerPicker)
  : result Group :=
  match peers g with
  | Some _ => Panic "RegisterPeerPicker called more than once"
  | None => Done (mkGroup (name g) (getter g) (mainCache g) picker)
  end.

(** What a method of a group returns: the pair [(ByteView, error)], the
    group afterwards and the events of the call. *)
Record Ret := mkRet {
  ret_view : ByteView;
  ret_err : option error;
  ret_group : Group;
  ret_events : list Event
}.

Definition populateCache (fuel : nat) (g : Group) (key : string) (value : ByteView)
  : option Group :=
  c ← cache_add fuel (mainCache g) key value;
  Some (set_mainCache g c).

Definition getLocally (fuel : nat) (g : Group) (key : string) : option Ret :=
  let '(bytes, err) := getter g key in
  match err with
  | Some e => Some (mkRet (mkByteView []) (Some e) g [EvGetter key])
  | None =>
      let value := mkByteView (cloneBytes bytes) in
      g' ← populateCache fuel g key value;
      Some (mkRet value None g' [EvGetter key])
  end.

Definition getFromPeer (g : Group) (peer : PeerClient) (key : string)
  : ByteView * option error :=
  let '(bytes, err) := peer_Get peer (name g) key in
  match err with
  | Some e => (mkByteView [], Some e)
  | None => (mkByteView bytes, None)
  end.

Definition add_events (evs : list Event) (r : Ret) : Ret :=
  mkRet (ret_view r) (ret_err r) (ret_group r) (evs ++ ret_events r).

Definition load (fuel : nat) (g : Group) (key : string) : option Ret :=
  match peers g with
  | Some picker =>
      match PickPeer picker key with
      | Some peer =>
          match getFromPeer g peer key with
          | (value, None) =>
              Some (mkRet value None g [EvPickPeer key; EvPeerGet (name g) key])
          | (_, Some err) =>
              add_events [EvPickPeer key; EvPeerGet (name g) key;
                          EvLog ("[GeeCache] Failed to get from peer " +:+ err)]
                <$> getLocally fuel g key
          end
      | None => add_events [EvPickPeer key] <$> getLocally fuel g key
      end
  | None => getLocally fuel g key
  end.

Definition Get (fuel : nat) (g : Group) (key : string) : option Ret :=
  if String.eqb key "" then
    Some (mkRet (mkByteView []) (Some "key is required") g [])
  else
    match cache_get (mainCache g) key with
    | (c, Some v) =>
        Some (mkRet v None (set_mainCache g c) [EvLog "[GeeCache] hit"])
    | (c, None) => load fuel (set_mainCache g c) key
    end.

(** *** The peer server *)

Definition defaultBasePath : string := "/_geecache/".

Record HTTPPool := mkHTTPPool {
  self : string;
  basePath : string
}.

Definition NewHTTPPool (self : string) : HTTPPool :=
  mkHTTPPool self defaultBasePath.

(** strings.HasPrefix *)
Definition HasPrefix (s pre : string) : bool := String.prefix pre s.

(** [s[n:]] *)
Definition slice_from (n : nat) (s : string) : string :=
  String.substring n (String.length s - n) s.

(** [strings.SplitN(s, "/", 2)]: cut at the first separator, if any. *)
Fixpoint cut (sep : Ascii.ascii) (s : string) : option (string * string) :=
  match s with
  | EmptyString => None
  | String c rest =>
      if Ascii.eqb c sep then Some (EmptyString, rest)
      else '(before, after) ← cut sep rest; Some (String c before, after)
  end.

Definition SplitN2 (s : string) : list string :=
  match cut "/"%char s with
  | Some (before, after) => [before; after]
  | None => [s]
  end.

(** What the handler does to the response writer: [http.Error(w, msg,
    code)], or the header set followed by [w.Write(body)]. *)
Inductive Response :=
| http_Error (msg : string) (code : Z)
| Written (contentType : string) (body : list Byte.byte).

Definition StatusBadRequest : Z := 400.
Definition StatusNotFound : Z := 404.
Definition StatusInternalServerError : Z := 500.

(** The handler, on the path of the request; the line it logs is left
    out.  [None] only when [Group.Get] has not returned. *)
Definition ServeHTTP (fuel : nat) (p : HTTPPool) (groups : gmap string Group)
    (path : string) : option (result (Response * gmap string Group)) :=
  if negb (HasPrefix path (basePath p)) then
    Some (Panic ("HTTPPool serving unexpected path: " +:+ path))
  else
    match SplitN2 (slice_from (String.length (basePath p)) path) with
    | [groupName; key] =>
        match GetGroup groups groupName with
        | None =>
            Some (Done (http_Error ("no such group: " +:+ groupName)
                                   StatusNotFound, groups))
        | Some group =>
            r ← Get fuel group key;
            let groups' := <[groupName := ret_group r]> groups in
            match ret_err r with
            | Some err =>
                Some (Done (http_Error err StatusInternalServerError, groups'))
            | None =>
                Some (Done (Written "application/octet-stream"
                                    (ByteSlice (ret_view r)), groups'))
            end
        end
    | _ => Some (Done (http_Error "bad request" StatusBadRequest, groups))
    end.

(** [ByteView.String]: the bytes as a string. *)
Definition ByteView_String (v : ByteView) : string :=
  String.string_of_list_byte (b v).

End geecache.

(** ** package geecache: the HTTP client of a peer (http_client.go) *)

Module http_client.
Import geecache.

(** net/url's [shouldEscape] in the mode of a query component: letters,
    digits and the marks [-_.~] are left alone, every other byte is
    escaped. *)
Definition between (lo hi c : Ascii.ascii) : bool :=
  (Ascii.N_of_ascii lo <=? Ascii.N_of_ascii c)%N
  && (Ascii.N_of_ascii c <=? Ascii.N_of_ascii hi)%N.

Definition shouldEscape (c : Ascii.ascii) : bool :=
  if between "a" "z" c || between "A" "Z" c || between "0" "9" c then false
  else if Ascii.eqb c "-" || Ascii.eqb c "_" || Ascii.eqb c "."
          || Ascii.eqb c "~" then false
  else true.

(** ["0123456789ABCDEF"[n]] *)
Definition upperhex (n : N) : Ascii.ascii :=
  match String.get (N.to_nat n) "0123456789ABCDEF" with
  | Some c => c
  | None => "0"%char
  end.

(** url.QueryEscape: a space becomes ['+'], a byte to escape becomes
    ['%'] and its two upper-case hexadecimal digits. *)
Fixpoint QueryEscape (s : string) : string :=
  match s with
  | EmptyString => EmptyString
  | String c rest =>
      if Ascii.eqb c " " then String "+" (QueryEscape rest)
      else if shouldEscape c then
        String "%"
          (String (upperhex (N.shiftr (Ascii.N_of_ascii c) 4))
             (String (upperhex (N.land (Ascii.N_of_ascii c) 15))
                (QueryEscape rest)))
      else String c (QueryEscape rest)
  end.

Record httpClient := mk_httpClient { baseURL : string }.

Definition NewHttpClient (baseURL : string) : httpClient :=
  mk_httpClient baseURL.

(** What [http.Get(u)] yields: an error, or a response with its status
    code, its status text and what [ioutil.ReadAll(res.Body)] yields. *)
Record Reply := mkReply {
  StatusCode : Z;
  Status : string;
  Body : list Byte.byte * option error
}.

Definition Transport : Type := string -> Reply + error.

Definition StatusOK : Z := 200.

(** [fmt.Sprintf("%v%v/%v", h.baseURL, url.QueryEscape(group),
    url.QueryEscape(key))] *)
Definition request_URL (h : httpClient) (group key : string) : string :=
  baseURL h +:+ QueryEscape group +:+ String "/" (QueryEscape key).

(** [httpClient.Get], over the network as [http.Get] presents it. *)
Definition Get (net : Transport) (h : httpClient) (group key : string)
  : list Byte.byte * option error :=
  match net (request_URL h group key) with
  | inr err => ([], Some err)
  | inl res =>
      if negb (StatusCode res =? StatusOK) then
        ([], Some ("server returned: " +:+ Status res))
      else
        match Body res with
        | (_, Some err) => ([], Some ("reading response body: " +:+ err))
        | (bytes, None) => (bytes, None)
        end
  end.
End http_client.

(** ** package geecache: the pool of peers (http_pool.go)

    The later version of [HTTPPool], which holds the ring of its peers
    and a client for each of them.  A pool on which [Set] was never
    called has no ring: [peers] is nil. *)

Module http_pool.
Import geecache.

Definition defaultReplicas : Z := 50.

Record HTTPPool := mkHTTPPool {
  self : string;
  basePath : string;
  peers : option consistenthash.Map;
  httpClient : gmap string http_client.httpClient
}.

Definition NewHTTPPool (self : string) : HTTPPool :=
  mkHTTPPool self defaultBasePath None ∅.

(** [Set]: a new ring of the peers and a new table of their clients. *)
Definition Set_ (p : HTTPPool) (peers : list string) : HTTPPool :=
  let ring :=
    consistenthash.Add (consistenthash.New defaultReplicas None) peers in
  let clients :=
    fold_left (fun t peer =>
                 <[peer := http_client.NewHttpClient (peer +:+ basePath p)]> t)
              peers ∅ in
  mkHTTPPool (self p) (basePath p) (Some ring) clients.

(** [PickPeer]: the client, which is nil when the table has none for the
    host, and whether a remote peer was picked; the line it logs is left
    out.  Without a ring the call [p.peers.Get(key)] dereferences a nil
    pointer. *)
Definition PickPeer (p : HTTPPool) (key : string)
  : result (option http_client.httpClient * bool) :=
  match peers p with
  | None =>
      Panic "runtime error: invalid memory address or nil pointer dereference"
  | Some ring =>
      let hostName := consistenthash.Get ring key in
      if negb (String.eqb hostName "") && negb (String.eqb hostName (self p))
      then Done (httpClient p !! hostName, true)
      else Done (None, false)
  end.
End http_pool.

(* ===================================================================== *)
(** * Part II.  Vocabulary of the statements                              *)
(* ===================================================================== *)

(** ** The LRU engine *)

Section LruVocabulary.
Context {V : Type} `{lru.Value V}.
Import I64 lru.

(** The recorded byte weight of an entry. *)
Definition weight (e : entry V) : Z := len (key e) + Len (value e).

Definition total_weight (l : list (clist.Element (entry V))) : Z :=
  foldr (fun e acc => weight (clist.Value e) + acc) 0 l.

(** The sum of [len(key) + value.Len()] over the resident entries. *)
Definition resident_bytes (c : Cache V) : Z := total_weight (ll c).

(** The resident entries, most recently used first. *)
Definition entries (c : Cache V) : list (entry V) := clist.Value <$> ll c.

(** The index and the recency list describe the same nodes: linked
    nodes are distinct, were handed out by the allocator, and the index
    maps a key to a node exactly when that node is linked and carries
    the key. *)
Record linked (c : Cache V) : Prop := mk_linked {
  linked_addrs : NoDup (clist.addr <$> ll c);
  linked_fresh : Forall (fun e => (clist.addr e < fresh c)%nat) (ll c);
  linked_index : forall k a,
    cache c !! k = Some a <->
    exists e, e ∈ ll c /\ clist.addr e = a /\ key (clist.Value e) = k
}.

(** The state invariant between public operations; the last part says
    that the byte total is representable in [int64]. *)
Record Inv (c : Cache V) : Prop := mk_Inv {
  Inv_linked : linked c;
  Inv_bytes : nowBytes c = resident_bytes c;
  Inv_fits : resident_bytes c <= max_int64
}.

(** Sequences of public operations. *)
Inductive op :=
| OpAdd (k : string) (v : V)
| OpGet (k : string).

Definition step (fuel : nat) (c : Cache V) (o : op) : option (Cache V) :=
  match o with
  | OpAdd k v => Add fuel c k v
  | OpGet k => Some (fst (Get c k))
  end.

Fixpoint run (fuel : nat) (c : Cache V) (ops : list op) : option (Cache V) :=
  match ops with
  | [] => Some c
  | o :: ops' => c' ← step fuel c o; run fuel c' ops'
  end.

(** The bytes offered to the engine by the [Add]s of a sequence. *)
Definition offered_bytes (ops : list op) : Z :=
  foldr (fun o acc => match o with
                      | OpAdd k v => len k + Len v + acc
                      | OpGet _ => acc
                      end) 0 ops.

(** [Add] as the specification words it, on the same state and in
    unbounded arithmetic: the eviction loop runs while
    [max_bytes > 0] and [now_bytes > max_bytes]. *)
Definition over_budget_spec (c : Cache V) : bool :=
  (0 <? maxBytes c) && (maxBytes c <? nowBytes c).

Definition evict_tail_spec (c : Cache V) : Cache V :=
  match clist.Back (ll c) with
  | Some ele =>
      mkCache (maxBytes c) (nowBytes c - weight (clist.Value ele))
              (clist.Remove (clist.addr ele) (ll c))
              (delete (key (clist.Value ele)) (cache c))
              (OnEvicted c)
              (if OnEvicted c
               then evicted c ++ [(key (clist.Value ele), value (clist.Value ele))]
               else evicted c)
              (fresh c)
  | None => c
  end.

Fixpoint evict_loop_spec (fuel : nat) (c : Cache V) : option (Cache V) :=
  if over_budget_spec c then
    match fuel with
    | O => None
    | S fuel' => evict_loop_spec fuel' (evict_tail_spec c)
    end
  else Some c.

Definition Add_body_spec (c : Cache V) (k : string) (v : V) : Cache V :=
  match cache c !! k with
  | Some a =>
      match clist.deref a (ll c) with
      | Some n =>
          mkCache (maxBytes c)
                  (nowBytes c + (Len v - Len (value (clist.Value n))))
                  (clist.mkElement a (mk_entry k v) :: clist.Remove a (ll c))
                  (cache c) (OnEvicted c) (evicted c) (fresh c)
      | None => c
      end
  | None =>
      mkCache (maxBytes c) (nowBytes c + (len k + Len v))
              (clist.mkElement (fresh c) (mk_entry k v) :: ll c)
              (<[k := fresh c]> (cache c))
              (OnEvicted c) (evicted c) (S (fresh c))
  end.

Definition Add_spec (fuel : nat) (c : Cache V) (k : string) (v : V)
  : option (Cache V) :=
  evict_loop_spec fuel (Add_body_spec c k v).

(** The byte weight of a sequence of entries. *)
Definition entries_weight (es : list (entry V)) : Z :=
  foldr (fun e acc => weight e + acc) 0 es.

(** The recency order after a use of [k] with value [v]: the entry comes
    first and the other entries keep their order. *)
Definition touch (k : string) (v : V) (es : list (entry V)) : list (entry V) :=
  mk_entry k v :: filter (fun e => key e <> k) es.

(** The value of the last [Add] of [k] in a sequence of operations. *)
Definition last_added (ops : list op) (k : string) : option V :=
  fold_left (fun acc o => match o with
                          | OpAdd k' v => if String.eqb k' k then Some v else acc
                          | OpGet _ => acc
                          end) ops None.

(** The arguments [OnEvicted] is called with for an entry. *)
Definition call_of (e : entry V) : string * V := (key e, value e).
End LruVocabulary.
Arguments op : clear implicits.

(** [ByteView{b: []byte(s)}], for the examples. *)
Definition view (s : string) : geecache.ByteView :=
  geecache.mkByteView (String.list_byte_of_string s).

(** The eviction scenario of the specification: a ceiling of 10 bytes and
    entries of weight 5. *)
Definition S1_ops : list (op geecache.ByteView) :=
  [OpAdd "a" (view "1234"); OpAdd "b" (view "5678");
   OpAdd "c" (view "9012"); OpGet "a"].

(** The engine after that scenario: ["c"] and ["b"] resident, ["a"]
    evicted. *)
Definition S1_state : lru.Cache geecache.ByteView :=
  default (lru.New 10 true) (run 4 (lru.New 10 true) S1_ops).

(** ** The consistent-hash ring *)

(** The hashes of the virtual nodes of a peer, replica 0 first. *)
Definition replica_hashes (m : consistenthash.Map) (p : string) : list Z :=
  (fun i => consistenthash.replica_hash m i p)
    <$> seqZ 0 (consistenthash.replicas m).

(** No virtual node of [p] collides with a virtual node on the ring. *)
Definition no_collision (m : consistenthash.Map) (p : string) : Prop :=
  forall h, h ∈ replica_hashes m p -> consistenthash.hashMap m !! h = None.

(** [i] is the smallest index with [ring[i] >= h], or the length of the
    ring when there is none. *)
Definition successor_index (ring : list Z) (h i : Z) : Prop :=
  0 <= i <= Z.of_nat (length ring) /\
  (forall j, 0 <= j < i -> consistenthash.index ring j < h) /\
  (i < Z.of_nat (length ring) -> h <= consistenthash.index ring i).

(** The states of a ring: what [New], [Add] and [Remove] produce. *)
Inductive ring_state : consistenthash.Map -> Prop :=
| ring_New replicas fn : ring_state (consistenthash.New replicas fn)
| ring_Add m ks : ring_state m -> ring_state (consistenthash.Add m ks)
| ring_Remove m p m' :
    ring_state m -> consistenthash.Remove m p = Some m' -> ring_state m'.

(** The virtual nodes [Add] creates for a list of peers, in the order of
    its two loops, each with its owner. *)
Definition owner_pairs (m : consistenthash.Map) (ps : list string)
  : list (Z * string) :=
  ps ≫= (fun p => (fun h => (h, p)) <$> replica_hashes m p).

(** [m.hashMap[hash] = key] for one virtual node. *)
Definition record_owner (hm : gmap Z string) (hp : Z * string)
  : gmap Z string :=
  <[hp.1 := hp.2]> hm.

(** [t] is the hash of the ring that serves [h]: the least hash of the
    ring that is not below [h], or the least hash of the ring when every
    hash is below [h]. *)
Definition clockwise_next (ring : list Z) (h t : Z) : Prop :=
  t ∈ ring /\
  ((h <= t /\ forall x, x ∈ ring -> h <= x -> t <= x) \/
   ((forall x, x ∈ ring -> x < h) /\ forall x, x ∈ ring -> t <= x)).

(** The ring of the routing scenario: three replicas, three peers, CRC32. *)
Definition S4_ring : consistenthash.Map :=
  consistenthash.Add (consistenthash.New 3 None) ["P1"; "P2"; "P3"].

(** ** Groups and the peer server *)

(** The ceiling of a shell is not negative, and its engine, once created,
    has that ceiling and is in a state the engine's operations keep. *)
Definition shell_Inv (c : geecache.cache) : Prop :=
  0 <= geecache.cacheBytes c /\
  match geecache.lru_ c with
  | Some l => Inv l /\ lru.maxBytes l = geecache.cacheBytes c
  | None => True
  end.

(** The bytes resident in a shell, and fuel enough for one admission. *)
Definition shell_bytes (c : geecache.cache) : Z :=
  match geecache.lru_ c with
  | Some l => resident_bytes l
  | None => 0
  end.

Definition shell_fuel (c : geecache.cache) : nat :=
  match geecache.lru_ c with
  | Some l => S (length (lru.ll l))
  | None => 1%nat
  end.

(** [Group.Get] over the engine's [Add] as the specification words it
    (the eviction loop runs while [max_bytes > 0]), for comparison with
    the source's: the shell's [add], [getLocally], [load] and [Get] with
    [Add_spec] in the place of [lru.Add] and nothing else changed. *)
Definition cache_add_spec (fuel : nat) (c : geecache.cache) (key : string)
    (value : geecache.ByteView) : option geecache.cache :=
  let engine := match geecache.lru_ c with
                | Some l => l
                | None => lru.New (geecache.cacheBytes c) false
                end in
  l' ← Add_spec fuel engine key value;
  Some (geecache.mk_cache (geecache.cacheBytes c) (Some l')).

Definition getLocally_spec (fuel : nat) (g : geecache.Group) (key : string)
  : option geecache.Ret :=
  let '(bytes, err) := geecache.getter g key in
  match err with
  | Some e =>
      Some (geecache.mkRet (geecache.mkByteView []) (Some e) g
                           [geecache.EvGetter key])
  | None =>
      let value := geecache.mkByteView (geecache.cloneBytes bytes) in
      c ← cache_add_spec fuel (geecache.mainCache g) key value;
      Some (geecache.mkRet value None (geecache.set_mainCache g c)
                           [geecache.EvGetter key])
  end.

Definition load_spec (fuel : nat) (g : geecache.Group) (key : string)
  : option geecache.Ret :=
  match geecache.peers g with
  | Some picker =>
      match geecache.PickPeer picker key with
      | Some peer =>
          match geecache.getFromPeer g peer key with
          | (value, None) =>
              Some (geecache.mkRet value None g
                      [geecache.EvPickPeer key;
                       geecache.EvPeerGet (geecache.name g) key])
          | (_, Some err) =>
              geecache.add_events
                [geecache.EvPickPeer key;
                 geecache.EvPeerGet (geecache.name g) key;
                 geecache.EvLog ("[GeeCache] Failed to get from peer " +:+ err)]
                <$> getLocally_spec fuel g key
          end
      | None =>
          geecache.add_events [geecache.EvPickPeer key]
            <$> getLocally_spec fuel g key
      end
  | None => getLocally_spec fuel g key
  end.

Definition Get_spec (fuel : nat) (g : geecache.Group) (key : string)
  : option geecache.Ret :=
  if String.eqb key "" then
    Some (geecache.mkRet (geecache.mkByteView []) (Some "key is required") g [])
  else
    match geecache.cache_get (geecache.mainCache g) key with
    | (c, Some v) =>
        Some (geecache.mkRet v None (geecache.set_mainCache g c)
                             [geecache.EvLog "[GeeCache] hit"])
    | (c, None) => load_spec fuel (geecache.set_mainCache g c) key
    end.

(** [n] calls of [Get] for one key, one after the other on the group as
    the call before left it: what they return, in order. *)
Fixpoint Gets (fuel n : nat) (g : geecache.Group) (key : string)
  : option (list geecache.Ret) :=
  match n with
  | O => Some []
  | S n' =>
      r ← geecache.Get fuel g key;
      rs ← Gets fuel n' (geecache.ret_group r) key;
      Some (r :: rs)
  end.

(** What the remote owner of a key delivers, when the picker selects one. *)
Definition remote_fetch (g : geecache.Group) (key : string)
  : option (geecache.ByteView * option geecache.error) :=
  picker ← geecache.peers g;
  peer ← geecache.PickPeer picker key;
  Some (geecache.getFromPeer g peer key).

(** A loader over a two-row table, and collaborators for the scenarios: a
    peer that always fails, a peer that always answers ["V"], and pickers
    that select them for every key. *)
Definition db_getter : geecache.Getter :=
  fun key =>
    if String.eqb key "Tom" then (String.list_byte_of_string "630", None)
    else if String.eqb key "Jack" then (String.list_byte_of_string "589", None)
    else ([], Some (key +:+ " not exist")).

Definition failing_peer : geecache.PeerClient :=
  geecache.mkPeerClient (fun _ _ => ([], Some "connection refused")).

Definition answering_peer : geecache.PeerClient :=
  geecache.mkPeerClient (fun _ _ => (String.list_byte_of_string "V", None)).

Definition always (peer : geecache.PeerClient) : geecache.PeerPicker :=
  geecache.mkPeerPicker (fun _ => Some peer).

Definition scores (cacheBytes : Z) (picker : option geecache.PeerPicker)
  : geecache.Group :=
  geecache.mkGroup "scores" db_getter (geecache.mk_cache cacheBytes None) picker.

(** What the first [Get] of ["Tom"] returns on that group without peers. *)
Definition Tom_ret : geecache.Ret :=
  default (geecache.mkRet (geecache.mkByteView []) None (scores 2048 None) [])
          (geecache.Get 1 (scores 2048 None) "Tom").

(** A registry holding the group of the scenarios, without peers. *)
Definition one_group : gmap string geecache.Group :=
  {["scores" := scores 2048 None]}.

(** ** The peer client *)

(** The value of an upper-case hexadecimal digit. *)
Definition unhex (c : Ascii.ascii) : N :=
  if http_client.between "0" "9" c then (Ascii.N_of_ascii c - 48)%N
  else (Ascii.N_of_ascii c - 55)%N.

(** Reading an escaped string back: ['+'] is a space and ['%XY'] the
    byte with the hexadecimal digits [X] and [Y]. *)
Fixpoint unescape (s : string) : string :=
  match s with
  | EmptyString => EmptyString
  | String c r =>
      if Ascii.eqb c "+" then String " " (unescape r)
      else if Ascii.eqb c "%" then
        match r with
        | String h (String l r') =>
            String (Ascii.ascii_of_N (16 * unhex h + unhex l)) (unescape r')
        | _ => s
        end
      else String c (unescape r)
  end.

(** A string of letters, digits and the marks [-_.~]. *)
Definition unreserved (s : string) : Prop :=
  Forall (fun c => http_client.shouldEscape c = false)
         (String.list_ascii_of_string s).

(** A network on which every request is answered [200 OK] with the body
    ["630"], and one on which every request fails. *)
Definition net_ok : http_client.Transport :=
  fun _ => inl (http_client.mkReply 200 "200 OK"
                  (String.list_byte_of_string "630", None)).

Definition net_down : http_client.Transport :=
  fun _ => inr "connection refused".

(* ===================================================================== *)
(** * Part III.  Properties                                               *)
(* ===================================================================== *)

(** ** Machine integers *)

Lemma wrap64_small (z : Z) :
  I64.min_int64 <= z <= I64.max_int64 -> I64.wrap64 z = z.
Proof.
  unfold I64.min_int64, I64.max_int64, I64.wrap64. intros Hz.
  rewrite Z.mod_small; lia.
Qed.

(** ** Nodes of the recency list *)

Section ListFacts.
Context {A : Type}.
Implicit Types (l : list (clist.Element A)) (e : clist.Element A) (a : nat).

Lemma is_elem_true a e : clist.is_elem a e = true <-> clist.addr e = a.
Proof. unfold clist.is_elem. apply Nat.eqb_eq. Qed.

Lemma is_elem_false a e : clist.is_elem a e = false <-> clist.addr e <> a.
Proof. unfold clist.is_elem. apply Nat.eqb_neq. Qed.

Lemma deref_elem a l e :
  clist.deref a l = Some e -> e ∈ l /\ clist.addr e = a.
Proof.
  unfold clist.deref. intros Hf. apply find_some in Hf as [Hin Ha].
  split; [by apply list_elem_of_In | by apply is_elem_true].
Qed.

Lemma deref_absent a l : a ∉ clist.addr <$> l -> clist.deref a l = None.
Proof.
  intros Hn. destruct (clist.deref a l) as [e|] eqn:E; [|done].
  apply deref_elem in E as [Hin <-]. destruct Hn.
  by apply list_elem_of_fmap_2.
Qed.

Lemma Remove_absent a l : a ∉ clist.addr <$> l -> clist.Remove a l = l.
Proof.
  induction l as [|e l IH]; [done|]. rewrite fmap_cons, not_elem_of_cons.
  intros [Hne Hn]. simpl.
  assert (clist.is_elem a e = false) as -> by (apply is_elem_false; congruence).
  simpl. by rewrite (IH Hn).
Qed.

Lemma store_absent a x l : a ∉ clist.addr <$> l -> clist.store a x l = l.
Proof.
  induction l as [|e l IH]; [done|]. rewrite fmap_cons, not_elem_of_cons.
  intros [Hne Hn]. simpl.
  assert (clist.is_elem a e = false) as -> by (apply is_elem_false; congruence).
  by rewrite (IH Hn).
Qed.

Lemma deref_middle l1 e l2 :
  clist.addr e ∉ clist.addr <$> l1 ->
  clist.deref (clist.addr e) (l1 ++ e :: l2) = Some e.
Proof.
  induction l1 as [|x l1 IH]; simpl.
  - intros _. unfold clist.is_elem. by rewrite Nat.eqb_refl.
  - rewrite not_elem_of_cons. intros [Hne Hn].
    assert (clist.is_elem (clist.addr e) x = false) as ->
      by (apply is_elem_false; congruence).
    by apply IH.
Qed.

Lemma deref_head e l : clist.deref (clist.addr e) (e :: l) = Some e.
Proof. simpl. unfold clist.is_elem. by rewrite Nat.eqb_refl. Qed.

Lemma store_head e x l :
  clist.addr e ∉ clist.addr <$> l ->
  clist.store (clist.addr e) x (e :: l) = clist.mkElement (clist.addr e) x :: l.
Proof.
  intros Hn. unfold clist.store. simpl.
  assert (clist.is_elem (clist.addr e) e = true) as ->
    by by apply is_elem_true.
  f_equal. by apply store_absent.
Qed.

Lemma Remove_middle l1 e l2 :
  clist.addr e ∉ clist.addr <$> l1 ->
  clist.addr e ∉ clist.addr <$> l2 ->
  clist.Remove (clist.addr e) (l1 ++ e :: l2) = l1 ++ l2.
Proof.
  intros H1 H2. unfold clist.Remove. rewrite List.filter_app. simpl.
  assert (clist.is_elem (clist.addr e) e = true) as ->
    by by apply is_elem_true.
  simpl. fold (clist.Remove (clist.addr e) l1).
  fold (clist.Remove (clist.addr e) l2).
  by rewrite !Remove_absent.
Qed.

(** A linked node splits the list around itself. *)
Lemma node_split l e :
  NoDup (clist.addr <$> l) -> e ∈ l ->
  exists l1 l2, l = l1 ++ e :: l2 /\
    (clist.addr e ∉ clist.addr <$> l1) /\ (clist.addr e ∉ clist.addr <$> l2).
Proof.
  intros Hnd Hin. apply list_elem_of_split in Hin as (l1 & l2 & ->).
  exists l1, l2. split; [done|].
  rewrite fmap_app, fmap_cons in Hnd.
  apply NoDup_app in Hnd as (_ & Hdisj & Hnd2).
  apply NoDup_cons in Hnd2 as [Hn2 _]. split; [|done].
  intros Hin1. apply (Hdisj _ Hin1). left.
Qed.

Lemma MoveToFront_middle l1 e l2 :
  clist.addr e ∉ clist.addr <$> l1 ->
  clist.addr e ∉ clist.addr <$> l2 ->
  clist.MoveToFront (clist.addr e) (l1 ++ e :: l2) = e :: l1 ++ l2.
Proof.
  intros H1 H2. unfold clist.MoveToFront.
  by rewrite deref_middle, Remove_middle.
Qed.

Lemma Back_snoc l e : clist.Back (l ++ [e]) = Some e.
Proof. unfold clist.Back. apply last_snoc. Qed.

Lemma Back_None l : clist.Back l = None -> l = [].
Proof. unfold clist.Back. apply last_None. Qed.

Lemma Back_Some l e : clist.Back l = Some e -> exists l', l = l' ++ [e].
Proof.
  unfold clist.Back. intros Hl.
  destruct l as [|x l] using rev_ind; [done|].
  rewrite last_snoc in Hl. injection Hl as ->. by exists l.
Qed.
End ListFacts.

(** ** The LRU engine *)

Section LruFacts.
Context {V : Type} `{lru.Value V}.
Import I64 lru.
Implicit Types (c : Cache V) (l : list (clist.Element (entry V)))
  (e : clist.Element (entry V)) (k : string) (v : V).

Lemma len_nonneg k : 0 <= len k.
Proof. unfold len. lia. Qed.

Lemma weight_nonneg (x : entry V) : 0 <= weight x.
Proof.
  unfold weight. pose proof (len_nonneg (key x)).
  pose proof (Len_nonneg (value x)). lia.
Qed.

Lemma total_weight_app l1 l2 :
  total_weight (l1 ++ l2) = total_weight l1 + total_weight l2.
Proof. induction l1 as [|e l1 IH]; simpl; [done|]. rewrite IH. lia. Qed.

Lemma total_weight_nonneg l : 0 <= total_weight l.
Proof.
  induction l as [|e l IH]; simpl; [done|].
  pose proof (weight_nonneg (clist.Value e)). lia.
Qed.

Lemma total_weight_perm l l' : l ≡ₚ l' -> total_weight l = total_weight l'.
Proof. induction 1; simpl; lia. Qed.

(** Weights that fit are not touched by the [int64] arithmetic. *)
Lemma weight64 k v :
  len k + Len v <= max_int64 ->
  add64 (int64 (len k)) (int64 (Len v)) = len k + Len v.
Proof.
  intros Hfit. pose proof (len_nonneg k). pose proof (Len_nonneg v).
  unfold add64, int64, max_int64, min_int64 in *.
  rewrite !(wrap64_small (len k)), !(wrap64_small (Len v)), wrap64_small;
    unfold max_int64, min_int64; lia.
Qed.

Lemma evict_loop_mono fuel fuel' c c' :
  evict_loop fuel c = Some c' -> (fuel <= fuel')%nat ->
  evict_loop fuel' c = Some c'.
Proof.
  revert fuel' c. induction fuel as [|fuel IH]; intros fuel' c; simpl.
  - destruct (over_budget c) eqn:E; [done|]. intros [= <-] _.
    destruct fuel'; simpl; by rewrite E.
  - destruct (over_budget c) eqn:E.
    + intros Hl Hle. destruct fuel' as [|fuel']; [lia|]. simpl. rewrite E.
      apply IH; [done|lia].
    + intros [= <-] _. destruct fuel'; simpl; by rewrite E.
Qed.

(** *** The index and the list *)

Lemma linked_perm c c' :
  linked c -> ll c' ≡ₚ ll c -> cache c' = cache c -> fresh c' = fresh c ->
  linked c'.
Proof.
  intros [Hnd Hfr Hix] Hp Hc Hf. split.
  - by rewrite Hp.
  - rewrite Hf. by rewrite Hp.
  - intros k a. rewrite Hc, Hix. by setoid_rewrite Hp.
Qed.

Lemma linked_hit c k a :
  linked c -> cache c !! k = Some a ->
  exists e l1 l2, ll c = l1 ++ e :: l2 /\ clist.addr e = a /\
    key (clist.Value e) = k /\
    (a ∉ clist.addr <$> l1) /\ (a ∉ clist.addr <$> l2).
Proof.
  intros [Hnd _ Hix] Hk. apply Hix in Hk as (e & Hin & Ha & Hkey).
  destruct (node_split _ _ Hnd Hin) as (l1 & l2 & Hl & H1 & H2).
  exists e, l1, l2. subst a. done.
Qed.

Lemma linked_miss c k e :
  linked c -> cache c !! k = None -> e ∈ ll c -> key (clist.Value e) <> k.
Proof.
  intros [_ _ Hix] Hk Hin Hkey.
  assert (cache c !! k = Some (clist.addr e)) as Hs by (apply Hix; eauto).
  congruence.
Qed.

(** *** [Get] *)

Lemma Get_miss c k : cache c !! k = None -> Get c k = (c, None).
Proof. unfold Get. by intros ->. Qed.

Lemma Get_hit c k a :
  linked c -> cache c !! k = Some a ->
  exists e l1 l2, ll c = l1 ++ e :: l2 /\ clist.addr e = a /\
    key (clist.Value e) = k /\
    Get c k = (mkCache (maxBytes c) (nowBytes c) (e :: l1 ++ l2) (cache c)
                       (OnEvicted c) (evicted c) (fresh c),
               Some (value (clist.Value e))).
Proof.
  intros Hl Hk.
  destruct (linked_hit _ _ _ Hl Hk) as (e & l1 & l2 & Hll & Ha & Hkey & H1 & H2).
  exists e, l1, l2. repeat split; try done.
  unfold Get. rewrite Hk, Hll. subst a.
  rewrite MoveToFront_middle by done.
  by rewrite deref_head.
Qed.

Lemma Get_Inv c k : Inv c -> Inv (Get c k).1.
Proof.
  intros [Hl Hb Hf]. destruct (cache c !! k) as [a|] eqn:Hk.
  - destruct (Get_hit _ _ _ Hl Hk) as (e & l1 & l2 & Hll & _ & _ & ->).
    assert (e :: l1 ++ l2 ≡ₚ ll c) as Hp
      by (rewrite Hll; apply Permutation_middle).
    unfold resident_bytes in *.
    split; [by apply (linked_perm c)|..]; unfold resident_bytes;
      cbn [fst ll nowBytes]; by rewrite (total_weight_perm _ _ Hp).
  - rewrite Get_miss by done. by split.
Qed.

(** *** [RemoveOldest] *)

Lemma RemoveOldest_empty c : ll c = [] -> RemoveOldest c = c.
Proof. unfold RemoveOldest. by intros ->. Qed.

Lemma RemoveOldest_snoc c l e :
  Inv c -> ll c = l ++ [e] ->
  RemoveOldest c =
    mkCache (maxBytes c) (nowBytes c - weight (clist.Value e)) l
            (delete (key (clist.Value e)) (cache c)) (OnEvicted c)
            (if OnEvicted c
             then evicted c ++ [(key (clist.Value e), value (clist.Value e))]
             else evicted c)
            (fresh c).
Proof.
  intros [[Hnd _ _] Hb Hf] Hll. unfold RemoveOldest.
  rewrite Hll, Back_snoc. rewrite Hll in Hnd.
  assert (clist.addr e ∉ clist.addr <$> l) as Hn.
  { rewrite fmap_app in Hnd. apply NoDup_app in Hnd as (_ & Hd & _).
    intros Hin. apply (Hd _ Hin). simpl. left. }
  rewrite (Remove_middle l e []) by (done || simpl; apply not_elem_of_nil).
  rewrite app_nil_r. f_equal.
  unfold resident_bytes in *. rewrite Hll, total_weight_app in Hb, Hf.
  simpl in Hb, Hf. pose proof (total_weight_nonneg l).
  pose proof (weight_nonneg (clist.Value e)) as Hw.
  rewrite weight64 by (unfold weight in *; lia).
  unfold sub64. fold (weight (clist.Value e)).
  apply wrap64_small. unfold min_int64, max_int64 in *. lia.
Qed.

Lemma RemoveOldest_Inv c : Inv c -> Inv (RemoveOldest c).
Proof.
  intros HI. destruct (clist.Back (ll c)) as [e|] eqn:Hb.
  2:{ apply Back_None in Hb. by rewrite RemoveOldest_empty. }
  apply Back_Some in Hb as [l Hll].
  rewrite (RemoveOldest_snoc c l e HI Hll).
  destruct HI as [[Hnd Hfr Hix] Hb Hf].
  unfold resident_bytes in *. rewrite Hll in Hnd, Hfr, Hb, Hf.
  rewrite total_weight_app in Hb, Hf. simpl in Hb, Hf.
  rewrite fmap_app in Hnd. apply NoDup_app in Hnd as (Hnd1 & Hd & _).
  assert (clist.addr e ∉ clist.addr <$> l) as Hn.
  { intros Hin. apply (Hd _ Hin). simpl. left. }
  pose proof (weight_nonneg (clist.Value e)) as Hw.
  split; [split|..]; simpl.
  - done.
  - by apply Forall_app in Hfr as [? _].
  - intros k a. rewrite lookup_delete_Some, Hix, Hll. split.
    + intros (Hne & x & Hin & Ha & Hk). exists x. repeat split; try done.
      apply elem_of_app in Hin as [?|Hin]; [done|].
      apply list_elem_of_singleton in Hin. subst x. congruence.
    + intros (x & Hin & Ha & Hk). split.
      * intros Heq.
        assert (cache c !! k = Some (clist.addr x)) as E1.
        { apply Hix. exists x. rewrite Hll, elem_of_app. auto. }
        assert (cache c !! k = Some (clist.addr e)) as E2.
        { apply Hix. exists e. rewrite Hll, elem_of_app, list_elem_of_singleton.
          auto. }
        rewrite E1 in E2. injection E2 as E2. apply Hn. rewrite <- E2.
        by apply list_elem_of_fmap_2.
      * exists x. rewrite elem_of_app. auto.
  - unfold resident_bytes. simpl. lia.
  - unfold resident_bytes. simpl. lia.
Qed.

(** *** The two branches of [Add] *)

Lemma Add_body_absent c k v :
  cache c !! k = None ->
  resident_bytes c + (len k + Len v) <= max_int64 -> Inv c ->
  Add_body c k v =
    mkCache (maxBytes c) (nowBytes c + (len k + Len v))
            (clist.mkElement (fresh c) (mk_entry k v) :: ll c)
            (<[k := fresh c]> (cache c)) (OnEvicted c) (evicted c)
            (S (fresh c)).
Proof.
  intros Hk Hfit [_ Hb _]. unfold Add_body. rewrite Hk.
  unfold clist.PushFront. f_equal.
  pose proof (total_weight_nonneg (ll c)) as Hnn.
  pose proof (len_nonneg k). pose proof (Len_nonneg v).
  unfold resident_bytes in *.
  rewrite weight64 by lia. unfold add64.
  apply wrap64_small. unfold min_int64, max_int64 in *. lia.
Qed.

Lemma Add_body_present c k v a :
  cache c !! k = Some a ->
  resident_bytes c + (len k + Len v) <= max_int64 -> Inv c ->
  exists old l1 l2,
    ll c = l1 ++ clist.mkElement a (mk_entry k old) :: l2 /\
    (a ∉ clist.addr <$> l1) /\ (a ∉ clist.addr <$> l2) /\
    Add_body c k v =
      mkCache (maxBytes c) (nowBytes c + (Len v - Len old))
              (clist.mkElement a (mk_entry k v) :: l1 ++ l2)
              (cache c) (OnEvicted c) (evicted c) (fresh c).
Proof.
  intros Hk Hfit [Hl Hb Hf].
  destruct (linked_hit _ _ _ Hl Hk) as (e & l1 & l2 & Hll & Ha & Hkey & H1 & H2).
  exists (value (clist.Value e)), l1, l2.
  assert (clist.mkElement a (mk_entry k (value (clist.Value e))) = e) as He
    by (destruct e as [? []]; simpl in *; congruence).
  rewrite He. repeat split; try done.
  unfold Add_body. rewrite Hk, Hll. subst a.
  rewrite MoveToFront_middle by done. rewrite deref_head. cbn zeta.
  rewrite store_head
    by (rewrite fmap_app, elem_of_app; intros [?|?]; done).
  rewrite Hkey. f_equal.
  set (old := value (clist.Value e)) in *.
  rewrite <- He in Hll. clear He.
  unfold resident_bytes in *. rewrite Hll, total_weight_app in Hb, Hf, Hfit.
  simpl in Hb, Hf, Hfit. unfold weight in Hb, Hf, Hfit. simpl in *.
  pose proof (total_weight_nonneg l1). pose proof (total_weight_nonneg l2).
  pose proof (len_nonneg k). pose proof (Len_nonneg v).
  pose proof (Len_nonneg old).
  unfold add64, sub64, int64.
  rewrite (wrap64_small (Len v)), (wrap64_small (Len old)),
    (wrap64_small (Len v - Len old)), wrap64_small;
    unfold min_int64, max_int64 in *; lia.
Qed.

Lemma Add_body_Inv c k v :
  resident_bytes c + (len k + Len v) <= max_int64 -> Inv c ->
  Inv (Add_body c k v) /\
  resident_bytes (Add_body c k v) <= resident_bytes c + (len k + Len v).
Proof.
  intros Hfit HI. destruct (cache c !! k) as [a|] eqn:Hk.
  - destruct (Add_body_present c k v a Hk Hfit HI)
      as (old & l1 & l2 & Hll & H1 & H2 & ->).
    destruct HI as [[Hnd Hfr Hix] Hb Hf].
    unfold resident_bytes in *. rewrite Hll in Hnd, Hfr, Hb, Hf, Hfit.
    rewrite total_weight_app in Hb, Hf, Hfit. simpl in Hb, Hf, Hfit.
    unfold weight in Hb, Hf, Hfit. simpl in Hb, Hf, Hfit.
    pose proof (len_nonneg k). pose proof (Len_nonneg v).
    pose proof (Len_nonneg old).
    split; [split; [split|..]|]; simpl.
    + rewrite fmap_app, fmap_cons in Hnd. simpl in Hnd.
      apply NoDup_app in Hnd as (Hn1 & Hd & Hn2).
      apply NoDup_cons in Hn2 as [_ Hn2].
      apply NoDup_cons. split.
      * rewrite fmap_app, elem_of_app. intros [?|?]; done.
      * rewrite fmap_app. apply NoDup_app. repeat split; try done.
        intros x Hx1 Hx2. apply (Hd x Hx1). by right.
    + apply Forall_app in Hfr as [Hf1 Hf2].
      apply Forall_cons in Hf2 as [Hfa Hf2].
      apply Forall_cons. split; [done|]. by apply Forall_app.
    + intros k' a'. rewrite Hix, Hll. split.
      * intros (x & Hin & Ha & Hkey).
        apply elem_of_app in Hin as [Hin|Hin].
        { exists x. rewrite elem_of_cons, elem_of_app. auto. }
        apply elem_of_cons in Hin as [->|Hin].
        { exists (clist.mkElement a (mk_entry k v)).
          rewrite elem_of_cons. auto. }
        exists x. rewrite elem_of_cons, elem_of_app. auto.
      * intros (x & Hin & Ha & Hkey).
        apply elem_of_cons in Hin as [->|Hin].
        { exists (clist.mkElement a (mk_entry k old)).
          rewrite elem_of_app, elem_of_cons. auto. }
        exists x. apply elem_of_app in Hin as [Hin|Hin];
          rewrite elem_of_app, elem_of_cons; auto.
    + unfold resident_bytes. simpl. rewrite total_weight_app.
      unfold weight. simpl. lia.
    + unfold resident_bytes. simpl. rewrite total_weight_app.
      unfold weight. simpl. lia.
    + simpl. rewrite Hll, !total_weight_app. simpl. unfold weight. simpl. lia.
  - rewrite (Add_body_absent c k v Hk Hfit HI).
    pose proof (linked_miss c k) as Hmiss.
    destruct HI as [[Hnd Hfr Hix] Hb Hf].
    assert (linked c) as Hl by done.
    unfold resident_bytes in *.
    split; [split; [split|..]|]; simpl.
    + apply NoDup_cons. split; [|done].
      intros Hin. apply list_elem_of_fmap in Hin as (x & Hx & Hin).
      rewrite Forall_forall in Hfr. specialize (Hfr x Hin). lia.
    + apply Forall_cons. split; [simpl; lia|].
      eapply Forall_impl; [exact Hfr|]. simpl. intros; lia.
    + intros k' a'. rewrite lookup_insert_Some, Hix. split.
      * intros [[<- <-]|(Hne & x & Hin & Ha & Hkey)].
        { exists (clist.mkElement (fresh c) (mk_entry k v)).
          rewrite elem_of_cons. auto. }
        exists x. rewrite elem_of_cons. auto.
      * intros (x & Hin & Ha & Hkey).
        apply elem_of_cons in Hin as [->|Hin]; [left; auto|].
        right. split; [|eauto].
        intros <-. by apply (Hmiss x Hl Hk Hin).
    + unfold resident_bytes. simpl. unfold weight. simpl. lia.
    + unfold resident_bytes. simpl. unfold weight. simpl. lia.
    + simpl. unfold weight. simpl. lia.
Qed.

(** *** The eviction loop *)

Lemma RemoveOldest_frame c :
  maxBytes (RemoveOldest c) = maxBytes c /\
  OnEvicted (RemoveOldest c) = OnEvicted c.
Proof. unfold RemoveOldest. by destruct (clist.Back (ll c)). Qed.

Lemma RemoveOldest_ll c l e :
  Inv c -> ll c = l ++ [e] -> ll (RemoveOldest c) = l.
Proof. intros HI Hll. by rewrite (RemoveOldest_snoc c l e HI Hll). Qed.

Lemma evict_loop_done fuel c :
  over_budget c = false -> evict_loop fuel c = Some c.
Proof. intros E. destruct fuel; simpl; by rewrite E. Qed.

Lemma evict_loop_step fuel c :
  over_budget c = true ->
  evict_loop (S fuel) c = evict_loop fuel (RemoveOldest c).
Proof. intros E. simpl. by rewrite E. Qed.

Lemma over_budget_false c :
  over_budget c = false <-> maxBytes c = 0 \/ nowBytes c <= maxBytes c.
Proof.
  unfold over_budget. rewrite andb_false_iff, negb_false_iff.
  rewrite Z.eqb_eq, Z.ltb_ge. done.
Qed.

Lemma over_budget_true c :
  over_budget c = true <-> maxBytes c <> 0 /\ maxBytes c < nowBytes c.
Proof.
  unfold over_budget. rewrite andb_true_iff, negb_true_iff.
  rewrite Z.eqb_neq, Z.ltb_lt. done.
Qed.

Lemma over_budget_empty c :
  Inv c -> 0 <= maxBytes c -> ll c = [] -> over_budget c = false.
Proof.
  intros [_ Hb _] Hmax Hll. apply over_budget_false.
  unfold resident_bytes in Hb. rewrite Hll in Hb. simpl in Hb. lia.
Qed.

(** With a non-negative ceiling the loop stops after at most as many
    evictions as there are entries; every turn before the last one found
    the engine over budget and removed the tail. *)
Lemma evict_loop_total c :
  Inv c -> 0 <= maxBytes c ->
  exists n, (n <= length (ll c))%nat /\
    evict_loop (length (ll c)) c = Some (Nat.iter n RemoveOldest c) /\
    Inv (Nat.iter n RemoveOldest c) /\
    over_budget (Nat.iter n RemoveOldest c) = false /\
    (length (ll (Nat.iter n RemoveOldest c)) + n = length (ll c))%nat /\
    (forall i, (i < n)%nat ->
       over_budget (Nat.iter i RemoveOldest c) = true).
Proof.
  remember (length (ll c)) as m eqn:Hm. revert c Hm.
  induction m as [|m IH]; intros c Hm HI Hmax.
  - exists 0%nat. simpl.
    assert (ll c = []) as Hll by (by destruct (ll c)).
    rewrite (over_budget_empty c HI Hmax Hll).
    split_and!; try done; try lia.
  - destruct (over_budget c) eqn:E.
    2:{ exists 0%nat. simpl. rewrite E. split_and!; try done; lia. }
    destruct (clist.Back (ll c)) as [e|] eqn:Hb.
    2:{ apply Back_None in Hb. rewrite Hb in Hm. done. }
    apply Back_Some in Hb as [l Hll].
    pose proof (RemoveOldest_Inv c HI) as HI1.
    pose proof (RemoveOldest_ll c l e HI Hll) as Hll1.
    destruct (RemoveOldest_frame c) as [Hmx _].
    assert (m = length (ll (RemoveOldest c))) as Hm1.
    { rewrite Hll1. rewrite Hll, length_app in Hm. simpl in Hm. lia. }
    destruct (IH (RemoveOldest c) Hm1 HI1) as (n & Hn & Hev & HIn & Hob & Hlen & Hbefore);
      [lia|].
    exists (S n). rewrite !Nat.iter_succ_r, evict_loop_step by done.
    split_and!; try done; try lia.
    intros [|i] Hi; [done|]. rewrite Nat.iter_succ_r. apply Hbefore. lia.
Qed.

Lemma linked_empty c : linked c -> ll c = [] -> cache c = ∅.
Proof.
  intros [_ _ Hix] Hll. apply map_eq. intros k. rewrite lookup_empty.
  destruct (cache c !! k) as [a|] eqn:E; [|done].
  apply Hix in E as (e & Hin & _). rewrite Hll in Hin.
  by apply not_elem_of_nil in Hin.
Qed.

(** When the front entry alone weighs more than a positive ceiling, the
    loop empties the engine, and the front entry goes last. *)
Lemma evict_loop_oversized e l : forall c,
  Inv c -> ll c = e :: l ->
  0 < maxBytes c < weight (clist.Value e) ->
  exists c', evict_loop (S (length l)) c = Some c' /\
    Inv c' /\ ll c' = [] /\ nowBytes c' = 0 /\
    maxBytes c' = maxBytes c /\ OnEvicted c' = OnEvicted c /\
    (OnEvicted c = true ->
     last (evicted c') = Some (key (clist.Value e), value (clist.Value e))).
Proof.
  induction l as [|x l IH] using rev_ind; intros c HI Hll Hw.
  - assert (over_budget c = true) as E.
    { apply over_budget_true. destruct HI as [_ Hb _].
      unfold resident_bytes in Hb. rewrite Hll in Hb. simpl in Hb. lia. }
    simpl. rewrite E.
    pose proof (RemoveOldest_Inv c HI) as HI1.
    pose proof (RemoveOldest_snoc c [] e HI Hll) as HR.
    destruct HI as [_ Hb _]. unfold resident_bytes in Hb.
    rewrite Hll in Hb. simpl in Hb.
    exists (RemoveOldest c).
    assert (over_budget (RemoveOldest c) = false) as E1.
    { apply over_budget_false. rewrite HR. simpl. lia. }
    rewrite E1. rewrite HR in *. simpl. split_and!; try done; try lia.
    intros ->. by rewrite last_snoc.
  - assert (over_budget c = true) as E.
    { apply over_budget_true. destruct HI as [_ Hb _].
      unfold resident_bytes in Hb. rewrite Hll in Hb. simpl in Hb.
      rewrite total_weight_app in Hb. simpl in Hb.
      pose proof (total_weight_nonneg l).
      pose proof (weight_nonneg (clist.Value x)). lia. }
    rewrite length_app. simpl length.
    replace (S (length l + 1)) with (S (S (length l))) by lia.
    rewrite evict_loop_step by done.
    pose proof (RemoveOldest_Inv c HI) as HI1.
    pose proof (RemoveOldest_ll c (e :: l) x HI) as Hll1.
    rewrite Hll in Hll1. specialize (Hll1 eq_refl).
    destruct (RemoveOldest_frame c) as [Hmx Hcb].
    destruct (IH (RemoveOldest c) HI1 Hll1) as (c' & Hev & ? & ? & ? & ? & ? & Hlast);
      [lia|].
    exists c'. rewrite Hev. split_and!; try done; try congruence.
    intros Hon. apply Hlast. congruence.
Qed.

(** *** [Add] as a whole *)

Lemma iter_RemoveOldest_frame n c :
  maxBytes (Nat.iter n RemoveOldest c) = maxBytes c /\
  OnEvicted (Nat.iter n RemoveOldest c) = OnEvicted c.
Proof.
  induction n as [|n [IH1 IH2]]; [done|]. simpl.
  destruct (RemoveOldest_frame (Nat.iter n RemoveOldest c)). split; congruence.
Qed.

Lemma RemoveOldest_bytes c :
  Inv c -> resident_bytes (RemoveOldest c) <= resident_bytes c.
Proof.
  intros HI. destruct (clist.Back (ll c)) as [e|] eqn:Hb.
  - apply Back_Some in Hb as [l Hll].
    unfold resident_bytes. rewrite (RemoveOldest_ll c l e HI Hll), Hll.
    rewrite total_weight_app. simpl.
    pose proof (weight_nonneg (clist.Value e)). lia.
  - apply Back_None in Hb. by rewrite RemoveOldest_empty.
Qed.

Lemma iter_RemoveOldest_Inv n c :
  Inv c ->
  Inv (Nat.iter n RemoveOldest c) /\
  resident_bytes (Nat.iter n RemoveOldest c) <= resident_bytes c.
Proof.
  intros HI. induction n as [|n [IH1 IH2]]; [done|]. simpl. split.
  - by apply RemoveOldest_Inv.
  - pose proof (RemoveOldest_bytes _ IH1). lia.
Qed.

Lemma Add_body_frame c k v :
  maxBytes (Add_body c k v) = maxBytes c /\
  OnEvicted (Add_body c k v) = OnEvicted c.
Proof.
  unfold Add_body. destruct (cache c !! k); [|done].
  by destruct (clist.deref _ _).
Qed.

Lemma Add_body_front c k v :
  resident_bytes c + (len k + Len v) <= max_int64 -> Inv c ->
  exists a l, ll (Add_body c k v) = clist.mkElement a (mk_entry k v) :: l /\
    (length l <= length (ll c))%nat.
Proof.
  intros Hfit HI. destruct (cache c !! k) as [a|] eqn:Hk.
  - destruct (Add_body_present c k v a Hk Hfit HI)
      as (old & l1 & l2 & Hll & _ & _ & ->).
    exists a, (l1 ++ l2). split; [done|].
    rewrite Hll, !length_app. simpl. lia.
  - rewrite (Add_body_absent c k v Hk Hfit HI). by exists (fresh c), (ll c).
Qed.

(** [Add] returns whenever the ceiling is not negative, having evicted
    tail entries exactly as long as the guard of the loop held. *)
Lemma Add_ok fuel c k v :
  Inv c -> 0 <= maxBytes c ->
  resident_bytes c + (len k + Len v) <= max_int64 ->
  (S (length (ll c)) <= fuel)%nat ->
  exists n, let c' := Nat.iter n RemoveOldest (Add_body c k v) in
    Add fuel c k v = Some c' /\ Inv c' /\ over_budget c' = false /\
    (forall i, (i < n)%nat ->
       over_budget (Nat.iter i RemoveOldest (Add_body c k v)) = true) /\
    maxBytes c' = maxBytes c /\ OnEvicted c' = OnEvicted c /\
    resident_bytes c' <= resident_bytes c + (len k + Len v) /\
    (length (ll c') + n <= S (length (ll c)))%nat.
Proof.
  intros HI Hmax Hfit Hfuel.
  destruct (Add_body_Inv c k v Hfit HI) as [HIb Hbb].
  destruct (Add_body_frame c k v) as [Hmb Hcb].
  destruct (Add_body_front c k v Hfit HI) as (a & l & Hll & Hlen).
  destruct (evict_loop_total (Add_body c k v) HIb)
    as (n & Hn & Hev & HIn & Hob & Hln & Hbefore); [lia|].
  exists n. cbn zeta.
  destruct (iter_RemoveOldest_frame n (Add_body c k v)) as [Hm' Hc'].
  destruct (iter_RemoveOldest_Inv n _ HIb) as [_ Hle].
  split_and!; try done; try congruence; try lia.
  - unfold Add. eapply evict_loop_mono; [exact Hev|].
    rewrite Hll. simpl. lia.
  - rewrite Hll in Hln. simpl in Hln. lia.
Qed.

(** The edge case: an entry that alone exceeds a positive ceiling. *)
Lemma Add_oversized fuel c k v :
  Inv c -> resident_bytes c + (len k + Len v) <= max_int64 ->
  (S (length (ll c)) <= fuel)%nat ->
  0 < maxBytes c < len k + Len v ->
  exists c', Add fuel c k v = Some c' /\ Inv c' /\
    ll c' = [] /\ cache c' = ∅ /\ nowBytes c' = 0 /\
    (OnEvicted c = true -> last (evicted c') = Some (k, v)).
Proof.
  intros HI Hfit Hfuel Hw.
  destruct (Add_body_Inv c k v Hfit HI) as [HIb _].
  destruct (Add_body_frame c k v) as [Hmb Hcb].
  destruct (Add_body_front c k v Hfit HI) as (a & l & Hll & Hlen).
  destruct (evict_loop_oversized _ l (Add_body c k v) HIb Hll)
    as (c' & Hev & HI' & Hl' & Hn' & _ & _ & Hlast).
  { simpl. unfold weight. simpl. lia. }
  exists c'. split_and!; try done.
  - unfold Add. eapply evict_loop_mono; [exact Hev|]. lia.
  - apply linked_empty; [apply HI'|done].
  - intros Hon. apply Hlast. congruence.
Qed.

(** *** Sequences of operations *)

Lemma New_Inv maxB cb : Inv (New (V:=V) maxB cb).
Proof.
  split; [split|..]; simpl.
  - apply NoDup_nil_2.
  - apply Forall_nil_2.
  - intros k a. rewrite lookup_empty. split; [done|].
    intros (e & Hin & _). by apply not_elem_of_nil in Hin.
  - done.
  - unfold resident_bytes, max_int64. simpl. lia.
Qed.

Lemma run_app fuel c ops1 ops2 :
  run fuel c (ops1 ++ ops2) = c' ← run fuel c ops1; run fuel c' ops2.
Proof.
  revert c. induction ops1 as [|o ops1 IH]; intros c; simpl; [done|].
  destruct (step fuel c o) as [c1|]; simpl; [apply IH|done].
Qed.

Lemma offered_bytes_app ops1 ops2 :
  offered_bytes (ops1 ++ ops2) = offered_bytes ops1 + offered_bytes ops2.
Proof.
  induction ops1 as [|[k v|k] ops1 IH]; simpl; [done|..]; rewrite IH; lia.
Qed.

Lemma offered_bytes_nonneg ops : 0 <= offered_bytes ops.
Proof.
  induction ops as [|[k v|k] ops IH]; simpl; [done|..]; [|done].
  pose proof (len_nonneg k). pose proof (Len_nonneg v). lia.
Qed.

Lemma Get_fst c k :
  (Get c k).1 =
  match cache c !! k with
  | Some a => mkCache (maxBytes c) (nowBytes c) (clist.MoveToFront a (ll c))
                      (cache c) (OnEvicted c) (evicted c) (fresh c)
  | None => c
  end.
Proof.
  unfold Get. destruct (cache c !! k); [|done].
  by destruct (clist.deref _ _).
Qed.

Lemma Get_frame c k :
  maxBytes (Get c k).1 = maxBytes c /\ nowBytes (Get c k).1 = nowBytes c /\
  OnEvicted (Get c k).1 = OnEvicted c /\ cache (Get c k).1 = cache c /\
  (linked c -> length (ll (Get c k).1) = length (ll c)).
Proof.
  rewrite Get_fst. destruct (cache c !! k) as [a|] eqn:Hk; [|done].
  simpl. split_and!; try done.
  intros Hl.
  destruct (linked_hit _ _ _ Hl Hk) as (e & l1 & l2 & Hll & <- & _ & H1 & H2).
  rewrite Hll, MoveToFront_middle by done. simpl. rewrite !length_app.
  simpl. lia.
Qed.

(** Every sequence of [Add]s and [Get]s on an engine with a non-negative
    ceiling runs to the end and keeps the invariant and the ceiling. *)
Lemma run_ok ops : forall fuel c,
  Inv c -> 0 <= maxBytes c -> over_budget c = false ->
  resident_bytes c + offered_bytes ops <= max_int64 ->
  (length (ll c) + length ops <= fuel)%nat ->
  exists c', run fuel c ops = Some c' /\ Inv c' /\ over_budget c' = false /\
    maxBytes c' = maxBytes c /\ OnEvicted c' = OnEvicted c /\
    resident_bytes c' <= resident_bytes c + offered_bytes ops /\
    (length (ll c') <= length (ll c) + length ops)%nat.
Proof.
  induction ops as [|o ops IH]; intros fuel c HI Hmax Hob Hfit Hfuel.
  - exists c. simpl in *. split_and!; try done; lia.
  - simpl in Hfit, Hfuel. pose proof (offered_bytes_nonneg ops) as Hnn.
    destruct o as [k v|k]; simpl.
    + pose proof (len_nonneg k). pose proof (Len_nonneg v).
      destruct (Add_ok fuel c k v HI Hmax) as (n & Hadd & HI1 & Hob1 & _ & Hm1 & Hc1 & Hr1 & Hl1);
        [lia|lia|].
      cbn zeta in *. rewrite Hadd. simpl.
      destruct (IH fuel _ HI1) as (c' & Hrun & ? & ? & ? & ? & ? & ?);
        [lia|done|lia|lia|].
      exists c'. split_and!; try done; try congruence; lia.
    + destruct (Get_frame c k) as (Hm1 & Hn1 & Hc1 & _ & Hl1).
      pose proof (Get_Inv c k HI) as HI1.
      assert (resident_bytes (Get c k).1 = resident_bytes c) as Hr1.
      { destruct HI1 as [_ <- _]. destruct HI as [_ <- _]. done. }
      specialize (Hl1 (Inv_linked _ HI)).
      destruct (IH fuel _ HI1) as (c' & Hrun & ? & ? & ? & ? & ? & ?);
        [lia| |lia|lia|].
      { apply over_budget_false. apply over_budget_false in Hob. lia. }
      exists c'. split_and!; try done; try congruence; lia.
Qed.

(** A negative ceiling: the guard of the loop holds in every state the
    loop can reach, so no amount of fuel lets the loop finish. *)
Lemma evict_loop_negative fuel : forall c,
  Inv c -> maxBytes c < 0 -> evict_loop fuel c = None.
Proof.
  induction fuel as [|fuel IH]; intros c HI Hneg.
  - simpl. assert (over_budget c = true) as ->; [|done].
    apply over_budget_true. destruct HI as [_ Hb _].
    pose proof (total_weight_nonneg (ll c)). unfold resident_bytes in Hb. lia.
  - assert (over_budget c = true) as E.
    { apply over_budget_true. destruct HI as [_ Hb _].
      pose proof (total_weight_nonneg (ll c)).
      unfold resident_bytes in Hb. lia. }
    rewrite evict_loop_step by done. apply IH.
    + by apply RemoveOldest_Inv.
    + destruct (RemoveOldest_frame c). lia.
Qed.

Lemma Add_negative fuel c k v :
  Inv c -> maxBytes c < 0 ->
  resident_bytes c + (len k + Len v) <= max_int64 ->
  Add fuel c k v = None.
Proof.
  intros HI Hneg Hfit. unfold Add. apply evict_loop_negative.
  - by apply Add_body_Inv.
  - destruct (Add_body_frame c k v). lia.
Qed.

(** C1 (as amended).  On an engine whose ceiling is not negative, every
    sequence of [Add] and [Get] operations whose offered bytes are
    representable runs to the end; afterwards [nowBytes] is the sum of
    [len(key) + value.Len()] over the resident entries and either
    [maxBytes = 0] or [nowBytes <= maxBytes]; and when the last operation
    added an entry that alone exceeds a positive ceiling, the engine is
    empty again, the new entry being the last one evicted. *)
Theorem C1_lru_invariants (maxB : Z) (cb : bool) (ops : list (op V)) :
  0 <= maxB -> offered_bytes ops <= max_int64 ->
  exists c, run (length ops) (New maxB cb) ops = Some c /\
    maxBytes c = maxB /\
    nowBytes c = resident_bytes c /\
    (maxBytes c = 0 \/ nowBytes c <= maxBytes c) /\
    (forall ops' k v, ops = ops' ++ [OpAdd k v] ->
       0 < maxB < len k + Len v ->
       ll c = [] /\ cache c = ∅ /\ nowBytes c = 0 /\
       (cb = true -> last (evicted c) = Some (k, v))).
Proof.
  intros Hmax Hfit.
  assert (over_budget (New (V:=V) maxB cb) = false) as Hob0
    by (apply over_budget_false; simpl; lia).
  destruct (run_ok ops (length ops) (New maxB cb) (New_Inv maxB cb))
    as (c & Hrun & HI & Hob & Hm & Hc & Hr & Hl); try done.
  exists c. split_and!; try done.
  - apply HI.
  - by apply over_budget_false.
  - intros ops' k v -> Hw.
    rewrite offered_bytes_app in Hfit. simpl in Hfit.
    pose proof (offered_bytes_nonneg ops') as Hnn.
    rewrite length_app in Hrun. simpl length in Hrun.
    rewrite run_app in Hrun.
    assert (resident_bytes (New (V:=V) maxB cb) + offered_bytes ops'
            <= max_int64) as Hfit1 by (unfold resident_bytes; simpl; lia).
    assert (length (ll (New (V:=V) maxB cb)) + length ops'
            <= length ops' + 1)%nat as Hfuel1 by (simpl; lia).
    destruct (run_ok ops' (length ops' + 1) (New maxB cb) (New_Inv maxB cb)
                Hmax Hob0 Hfit1 Hfuel1)
      as (c1 & Hrun1 & HI1 & Hob1 & Hm1 & Hc1 & Hr1 & Hl1).
    rewrite Hrun1 in Hrun. simpl in Hrun.
    unfold resident_bytes in Hr1 at 2. simpl in Hr1, Hl1, Hm1, Hc1.
    destruct (Add_oversized (length ops' + 1) c1 k v HI1)
      as (c' & Hadd & HI' & Hll & Hca & Hn & Hlast); try lia.
    rewrite Hadd in Hrun. simpl in Hrun. injection Hrun as <-.
    split_and!; try done. intros ->. apply Hlast. congruence.
Qed.

(** *** [Add] against its specification *)

Lemma Add_body_spec_eq c k v :
  Inv c -> resident_bytes c + (len k + Len v) <= max_int64 ->
  Add_body c k v = Add_body_spec c k v.
Proof.
  intros HI Hfit. destruct (cache c !! k) as [a|] eqn:Hk.
  - destruct (Add_body_present c k v a Hk Hfit HI)
      as (old & l1 & l2 & Hll & H1 & H2 & ->).
    unfold Add_body_spec. rewrite Hk, Hll.
    pose proof (deref_middle l1 (clist.mkElement a (mk_entry k old)) l2 H1) as Hd.
    pose proof (Remove_middle l1 (clist.mkElement a (mk_entry k old)) l2 H1 H2) as Hr.
    simpl in Hd, Hr. by rewrite Hd, Hr.
  - rewrite (Add_body_absent c k v Hk Hfit HI).
    unfold Add_body_spec. by rewrite Hk.
Qed.

Lemma RemoveOldest_spec_eq c : Inv c -> RemoveOldest c = evict_tail_spec c.
Proof.
  intros HI. destruct (clist.Back (ll c)) as [e|] eqn:Hb.
  - pose proof Hb as Hb'. apply Back_Some in Hb' as [l Hll].
    rewrite (RemoveOldest_snoc c l e HI Hll).
    unfold evict_tail_spec. rewrite Hb. f_equal.
    destruct HI as [[Hnd _ _] _ _]. rewrite Hll in *.
    rewrite Remove_middle; [by rewrite app_nil_r| |simpl; apply not_elem_of_nil].
    rewrite fmap_app in Hnd. apply NoDup_app in Hnd as (_ & Hd & _).
    intros Hin. apply (Hd _ Hin). simpl. left.
  - unfold evict_tail_spec. rewrite Hb.
    apply Back_None in Hb. by apply RemoveOldest_empty.
Qed.

Lemma over_budget_spec_eq c :
  0 <= maxBytes c -> over_budget c = over_budget_spec c.
Proof.
  intros Hmax. unfold over_budget, over_budget_spec.
  destruct (Z.eqb_spec (maxBytes c) 0), (Z.ltb_spec 0 (maxBytes c));
    simpl; try done; lia.
Qed.

Lemma evict_loop_spec_eq fuel : forall c,
  Inv c -> 0 <= maxBytes c -> evict_loop fuel c = evict_loop_spec fuel c.
Proof.
  induction fuel as [|fuel IH]; intros c HI Hmax; simpl;
    rewrite <- over_budget_spec_eq by done; [done|].
  destruct (over_budget c); [|done].
  rewrite <- RemoveOldest_spec_eq by done. apply IH.
  - by apply RemoveOldest_Inv.
  - destruct (RemoveOldest_frame c). lia.
Qed.

(** On a non-negative ceiling the source's [Add] is the specified one,
    and it returns. *)
Lemma Add_refines_spec fuel c k v :
  Inv c -> 0 <= maxBytes c ->
  resident_bytes c + (len k + Len v) <= max_int64 ->
  (S (length (ll c)) <= fuel)%nat ->
  Add fuel c k v = Add_spec fuel c k v /\ is_Some (Add fuel c k v).
Proof.
  intros HI Hmax Hfit Hfuel. split.
  - unfold Add, Add_spec. rewrite <- Add_body_spec_eq by done.
    apply evict_loop_spec_eq.
    + by apply Add_body_Inv.
    + destruct (Add_body_frame c k v). lia.
  - destruct (Add_ok fuel c k v HI Hmax Hfit Hfuel) as (n & -> & _). eauto.
Qed.
End LruFacts.

(** *** The engine on concrete inputs *)

Lemma C1_lru_invariants_witness :
  exists c, run (length S1_ops) (lru.New 10 true) S1_ops = Some c /\
    lru.maxBytes c = 10 /\
    lru.nowBytes c = resident_bytes c /\
    (lru.maxBytes c = 0 \/ lru.nowBytes c <= lru.maxBytes c) /\
    (forall ops' k v, S1_ops = ops' ++ [OpAdd k v] ->
       0 < 10 < lru.len k + lru.Len v ->
       lru.ll c = [] /\ lru.cache c = ∅ /\ lru.nowBytes c = 0 /\
       (true = true -> last (lru.evicted c) = Some (k, v))).
Proof.
  apply (C1_lru_invariants 10 true S1_ops); [lia | by vm_compute].
Defined.

(** The scenario itself: ["a"] is evicted, ["c"] and ["b"] stay, 10 bytes
    are in use. *)
Example S1_eviction :
  (fun c => (entries c, lru.nowBytes c, lru.evicted c))
    <$> run 4 (lru.New 10 true) S1_ops
  = Some ([lru.mk_entry "c" (view "9012"); lru.mk_entry "b" (view "5678")],
          10, [("a", view "1234")]).
Proof. reflexivity. Qed.

(** An entry heavier than the ceiling leaves the engine empty. *)
Example oversized_entry :
  (fun c => (entries c, lru.nowBytes c, lru.evicted c))
    <$> lru.Add 2 (lru.New 3 true) "a" (view "1234")
  = Some ([], 0, [("a", view "1234")]).
Proof. reflexivity. Qed.

(** C1, as stated, fails on an engine with a negative ceiling: after a
    [Get] on the fresh engine [New(-1, nil)] the byte total is the sum of the
    resident weights (zero), the ceiling is not zero, and the total
    exceeds the ceiling. *)
Lemma C1_negative_ceiling_counterexample :
  exists c, run 1 (lru.New (V:=geecache.ByteView) (-1) false) [OpGet "a"] = Some c /\
    lru.nowBytes c = resident_bytes c /\
    ~ (lru.maxBytes c = 0 \/ lru.nowBytes c <= lru.maxBytes c).
Proof.
  exists (lru.New (-1) false). split; [reflexivity|]. split; [reflexivity|].
  simpl. lia.
Qed.

(** C2 (the code departs from the claim).  With the ceiling [-1] the
    source's [Add] never returns: its loop guard [maxBytes != 0 &&
    maxBytes < nowBytes] holds forever; the [Add] of the claim, whose loop
    runs only while [max_bytes > 0], returns at once with the new entry
    resident. *)
Theorem C2_negative_ceiling_divergence (fuel : nat) :
  lru.Add fuel (lru.New (-1) false) "a" (view "1234") = None /\
  entries <$> Add_spec fuel (lru.New (-1) false) "a" (view "1234")
    = Some [lru.mk_entry "a" (view "1234")].
Proof.
  split.
  - apply Add_negative; [apply New_Inv | simpl; lia | by vm_compute].
  - by destruct fuel.
Qed.

(** C8 (the code departs from the claim).  [New(-1, nil)] satisfies the
    premise of the claim, yet [Add] on it returns for no amount of fuel:
    the first turn of the loop evicts the new entry, and from then on the
    list is empty, [nowBytes] is 0, the guard still holds and
    [RemoveOldest] removes nothing. *)
Theorem C8_Add_negative_ceiling_spins (fuel : nat) :
  let c0 := lru.New (V:=geecache.ByteView) (-1) false in
  let e := lru.RemoveOldest (lru.Add_body c0 "a" (view "1234")) in
  lru.nowBytes c0 = resident_bytes c0 /\
  lru.Add fuel c0 "a" (view "1234") = None /\
  lru.ll e = [] /\ lru.nowBytes e = 0 /\
  lru.over_budget e = true /\ lru.RemoveOldest e = e.
Proof.
  cbn zeta. split_and!; try reflexivity.
  apply Add_negative; [apply New_Inv | simpl; lia | by vm_compute].
Qed.

(** ** The consistent-hash ring *)

Section RingFacts.
Import I64 consistenthash.
Implicit Types (m : Map) (l : list Z) (f : Z -> bool).

(** *** sort.Search *)

Lemma search_loop_spec n f (fuel : nat) : forall i j,
  (forall a b, 0 <= a <= b -> b < n -> f a = true -> f b = true) ->
  0 <= i <= j -> j <= n -> (Z.to_nat (j - i) <= fuel)%nat ->
  (forall k, 0 <= k < i -> f k = false) ->
  (forall k, j <= k < n -> f k = true) ->
  let r := search_loop fuel f i j in
  i <= r <= j /\ (forall k, 0 <= k < r -> f k = false) /\
  (forall k, r <= k < n -> f k = true).
Proof.
  induction fuel as [|fuel IH]; intros i j Hmono Hij Hjn Hfuel Hlo Hhi; simpl.
  - assert (i = j) as -> by lia. split_and!; [lia|lia|done|done].
  - destruct (Z.ltb_spec i j) as [Hlt|Hge].
    2:{ assert (i = j) as -> by lia. split_and!; [lia|lia|done|done]. }
    rewrite Z.shiftr_div_pow2 by lia. change (2 ^ 1) with 2.
    set (h := (i + j) `div` 2).
    assert (i <= h < j) as Hh by (unfold h; split;
      [apply Z.div_le_lower_bound | apply Z.div_lt_upper_bound]; lia).
    destruct (f h) eqn:Efh; simpl.
    + destruct (IH i h Hmono) as (Hr & Hl' & Hh'); try lia; [done|..].
      { intros k Hk. apply (Hmono h k); [lia|lia|done]. }
      split_and!; try done; lia.
    + destruct (IH (h + 1) j Hmono) as (Hr & Hl' & Hh'); try lia; [..|done|].
      { intros k Hk. destruct (f k) eqn:Efk; [|done].
        rewrite (Hmono k h) in Efh; [done|lia|lia|done]. }
      split_and!; try done; lia.
Qed.

Lemma Search_spec n f :
  0 <= n ->
  (forall a b, 0 <= a <= b -> b < n -> f a = true -> f b = true) ->
  0 <= Search n f <= n /\
  (forall k, 0 <= k < Search n f -> f k = false) /\
  (forall k, Search n f <= k < n -> f k = true).
Proof.
  intros Hn Hmono. unfold Search.
  apply (search_loop_spec n f (Z.to_nat n) 0 n); try done; try lia.
Qed.

(** *** Sorted rings *)

Lemma index_lookup l (i : nat) x :
  l !! i = Some x -> index l (Z.of_nat i) = x.
Proof. unfold index. rewrite Nat2Z.id. by intros ->. Qed.

Lemma sorted_lookup_le l :
  StronglySorted Z.le l ->
  forall (i j : nat) x y,
    (i <= j)%nat -> l !! i = Some x -> l !! j = Some y -> x <= y.
Proof.
  induction 1 as [|a l Hs IH Hall]; intros i j x y Hij Hx Hy; [done|].
  destruct i as [|i], j as [|j]; simpl in *; simplify_eq; try lia.
  - rewrite Forall_forall in Hall. apply Hall.
    by apply (list_elem_of_lookup_2 _ j).
  - apply (IH i j); [lia|done|done].
Qed.

Lemma sorted_index_le l a b :
  Sorted Z.le l -> 0 <= a <= b -> b < Z.of_nat (length l) ->
  index l a <= index l b.
Proof.
  intros Hs Hab Hb. apply (Sorted_StronglySorted _) in Hs.
  unfold index.
  destruct (lookup_lt_is_Some_2 l (Z.to_nat a)) as [x Hx]; [lia|].
  destruct (lookup_lt_is_Some_2 l (Z.to_nat b)) as [y Hy]; [lia|].
  rewrite Hx, Hy. simpl.
  apply (sorted_lookup_le l Hs (Z.to_nat a) (Z.to_nat b)); [lia|done|done].
Qed.

Lemma ring_guard_mono l h :
  Sorted Z.le l ->
  forall a b, 0 <= a <= b -> b < Z.of_nat (length l) ->
    (h <=? index l a) = true -> (h <=? index l b) = true.
Proof.
  intros Hs a b Hab Hb. rewrite !Z.leb_le.
  pose proof (sorted_index_le l a b Hs Hab Hb). lia.
Qed.

(** On a sorted ring the binary search finds the successor index. *)
Lemma Search_successor l h :
  Sorted Z.le l ->
  successor_index l h
    (Search (Z.of_nat (length l)) (fun j => h <=? index l j)).
Proof.
  intros Hs.
  destruct (Search_spec (Z.of_nat (length l)) (fun j => h <=? index l j))
    as (Hr & Hlo & Hhi); [lia|by apply ring_guard_mono|].
  split_and!; [lia|lia|..].
  - intros j Hj. specialize (Hlo j Hj). simpl in Hlo.
    apply Z.leb_gt in Hlo. lia.
  - intros Hlt. specialize (Hhi _ (conj (Z.le_refl _) Hlt)). simpl in Hhi.
    by apply Z.leb_le.
Qed.

(** C5.  On an empty ring [Get] returns the empty string.  Otherwise it
    hashes the key, the binary search yields the smallest index [i] with
    [ring[i] >= h] (the length of the ring when there is none, which the
    remainder wraps to 0), and [Get] returns the owner recorded for
    [ring[i mod len(ring)]]. *)
Theorem C5_ring_Get m key :
  Sorted Z.le (keys m) ->
  (keys m = [] -> Get m key = "") /\
  (keys m <> [] ->
     let h := uint32 (hash m key) in
     let n := Z.of_nat (length (keys m)) in
     exists i, successor_index (keys m) h i /\
       Search n (fun j => h <=? index (keys m) j) = i /\
       i `mod` n = (if i =? n then 0 else i) /\
       Get m key = default "" (hashMap m !! index (keys m) (i `mod` n))).
Proof.
  intros Hs. split.
  - intros Hk. unfold Get. by rewrite Hk.
  - intros Hk h n.
    assert (0 < n) as Hn by (unfold n; destruct (keys m); [done|simpl; lia]).
    pose proof (Search_successor (keys m) h Hs) as Hsucc.
    fold n in Hsucc. set (i := Search n _) in *.
    exists i. split_and!; [done|done|..].
    + destruct Hsucc as (Hi & _). destruct (Z.eqb_spec i n) as [->|Hne].
      * by apply Z_mod_same_full.
      * apply Z.mod_small. unfold n in *. lia.
    + unfold Get. fold n. destruct (Z.eqb_spec n 0) as [?|_]; [lia|].
      fold h. fold i. destruct Hsucc as (Hi & _).
      rewrite Z.rem_mod_nonneg by (unfold n in *; lia). done.
Qed.

(** *** [Add] then [Remove] *)

Lemma Add_key_spec p (ixs : list Z) : forall m,
  fold_left (Add_replica p) ixs m =
    mkMap (hash m) (replicas m)
          (keys m ++ ((fun i => replica_hash m i p) <$> ixs))
          (fold_left (fun hm h => <[h := p]> hm)
                     ((fun i => replica_hash m i p) <$> ixs) (hashMap m)).
Proof.
  induction ixs as [|i ixs IH]; intros m; simpl.
  - rewrite app_nil_r. by destruct m.
  - rewrite IH. simpl. by rewrite <- app_assoc.
Qed.

Lemma Add_one_spec m p :
  Add m [p] =
    mkMap (hash m) (replicas m)
          (sort_Ints (keys m ++ replica_hashes m p))
          (fold_left (fun hm h => <[h := p]> hm) (replica_hashes m p)
                     (hashMap m)).
Proof. unfold Add, Add_key. simpl. by rewrite Add_key_spec. Qed.

(** [Add] leaves the ring sorted. *)
Lemma Add_sorted m ks : Sorted Z.le (keys (Add m ks)).
Proof. unfold Add, sort_Ints. simpl. apply (Sorted_merge_sort _). Qed.

Lemma StronglySorted_remove_middle (l1 l2 : list Z) x :
  StronglySorted Z.le (l1 ++ x :: l2) -> StronglySorted Z.le (l1 ++ l2).
Proof.
  induction l1 as [|a l1 IH]; simpl; intros Hs.
  - by apply StronglySorted_inv in Hs as [? _].
  - apply StronglySorted_inv in Hs as [Hs Hall]. constructor; [by apply IH|].
    rewrite Forall_app in Hall |- *. destruct Hall as [H1 H2].
    split; [done|]. by apply Forall_cons in H2 as [_ ?].
Qed.

(** One turn of the loop of [Remove] on a sorted ring that holds the
    hash: the binary search finds an occurrence and that one is cut out. *)
Lemma Remove_replica_spec p m i :
  Sorted Z.le (keys m) -> replica_hash m i p ∈ keys m ->
  exists m', Remove_replica p m i = Some m' /\
    keys m ≡ₚ replica_hash m i p :: keys m' /\ Sorted Z.le (keys m') /\
    hashMap m' = delete (replica_hash m i p) (hashMap m) /\
    hash m' = hash m /\ replicas m' = replicas m.
Proof.
  intros Hs Hin. unfold Remove_replica.
  set (h := replica_hash m i p) in *.
  pose proof (Search_successor (keys m) h Hs) as (Hr & Hlo & Hhi).
  fold (SearchInts (keys m) h) in Hr, Hlo, Hhi.
  set (idx := SearchInts (keys m) h) in *.
  apply list_elem_of_lookup in Hin as [j Hj].
  pose proof (lookup_lt_Some _ _ _ Hj) as Hjn.
  pose proof (index_lookup _ _ _ Hj) as Hij.
  assert (idx <= Z.of_nat j) as Hle.
  { destruct (Z.le_gt_cases idx (Z.of_nat j)) as [?|Hgt]; [done|].
    specialize (Hlo (Z.of_nat j)). lia. }
  assert (index (keys m) idx = h) as Hidx.
  { pose proof (sorted_index_le (keys m) idx (Z.of_nat j) Hs). lia. }
  destruct (Z.leb_spec (idx + 1) (Z.of_nat (length (keys m)))) as [_|?]; [|lia].
  eexists. split; [reflexivity|]. simpl.
  assert (keys m !! Z.to_nat idx = Some h) as Hlk.
  { unfold index in Hidx.
    destruct (lookup_lt_is_Some_2 (keys m) (Z.to_nat idx)) as [x Hx]; [lia|].
    rewrite Hx in Hidx. simpl in Hidx. by subst x. }
  replace (Z.to_nat (idx + 1)) with (S (Z.to_nat idx)) by lia.
  pose proof (take_drop_middle _ _ _ Hlk) as Hsplit.
  split_and!; try done.
  - rewrite <- Hsplit at 1. by rewrite <- Permutation_middle.
  - apply StronglySorted_Sorted, (StronglySorted_remove_middle _ _ h).
    rewrite Hsplit. by apply (Sorted_StronglySorted _).
Qed.

Lemma Remove_fold_spec p (ixs : list Z) : forall m base,
  Sorted Z.le (keys m) ->
  keys m ≡ₚ base ++ ((fun i => replica_hash m i p) <$> ixs) ->
  exists m',
    fold_left (fun om i => m' ← om; Remove_replica p m' i) ixs (Some m)
      = Some m' /\
    Sorted Z.le (keys m') /\ keys m' ≡ₚ base /\
    hashMap m' = fold_left (fun hm h => delete h hm)
                           ((fun i => replica_hash m i p) <$> ixs) (hashMap m) /\
    hash m' = hash m /\ replicas m' = replicas m.
Proof.
  induction ixs as [|i ixs IH]; intros m base Hs Hp; simpl.
  - exists m. simpl in Hp. rewrite app_nil_r in Hp. by split_and!.
  - simpl in Hp.
    destruct (Remove_replica_spec p m i Hs)
      as (m1 & -> & Hp1 & Hs1 & Hhm & Hh & Hr).
    { rewrite Hp, elem_of_app, elem_of_cons. auto. }
    assert (forall j, replica_hash m1 j p = replica_hash m j p) as Hrh
      by (intros j; unfold replica_hash; by rewrite Hh).
    assert (((fun j => replica_hash m1 j p) <$> ixs)
            = ((fun j => replica_hash m j p) <$> ixs)) as Hmap
      by (apply list_fmap_ext; intros ? j ?; apply Hrh).
    destruct (IH m1 base Hs1) as (m' & Hf & ? & ? & Hhm' & ? & ?).
    { rewrite Hp1, <- Permutation_middle in Hp.
      apply (inj (cons _)) in Hp. by rewrite Hp, Hmap. }
    exists m'. split_and!; try done; try congruence.
    by rewrite Hhm', Hhm, Hmap.
Qed.

Lemma lookup_fold_insert (p : string) (hs : list Z) :
  forall (hm : gmap Z string) k,
  fold_left (fun hm h => <[h := p]> hm) hs hm !! k =
    if decide (k ∈ hs) then Some p else hm !! k.
Proof.
  induction hs as [|h hs IH]; intros hm k; cbn [fold_left].
  - case_decide as Hin; [by apply not_elem_of_nil in Hin|done].
  - rewrite IH. destruct (decide (k ∈ hs)) as [Hin|Hn].
    + by rewrite decide_True by (by right).
    + destruct (decide (k = h)) as [->|Hne].
      * rewrite decide_True by left. by rewrite lookup_insert_eq.
      * rewrite decide_False by (rewrite elem_of_cons; intros [?|?]; done).
        by rewrite lookup_insert_ne.
Qed.

Lemma lookup_fold_delete (hs : list Z) :
  forall (hm : gmap Z string) k,
  fold_left (fun hm h => delete h hm) hs hm !! k =
    if decide (k ∈ hs) then None else hm !! k.
Proof.
  induction hs as [|h hs IH]; intros hm k; cbn [fold_left].
  - case_decide as Hin; [by apply not_elem_of_nil in Hin|done].
  - rewrite IH. destruct (decide (k ∈ hs)) as [Hin|Hn].
    + by rewrite decide_True by (by right).
    + destruct (decide (k = h)) as [->|Hne].
      * rewrite decide_True by left. by rewrite lookup_delete_eq.
      * rewrite decide_False by (rewrite elem_of_cons; intros [?|?]; done).
        by rewrite lookup_delete_ne.
Qed.

(** C6 (as amended).  On a sorted ring on which no virtual node of [p]
    has an owner recorded, so that [p] is not on the ring already and its
    virtual nodes collide with no virtual node of the ring, [Add(p)]
    followed by [Remove(p)] returns and restores the ring: the same
    hashes (as a sequence, hence as a set) and the same [hashMap]. *)
Theorem C6_Add_Remove_restores m p :
  Sorted Z.le (keys m) -> no_collision m p ->
  exists m', Remove (Add m [p]) p = Some m' /\
    keys m' = keys m /\ (forall h, h ∈ keys m' <-> h ∈ keys m) /\
    hashMap m' = hashMap m /\
    hash m' = hash m /\ replicas m' = replicas m.
Proof.
  intros Hs Hnc. unfold Remove. rewrite Add_one_spec. simpl.
  set (m1 := mkMap _ _ _ _).
  assert (forall j, replica_hash m1 j p = replica_hash m j p) as Hrh by done.
  destruct (Remove_fold_spec p (seqZ 0 (replicas m)) m1 (keys m))
    as (m' & Hf & Hs' & Hp' & Hhm & Hh & Hr).
  { apply (Sorted_merge_sort _). }
  { simpl. unfold sort_Ints. by rewrite merge_sort_Permutation. }
  exists m'. 
  assert (keys m' = keys m) as Hk
    by (by apply (Sorted_unique Z.le)).
  split_and!; try done.
  - by rewrite Hk.
  - rewrite Hhm. simpl.
    change ((fun i => replica_hash m1 i p) <$> seqZ 0 (replicas m))
      with (replica_hashes m p).
    apply map_eq. intros k.
    rewrite lookup_fold_delete, lookup_fold_insert.
    destruct (decide (k ∈ replica_hashes m p)) as [Hin|_]; [|done].
    symmetry. by apply Hnc.
Qed.
(** *** Every state of a ring is sorted *)

Lemma StronglySorted_take_drop l (a b : nat) :
  (a <= b)%nat -> StronglySorted Z.le l ->
  StronglySorted Z.le (take a l ++ drop b l).
Proof.
  intros Hab Hs. rewrite <- (take_drop a l) in Hs.
  apply StronglySorted_app in Hs as (Hx & H1 & H2).
  assert (drop b l = drop (b - a) (drop a l)) as ->
    by (rewrite drop_drop; f_equal; lia).
  apply StronglySorted_app. split_and!; [|done|].
  - intros x1 x2 Hx1 Hx2. apply Hx; [done|]. by apply (subseteq_drop (b - a)).
  - rewrite <- (take_drop (b - a) (drop a l)) in H2.
    by apply StronglySorted_app_1_r in H2.
Qed.

Lemma Remove_replica_sorted p m i m' :
  Sorted Z.le (keys m) -> Remove_replica p m i = Some m' ->
  Sorted Z.le (keys m').
Proof.
  intros Hs. unfold Remove_replica.
  destruct (_ <=? _); [|done]. intros [= <-]. simpl.
  apply StronglySorted_Sorted, StronglySorted_take_drop; [lia|].
  by apply (Sorted_StronglySorted _).
Qed.

Lemma Remove_fold_sorted p (ixs : list Z) : forall m m',
  Sorted Z.le (keys m) ->
  fold_left (fun om i => m' ← om; Remove_replica p m' i) ixs (Some m)
    = Some m' ->
  Sorted Z.le (keys m').
Proof.
  induction ixs as [|i ixs IH]; intros m m' Hs; simpl.
  - by intros [= <-].
  - destruct (Remove_replica p m i) as [m1|] eqn:E.
    + apply IH. by apply (Remove_replica_sorted p m i).
    + clear IH. intros Hf. exfalso.
      induction ixs as [|j ixs IHx]; simpl in Hf; [done|by apply IHx].
Qed.

(** The ring is kept in ascending order. *)
Lemma ring_state_sorted m : ring_state m -> Sorted Z.le (keys m).
Proof.
  induction 1 as [replicas fn|m ks _ _|m p m' _ IH Hr].
  - constructor.
  - apply Add_sorted.
  - by apply (Remove_fold_sorted p (seqZ 0 (replicas m)) m m').
Qed.

End RingFacts.

(** *** The ring on concrete inputs *)

Example S4_routing : consistenthash.Get S4_ring "k42" = "P3".
Proof. by vm_compute. Qed.

Lemma C5_ring_Get_witness :
  (consistenthash.keys S4_ring = [] -> consistenthash.Get S4_ring "k42" = "") /\
  (consistenthash.keys S4_ring <> [] ->
     let h := I64.uint32 (consistenthash.hash S4_ring "k42") in
     let n := Z.of_nat (length (consistenthash.keys S4_ring)) in
     exists i, successor_index (consistenthash.keys S4_ring) h i /\
       consistenthash.Search n
         (fun j => h <=? consistenthash.index (consistenthash.keys S4_ring) j) = i /\
       i `mod` n = (if i =? n then 0 else i) /\
       consistenthash.Get S4_ring "k42"
       = default "" (consistenthash.hashMap S4_ring
                       !! consistenthash.index (consistenthash.keys S4_ring) (i `mod` n))).
Proof.
  apply (C5_ring_Get S4_ring "k42").
  apply (bool_decide_unpack _). by vm_compute.
Defined.

Lemma C6_Add_Remove_restores_witness :
  let m := consistenthash.Add (consistenthash.New 3 None) ["P1"; "P3"] in
  exists m', consistenthash.Remove (consistenthash.Add m ["P2"]) "P2" = Some m' /\
    consistenthash.keys m' = consistenthash.keys m /\
    (forall h, h ∈ consistenthash.keys m' <-> h ∈ consistenthash.keys m) /\
    consistenthash.hashMap m' = consistenthash.hashMap m /\
    consistenthash.hash m' = consistenthash.hash m /\
    consistenthash.replicas m' = consistenthash.replicas m.
Proof.
  apply (C6_Add_Remove_restores
           (consistenthash.Add (consistenthash.New 3 None) ["P1"; "P3"]) "P2").
  - apply (bool_decide_unpack _). by vm_compute.
  - unfold no_collision. apply Forall_forall.
    apply (bool_decide_unpack _). by vm_compute.
Defined.

(** C6, as stated, fails for a peer that is on the ring already.  The
    ring of ["P1"] alone has three distinct hashes, no two virtual nodes
    colliding; [Add("P1")] followed by [Remove("P1")] returns and restores
    the sequence of hashes, but [hashMap] is left empty: the hashes of
    the ring have lost their owner, and the key ["k42"], served by ["P1"]
    before, is served by no peer. *)
Lemma C6_readded_peer_counterexample :
  let m := consistenthash.Add (consistenthash.New 3 None) ["P1"] in
  let after := consistenthash.Remove (consistenthash.Add m ["P1"]) "P1" in
  NoDup (consistenthash.keys m) /\
  consistenthash.keys <$> after = Some (consistenthash.keys m) /\
  consistenthash.hashMap <$> after = Some ∅ /\
  consistenthash.hashMap m <> ∅ /\
  consistenthash.Get m "k42" = "P1" /\
  (fun m' => consistenthash.Get m' "k42") <$> after = Some "".
Proof.
  cbn zeta. split_and!; try (by vm_compute).
  apply (bool_decide_unpack _). by vm_compute.
Qed.

(** ** Groups *)

Section GroupFacts.
Import geecache.
Implicit Types (g : Group) (c : cache) (key : string).

Lemma cloneBytes_id (bs : list Byte.byte) : cloneBytes bs = bs.
Proof.
  unfold cloneBytes, copy, make. rewrite repeat_length.
  rewrite firstn_all, drop_ge by (rewrite repeat_length; lia).
  apply app_nil_r.
Qed.

(** A miss leaves the engine, and so the shell, as it was. *)
Lemma lru_Get_miss (l : lru.Cache ByteView) key :
  (lru.Get l key).2 = None -> lru.Get l key = (l, None).
Proof.
  unfold lru.Get. destruct (lru.cache l !! key) as [a|] eqn:Hk; [|done].
  unfold clist.MoveToFront.
  destruct (clist.deref a (lru.ll l)) as [e|] eqn:Hd.
  - destruct (deref_elem _ _ _ Hd) as [_ <-]. by rewrite deref_head.
  - rewrite Hd. intros _. by destruct l.
Qed.

Lemma cache_get_miss c key :
  (cache_get c key).2 = None -> cache_get c key = (c, None).
Proof.
  unfold cache_get. destruct (lru_ c) as [l|] eqn:Hl; [|done].
  destruct (lru.Get l key) as [l' r] eqn:HG. simpl. intros ->.
  assert ((lru.Get l key).2 = None) as Hm by (by rewrite HG).
  rewrite (lru_Get_miss l key Hm) in HG. injection HG as <-.
  destruct c. simpl in *. by subst.
Qed.

Lemma set_mainCache_id g : set_mainCache g (mainCache g) = g.
Proof. by destruct g. Qed.

Lemma Get_miss_load fuel g key :
  key <> "" -> (cache_get (mainCache g) key).2 = None ->
  Get fuel g key = load fuel g key.
Proof.
  intros Hk Hm. unfold Get.
  apply String.eqb_neq in Hk. rewrite Hk.
  rewrite (cache_get_miss _ _ Hm). by rewrite set_mainCache_id.
Qed.

(** C3.  A group with a peer picker installed, a key that misses the
    local cache, a remote peer selected and its fetch successful: [Get]
    returns (with any fuel) a view of exactly the peer's bytes and no
    error, the group and so its cache are unchanged, the loader was not
    called, and a second [Get] of the key misses locally again and goes
    through the picker again. *)
Theorem C3_remote_hit_not_cached fuel g key picker peer bytes :
  key <> "" -> (cache_get (mainCache g) key).2 = None ->
  peers g = Some picker -> PickPeer picker key = Some peer ->
  peer_Get peer (name g) key = (bytes, None) ->
  exists r, Get fuel g key = Some r /\
    ret_view r = mkByteView bytes /\ ret_err r = None /\
    ret_group r = g /\
    ret_events r = [EvPickPeer key; EvPeerGet (name g) key] /\
    (cache_get (mainCache (ret_group r)) key).2 = None /\
    exists r2, Get fuel (ret_group r) key = Some r2 /\
      (cache_get (mainCache (ret_group r2)) key).2 = None /\
      ret_events r2 = [EvPickPeer key; EvPeerGet (name g) key].
Proof.
  intros Hk Hm Hp Hpick Hpeer.
  assert (Get fuel g key
          = Some (mkRet (mkByteView bytes) None g
                        [EvPickPeer key; EvPeerGet (name g) key])) as HG.
  { rewrite Get_miss_load by done. unfold load, getFromPeer.
    by rewrite Hp, Hpick, Hpeer. }
  eexists. split; [exact HG|]. simpl. split_and!; try done.
  eexists. split; [exact HG|]. by simpl.
Qed.

(** C9.  A non-empty key that misses the local cache, no value delivered
    by a remote peer, and a loader that fails: [Get] returns (with any
    fuel) the loader's error with the zero view, and the group, hence its
    cache, is exactly as before. *)
Theorem C9_loader_error_leaves_cache fuel g key bytes e :
  key <> "" -> (cache_get (mainCache g) key).2 = None ->
  (forall v, remote_fetch g key <> Some (v, None)) ->
  getter g key = (bytes, Some e) ->
  exists r, Get fuel g key = Some r /\
    ret_view r = mkByteView [] /\ ret_err r = Some e /\
    ret_group r = g /\ mainCache (ret_group r) = mainCache g /\
    last (ret_events r) = Some (EvGetter key).
Proof.
  intros Hk Hm Hremote Hload.
  rewrite Get_miss_load by done. unfold load.
  assert (getLocally fuel g key
          = Some (mkRet (mkByteView []) (Some e) g [EvGetter key])) as HL
    by (unfold getLocally; by rewrite Hload).
  unfold remote_fetch in Hremote.
  destruct (peers g) as [picker|]; simpl in Hremote.
  2:{ rewrite HL. eexists. by split_and!. }
  destruct (PickPeer picker key) as [peer|]; simpl in Hremote.
  2:{ rewrite HL. simpl. eexists. by split_and!. }
  destruct (getFromPeer g peer key) as [v [err|]] eqn:HP.
  - rewrite HL. simpl. eexists. by split_and!.
  - by destruct (Hremote v).
Qed.
End GroupFacts.

(** ** Admission into the engine and into the shell *)

Section Residency.
Context {V : Type} `{lru.Value V}.
Import I64 lru.
Implicit Types (c : Cache V) (l : list (clist.Element (entry V)))
  (e : clist.Element (entry V)).

Lemma linked_addr_inj c e1 e2 :
  linked c -> e1 ∈ ll c -> e2 ∈ ll c -> clist.addr e1 = clist.addr e2 ->
  e1 = e2.
Proof.
  intros [Hnd _ _] H1 H2 Ha.
  destruct (node_split _ _ Hnd H1) as (l1 & l2 & Hll & Hn1 & Hn2).
  rewrite Hll, elem_of_app, elem_of_cons in H2.
  destruct H2 as [Hin|[->|Hin]]; [|done|];
    apply (list_elem_of_fmap_2 clist.addr) in Hin; rewrite <- Ha in Hin; done.
Qed.

(** An entry at the front that fits under the ceiling survives the
    eviction loop. *)
Lemma evict_loop_keeps_front e l : forall c,
  Inv c -> ll c = e :: l -> 0 <= maxBytes c ->
  maxBytes c = 0 \/ weight (clist.Value e) <= maxBytes c ->
  exists c' l', evict_loop (length l) c = Some c' /\ Inv c' /\
    ll c' = e :: l' /\ maxBytes c' = maxBytes c.
Proof.
  induction l as [|x l IH] using rev_ind; intros c HI Hll Hmax Hfit.
  - exists c, []. split_and!; try done. apply evict_loop_done.
    apply over_budget_false. destruct HI as [_ Hb _].
    unfold resident_bytes in Hb. rewrite Hll in Hb. simpl in Hb. lia.
  - destruct (over_budget c) eqn:E.
    2:{ exists c, (l ++ [x]). split_and!; try done. by apply evict_loop_done. }
    rewrite length_app. simpl length.
    replace (length l + 1)%nat with (S (length l)) by lia.
    rewrite evict_loop_step by done.
    pose proof (RemoveOldest_Inv c HI) as HI1.
    pose proof (RemoveOldest_ll c (e :: l) x HI) as Hll1.
    rewrite Hll in Hll1. specialize (Hll1 eq_refl).
    destruct (RemoveOldest_frame c) as [Hmx _].
    destruct (IH (RemoveOldest c) HI1 Hll1) as (c' & l' & Hev & ? & ? & ?);
      [lia|lia|].
    exists c', l'. split_and!; try done. congruence.
Qed.

(** After [Add(k, v)] of an entry that fits under the ceiling, [Get(k)]
    hits and returns [v]. *)
Lemma Add_then_Get fuel c k v :
  Inv c -> 0 <= maxBytes c ->
  resident_bytes c + (len k + Len v) <= max_int64 ->
  (S (length (ll c)) <= fuel)%nat ->
  maxBytes c = 0 \/ len k + Len v <= maxBytes c ->
  exists c', Add fuel c k v = Some c' /\ (Get c' k).2 = Some v.
Proof.
  intros HI Hmax Hfit Hfuel Hroom.
  destruct (Add_body_Inv c k v Hfit HI) as [HIb _].
  destruct (Add_body_frame c k v) as [Hmb _].
  destruct (Add_body_front c k v Hfit HI) as (a & l & Hll & Hlen).
  destruct (evict_loop_keeps_front _ l (Add_body c k v) HIb Hll)
    as (c' & l' & Hev & HI' & Hll' & _); [lia|simpl; unfold weight; simpl; lia|].
  exists c'. split.
  { unfold Add. eapply evict_loop_mono; [exact Hev|]. lia. }
  assert (cache c' !! k = Some a) as Hk.
  { apply (linked_index _ (Inv_linked _ HI')).
    exists (clist.mkElement a (mk_entry k v)). rewrite Hll'.
    split_and!; [left|done|done]. }
  destruct (Get_hit c' k a (Inv_linked _ HI') Hk)
    as (e0 & l1 & l2 & Hl0 & Ha0 & Hk0 & ->). simpl.
  assert (clist.mkElement a (mk_entry k v) = e0) as <-; [|done].
  apply (linked_addr_inj c'); [apply HI'|rewrite Hll'; left| |by simpl].
  rewrite Hl0, elem_of_app, elem_of_cons. auto.
Qed.
End Residency.

Section ShellFacts.
Import I64 geecache.
Implicit Types (g : Group) (c : cache) (key : string).

Lemma shell_engine_Inv c :
  shell_Inv c ->
  let engine := match lru_ c with
                | Some l => l
                | None => lru.New (cacheBytes c) false
                end in
  Inv engine /\ lru.maxBytes engine = cacheBytes c /\
  resident_bytes engine = shell_bytes c /\
  S (length (lru.ll engine)) = shell_fuel c.
Proof.
  unfold shell_Inv, shell_bytes, shell_fuel.
  destruct (lru_ c) as [l|]; simpl.
  - by intros [? [? ?]].
  - intros ?. split_and!; try done. apply New_Inv.
Qed.

(** With a non-negative ceiling the shell's [add] returns; the entry it
    added is found by a following [get] when it fits under the ceiling. *)
Lemma cache_add_ok c key (v : ByteView) :
  shell_Inv c ->
  shell_bytes c + (lru.len key + lru.Len v) <= max_int64 ->
  exists c', cache_add (shell_fuel c) c key v = Some c' /\
    shell_Inv c' /\ cacheBytes c' = cacheBytes c /\
    (cacheBytes c = 0 \/ lru.len key + lru.Len v <= cacheBytes c ->
     (cache_get c' key).2 = Some v).
Proof.
  intros HI Hfit. unfold cache_add.
  destruct (shell_engine_Inv c HI) as (HIe & Hmax & Hb & Hf).
  destruct HI as [Hnn _].
  cbn zeta in *. set (engine := match lru_ c with Some l => l | None => _ end) in *.
  destruct (Add_ok (shell_fuel c) engine key v HIe)
    as (n & Hadd & HI' & _ & _ & Hm' & _); [lia|lia|lia|].
  cbn zeta in *. rewrite Hadd. simpl. eexists. split; [reflexivity|].
  split_and!; [|done|].
  - unfold shell_Inv. simpl. split_and!; [done|done|congruence].
  - intros Hroom.
    assert (lru.maxBytes engine = 0 \/
            lru.len key + lru.Len v <= lru.maxBytes engine) as Hroom'
      by (rewrite Hmax; exact Hroom).
    destruct (Add_then_Get (shell_fuel c) engine key v HIe)
      as (c2 & Hadd2 & Hget); [lia|lia|lia|done|].
    rewrite Hadd in Hadd2. injection Hadd2 as <-.
    unfold cache_get. simpl.
    destruct (lru.Get _ key) as [l2 r2]. by simpl in *.
Qed.

Lemma cache_add_negative fuel c key (v : ByteView) :
  lru_ c = None -> cacheBytes c < 0 ->
  lru.len key + lru.Len v <= max_int64 ->
  cache_add fuel c key v = None.
Proof.
  intros Hl Hneg Hfit. unfold cache_add. rewrite Hl.
  assert (resident_bytes (lru.New (V:=ByteView) (cacheBytes c) false) = 0)
    as Hz by done.
  rewrite Add_negative; [done | apply New_Inv | done | rewrite Hz; lia].
Qed.
End ShellFacts.

(** ** Fallback and propagation in [Group.Get] *)

Section Fallback.
Import I64 geecache.
Implicit Types (g : Group) (key : string).

(** Fallback where the admission returns.  A group whose cache ceiling
    is not negative, a key
    that misses the local cache, a remote peer selected by the picker and
    its fetch failing with any error.  When the loader succeeds, [Get]
    returns its bytes: the failure is logged, the loader is called, a copy
    of its bytes is added to the local cache under the key (and is found
    there afterwards when it fits under the ceiling).  When the loader
    itself fails, its error is what [Get] returns, and the group is
    unchanged. *)
Lemma peer_failure_falls_back g key picker peer pbytes perr :
  key <> "" -> (cache_get (mainCache g) key).2 = None ->
  peers g = Some picker -> PickPeer picker key = Some peer ->
  peer_Get peer (name g) key = (pbytes, Some perr) ->
  shell_Inv (mainCache g) ->
  (forall bytes, getter g key = (bytes, None) ->
     shell_bytes (mainCache g) + (lru.len key + Z.of_nat (length bytes))
       <= max_int64 ->
     exists r c',
       Get (shell_fuel (mainCache g)) g key = Some r /\
       ret_view r = mkByteView bytes /\ ret_err r = None /\
       cache_add (shell_fuel (mainCache g)) (mainCache g) key
                 (mkByteView (cloneBytes bytes)) = Some c' /\
       ret_group r = set_mainCache g c' /\
       (cacheBytes (mainCache g) = 0 \/
        lru.len key + Z.of_nat (length bytes) <= cacheBytes (mainCache g) ->
        (cache_get c' key).2 = Some (mkByteView bytes)) /\
       ret_events r =
         [EvPickPeer key; EvPeerGet (name g) key;
          EvLog ("[GeeCache] Failed to get from peer " +:+ perr);
          EvGetter key]) /\
  (forall bytes e fuel, getter g key = (bytes, Some e) ->
     exists r, Get fuel g key = Some r /\
       ret_view r = mkByteView [] /\ ret_err r = Some e /\ ret_group r = g).
Proof.
  intros Hk Hm Hp Hpick Hpeer HI. split.
  - intros bytes Hload Hfit.
    destruct (cache_add_ok (mainCache g) key (mkByteView (cloneBytes bytes)) HI)
      as (c' & Hadd & _ & _ & Hfound).
    { rewrite cloneBytes_id. exact Hfit. }
    rewrite Get_miss_load by done. unfold load, getFromPeer.
    rewrite Hp, Hpick, Hpeer. unfold getLocally, populateCache.
    rewrite Hload, Hadd. simpl.
    eexists _, c'. split; [reflexivity|]. simpl.
    rewrite cloneBytes_id in *. split_and!; try done.
  - intros bytes e fuel Hload.
    rewrite Get_miss_load by done. unfold load, getFromPeer.
    rewrite Hp, Hpick, Hpeer. unfold getLocally. rewrite Hload. simpl.
    eexists. by split_and!.
Qed.
End Fallback.

(** *** Groups on concrete inputs *)

(** The fallback scenario: the peer fails, the loader's bytes are returned
    and the next [Get] is a local hit. *)
Example S5_group_fallback :
  let g := scores 2048 (Some (always failing_peer)) in
  (fun r => (geecache.ret_view r, geecache.ret_err r,
             geecache.ret_events
               <$> geecache.Get 1 (geecache.ret_group r) "Tom"))
    <$> geecache.Get 1 g "Tom"
  = Some (view "630", None, Some [geecache.EvLog "[GeeCache] hit"]).
Proof. by vm_compute. Qed.

Lemma C3_remote_hit_not_cached_witness :
  let g := scores 2048 (Some (always answering_peer)) in
  exists r, geecache.Get 0 g "x" = Some r /\
    geecache.ret_view r = view "V" /\ geecache.ret_err r = None /\
    geecache.ret_group r = g /\
    geecache.ret_events r
      = [geecache.EvPickPeer "x"; geecache.EvPeerGet (geecache.name g) "x"] /\
    (geecache.cache_get (geecache.mainCache (geecache.ret_group r)) "x").2 = None /\
    exists r2, geecache.Get 0 (geecache.ret_group r) "x" = Some r2 /\
      (geecache.cache_get (geecache.mainCache (geecache.ret_group r2)) "x").2 = None /\
      geecache.ret_events r2
        = [geecache.EvPickPeer "x"; geecache.EvPeerGet (geecache.name g) "x"].
Proof.
  apply (C3_remote_hit_not_cached 0
           (scores 2048 (Some (always answering_peer))) "x"
           (always answering_peer) answering_peer
           (String.list_byte_of_string "V")); reflexivity || discriminate.
Defined.

Lemma C9_loader_error_leaves_cache_witness :
  let g := scores 2048 (Some (always failing_peer)) in
  exists r, geecache.Get 0 g "kkk" = Some r /\
    geecache.ret_view r = geecache.mkByteView [] /\
    geecache.ret_err r = Some "kkk not exist" /\
    geecache.ret_group r = g /\
    geecache.mainCache (geecache.ret_group r) = geecache.mainCache g /\
    last (geecache.ret_events r) = Some (geecache.EvGetter "kkk").
Proof.
  apply (C9_loader_error_leaves_cache 0
           (scores 2048 (Some (always failing_peer))) "kkk" []
           "kkk not exist");
    try reflexivity; try discriminate.
Defined.

Example peer_failure_falls_back_S5 :
  let g := scores 2048 (Some (always failing_peer)) in
  (forall bytes, geecache.getter g "Tom" = (bytes, None) ->
     shell_bytes (geecache.mainCache g) + (lru.len "Tom" + Z.of_nat (length bytes))
       <= I64.max_int64 ->
     exists r c',
       geecache.Get (shell_fuel (geecache.mainCache g)) g "Tom" = Some r /\
       geecache.ret_view r = geecache.mkByteView bytes /\
       geecache.ret_err r = None /\
       geecache.cache_add (shell_fuel (geecache.mainCache g))
         (geecache.mainCache g) "Tom"
         (geecache.mkByteView (geecache.cloneBytes bytes)) = Some c' /\
       geecache.ret_group r = geecache.set_mainCache g c' /\
       (geecache.cacheBytes (geecache.mainCache g) = 0 \/
        lru.len "Tom" + Z.of_nat (length bytes)
          <= geecache.cacheBytes (geecache.mainCache g) ->
        (geecache.cache_get c' "Tom").2 = Some (geecache.mkByteView bytes)) /\
       geecache.ret_events r =
         [geecache.EvPickPeer "Tom"; geecache.EvPeerGet (geecache.name g) "Tom";
          geecache.EvLog ("[GeeCache] Failed to get from peer " +:+ "connection refused");
          geecache.EvGetter "Tom"]) /\
  (forall bytes e fuel, geecache.getter g "Tom" = (bytes, Some e) ->
     exists r, geecache.Get fuel g "Tom" = Some r /\
       geecache.ret_view r = geecache.mkByteView [] /\
       geecache.ret_err r = Some e /\ geecache.ret_group r = g).
Proof.
  apply (peer_failure_falls_back
           (scores 2048 (Some (always failing_peer))) "Tom"
           (always failing_peer) failing_peer [] "connection refused");
    try reflexivity; try discriminate.
  unfold shell_Inv. simpl. split; [lia|done].
Defined.

(** C4.  The code departs from the claim on a group whose cache ceiling
    is negative.  On the group ["scores"] with [cacheBytes = -1] and a
    picker whose peer always fails, the key ["Tom"] misses the local
    cache, the peer is selected and its fetch fails, and the loader
    delivers ["630"]: all the claim asks for.  Yet [Get] returns for no
    amount of fuel, because the admission of the loader's bytes never
    comes back from the eviction loop of [lru.Add]; whereas over the
    claim's own [Add], whose loop runs only while [max_bytes > 0], [Get]
    recovers as claimed: it logs the failure, calls the loader, returns
    ["630"] without error and leaves ["630"] in the local cache under
    ["Tom"]. *)
Theorem C4_negative_ceiling_divergence (fuel : nat) :
  let g := scores (-1) (Some (always failing_peer)) in
  (geecache.cache_get (geecache.mainCache g) "Tom").2 = None /\
  remote_fetch g "Tom" = Some (geecache.mkByteView [], Some "connection refused") /\
  geecache.getter g "Tom" = (String.list_byte_of_string "630", None) /\
  geecache.Get fuel g "Tom" = None /\
  (fun r => (geecache.ret_view r, geecache.ret_err r, geecache.ret_events r,
             (geecache.cache_get (geecache.mainCache (geecache.ret_group r))
                                 "Tom").2))
    <$> Get_spec fuel g "Tom"
  = Some (view "630", None,
          [geecache.EvPickPeer "Tom"; geecache.EvPeerGet "scores" "Tom";
           geecache.EvLog "[GeeCache] Failed to get from peer connection refused";
           geecache.EvGetter "Tom"],
          Some (view "630")).
Proof.
  cbn zeta. split_and!; try reflexivity.
  - rewrite Get_miss_load by done.
    unfold geecache.load, geecache.getFromPeer. simpl.
    unfold geecache.getLocally, geecache.populateCache. simpl.
    rewrite cache_add_negative; [done|done|simpl; lia|by vm_compute].
  - by destruct fuel.
Qed.

(** ** The peer server *)

Section ServerFacts.
Import geecache.
Implicit Types (s pre : string) (sep : ascii).

Lemma append_nil s : "" +:+ s = s.
Proof. reflexivity. Qed.

Lemma append_cons c s1 s2 : String c s1 +:+ s2 = String c (s1 +:+ s2).
Proof. reflexivity. Qed.

Lemma substring_all s : String.substring 0 (String.length s) s = s.
Proof. induction s as [|d s IH]; [done|]. cbn. by f_equal. Qed.

Lemma prefix_slice pre : forall s,
  HasPrefix s pre = true -> s = pre +:+ slice_from (String.length pre) s.
Proof.
  unfold HasPrefix, slice_from.
  induction pre as [|c pre IH]; intros s Hp.
  - cbn. by rewrite Nat.sub_0_r, substring_all.
  - destruct s as [|d s]; [done|]. cbn in Hp |- *.
    destruct (Ascii.ascii_dec c d) as [->|]; [|done].
    rewrite append_cons. f_equal. by apply IH.
Qed.

(** [cut] splits at the first separator: the part before holds none. *)
Lemma cut_Some sep : forall s before after,
  cut sep s = Some (before, after) ->
  s = before +:+ String sep after /\ cut sep before = None.
Proof.
  induction s as [|c s IH]; intros before after; cbn; [done|].
  destruct (Ascii.eqb_spec c sep) as [->|Hne].
  - by intros [= <- <-].
  - destruct (cut sep s) as [[b a]|] eqn:E; cbn; [|done].
    intros [= <- <-]. destruct (IH b a eq_refl) as [-> Hb].
    rewrite append_cons. split; [done|]. cbn.
    destruct (Ascii.eqb_spec c sep); [done|]. by rewrite Hb.
Qed.

(** C7 (as amended).  For a request path that starts with [basePath], the
    handler cuts the remainder at its first ['/'].  With no ['/'] in the
    remainder it answers 400 ["bad request"].  Otherwise the two pieces are
    the group name and the key, empty or not: a name that is not
    registered is answered with 404 and ["no such group: <name>"], and an
    empty key on a registered group reaches [Group.Get], whose error
    ["key is required"] is answered with 500. *)
Theorem C7_peer_server_errors fuel (p : HTTPPool)
    (groups : gmap string Group) (path : string) :
  HasPrefix path (basePath p) = true ->
  let rest := slice_from (String.length (basePath p)) path in
  path = basePath p +:+ rest /\
  (cut "/" rest = None ->
   ServeHTTP fuel p groups path
   = Some (Done (http_Error "bad request" 400, groups))) /\
  (forall groupName key, cut "/" rest = Some (groupName, key) ->
     rest = groupName +:+ String "/" key /\ cut "/" groupName = None /\
     (groups !! groupName = None ->
      ServeHTTP fuel p groups path
      = Some (Done (http_Error ("no such group: " +:+ groupName) 404, groups))) /\
     (forall g, groups !! groupName = Some g -> key = "" ->
      ServeHTTP fuel p groups path
      = Some (Done (http_Error "key is required" 500,
                    <[groupName := g]> groups)))).
Proof.
  intros Hp rest. split; [by apply prefix_slice|]. split.
  - intros Hc. unfold ServeHTTP, SplitN2. rewrite Hp. simpl. fold rest.
    by rewrite Hc.
  - intros groupName key Hc.
    destruct (cut_Some _ _ _ _ Hc) as [Hrest Hnone].
    split_and!; try done.
    + intros Hg. unfold ServeHTTP, SplitN2, GetGroup. rewrite Hp. simpl.
      fold rest. by rewrite Hc, Hg.
    + intros g Hg ->. unfold ServeHTTP, SplitN2, GetGroup. rewrite Hp. simpl.
      fold rest. by rewrite Hc, Hg.
Qed.
End ServerFacts.

Lemma C7_peer_server_errors_witness :
  let p := geecache.NewHTTPPool "http://localhost:8001" in
  let path := "/_geecache/scores/Tom" in
  let rest := geecache.slice_from (String.length (geecache.basePath p)) path in
  path = geecache.basePath p +:+ rest /\
  (geecache.cut "/" rest = None ->
   geecache.ServeHTTP 1 p one_group path
   = Some (geecache.Done (geecache.http_Error "bad request" 400, one_group))) /\
  (forall groupName key, geecache.cut "/" rest = Some (groupName, key) ->
     rest = groupName +:+ String "/" key /\ geecache.cut "/" groupName = None /\
     (one_group !! groupName = None ->
      geecache.ServeHTTP 1 p one_group path
      = Some (geecache.Done
                (geecache.http_Error ("no such group: " +:+ groupName) 404,
                 one_group))) /\
     (forall g, one_group !! groupName = Some g -> key = "" ->
      geecache.ServeHTTP 1 p one_group path
      = Some (geecache.Done (geecache.http_Error "key is required" 500,
                             <[groupName := g]> one_group)))).
Proof.
  apply (C7_peer_server_errors 1 (geecache.NewHTTPPool "http://localhost:8001")
           one_group "/_geecache/scores/Tom").
  reflexivity.
Defined.

(** What the handler answers on some paths under the prefix. *)
Example server_answers :
  let p := geecache.NewHTTPPool "http://localhost:8001" in
  let answer path :=
    (fun r => match r with
              | geecache.Done (resp, _) => Some resp
              | geecache.Panic _ => None
              end) <$> geecache.ServeHTTP 1 p one_group path in
  answer "/_geecache/scores/Tom"
    = Some (Some (geecache.Written "application/octet-stream"
                    (String.list_byte_of_string "630"))) /\
  answer "/_geecache/scores" = Some (Some (geecache.http_Error "bad request" 400)) /\
  answer "/_geecache/" = Some (Some (geecache.http_Error "bad request" 400)) /\
  answer "/_geecache/nogroup/Tom"
    = Some (Some (geecache.http_Error "no such group: nogroup" 404)) /\
  answer "/_geecache//Tom"
    = Some (Some (geecache.http_Error "no such group: " 404)) /\
  answer "/_geecache/scores/kkk"
    = Some (Some (geecache.http_Error "kkk not exist" 500)) /\
  answer "/other/scores/Tom" = Some None.
Proof. cbn zeta. split_and!; by vm_compute. Qed.

(** C7, as stated, fails on a request whose key segment is empty: for the
    registered group ["scores"] the path ["/_geecache/scores/"] splits
    into the two pieces ["scores"] and [""], and the answer is the 500 of
    [Group.Get]'s ["key is required"], not 400. *)
Lemma C7_empty_key_counterexample :
  let p := geecache.NewHTTPPool "http://localhost:8001" in
  let path := "/_geecache/scores/" in
  geecache.HasPrefix path (geecache.basePath p) = true /\
  geecache.SplitN2 (geecache.slice_from (String.length (geecache.basePath p)) path)
    = ["scores"; ""] /\
  geecache.ServeHTTP 1 p one_group path
    = Some (geecache.Done (geecache.http_Error "key is required" 500, one_group)) /\
  geecache.StatusInternalServerError <> geecache.StatusBadRequest.
Proof. cbn zeta. split_and!; by vm_compute. Qed.

(* ===================================================================== *)
(** * Part IV.  Further properties of the code                            *)
(* ===================================================================== *)

(** ** The recency order of the engine *)

Section Recency.
Context {V : Type} `{lru.Value V}.
Import I64 lru.
Implicit Types (c : Cache V) (l : list (clist.Element (entry V)))
         (es : list (entry V)) (k : string) (v : V).

Lemma entry_eta (x : entry V) : mk_entry (key x) (value x) = x.
Proof. by destruct x. Qed.

Lemma total_weight_entries l :
  total_weight l = entries_weight (clist.Value <$> l).
Proof. induction l as [|e l IH]; simpl; [done|]. by rewrite IH. Qed.

Lemma entries_weight_app es1 es2 :
  entries_weight (es1 ++ es2) = entries_weight es1 + entries_weight es2.
Proof. induction es1 as [|e es1 IH]; simpl; lia. Qed.

(** Resident keys are distinct. *)
Lemma linked_keys_NoDup c : linked c -> NoDup (key <$> entries c).
Proof.
  intros Hl. unfold entries. rewrite <- list_fmap_compose.
  apply NoDup_fmap_2_strong.
  - intros e1 e2 H1 H2 Hk. simpl in Hk.
    apply (linked_addr_inj c); try done.
    destruct Hl as [_ _ Hix].
    assert (cache c !! key (clist.Value e1) = Some (clist.addr e1)) as E1
      by (apply Hix; eauto).
    assert (cache c !! key (clist.Value e1) = Some (clist.addr e2)) as E2
      by (apply Hix; eauto).
    congruence.
  - destruct Hl as [Hnd _ _]. by apply NoDup_fmap_1 in Hnd.
Qed.

(** The index holds exactly the resident keys. *)
Lemma linked_dom c k :
  linked c -> is_Some (cache c !! k) <-> k ∈ key <$> entries c.
Proof.
  intros Hl. unfold entries. rewrite <- list_fmap_compose. split.
  - intros [a Ha]. apply (linked_index c Hl) in Ha as (e & Hin & _ & Hk).
    apply list_elem_of_fmap. exists e. by split.
  - intros (e & Hk & Hin)%list_elem_of_fmap. exists (clist.addr e).
    apply (linked_index c Hl). exists e. by split_and!.
Qed.

Lemma filter_other_keys k es :
  k ∉ key <$> es -> filter (fun e => key e <> k) es = es.
Proof.
  induction es as [|e es IH]; [done|]. rewrite fmap_cons, not_elem_of_cons.
  intros [Hne Hnin]. rewrite filter_cons_True by done. by rewrite IH.
Qed.

Lemma filter_middle_key k (x : entry V) es1 es2 :
  key x = k -> k ∉ key <$> es1 -> k ∉ key <$> es2 ->
  filter (fun e => key e <> k) (es1 ++ x :: es2) = es1 ++ es2.
Proof.
  intros Hx H1 H2. rewrite filter_app, filter_cons_False by (by intros []).
  by rewrite !filter_other_keys.
Qed.

Lemma NoDup_keys_middle k (x : entry V) es1 es2 :
  NoDup (key <$> (es1 ++ x :: es2)) -> key x = k ->
  (k ∉ key <$> es1) /\ (k ∉ key <$> es2).
Proof.
  rewrite fmap_app, fmap_cons. intros Hnd <-.
  apply NoDup_app in Hnd as (_ & Hd & Hnd2). apply NoDup_cons in Hnd2 as [? _].
  split; [|done]. intros Hin. apply (Hd _ Hin). left.
Qed.

(** What [Get] finds is what the recency list holds under the key. *)
Lemma Get_lookup c k v :
  Inv c -> (Get c k).2 = Some v <-> mk_entry k v ∈ entries c.
Proof.
  intros [Hl _ _]. destruct (cache c !! k) as [a|] eqn:Hk.
  - destruct (Get_hit _ _ _ Hl Hk) as (e & l1 & l2 & Hll & _ & Hkey & ->).
    simpl. pose proof (linked_keys_NoDup c Hl) as Hnd.
    unfold entries in *. rewrite Hll, fmap_app, fmap_cons in *.
    destruct (NoDup_keys_middle k _ _ _ Hnd Hkey) as [H1 H2].
    rewrite <- (entry_eta (clist.Value e)), Hkey. split.
    + intros [= ->]. rewrite elem_of_app, elem_of_cons. auto.
    + rewrite elem_of_app, elem_of_cons. intros [Hin|[Heq|Hin]].
      * destruct H1. apply list_elem_of_fmap. by exists (mk_entry k v).
      * by injection Heq as ->.
      * destruct H2. apply list_elem_of_fmap. by exists (mk_entry k v).
  - rewrite Get_miss by done. simpl. split; [done|].
    intros (e & He & Hin)%list_elem_of_fmap.
    destruct (linked_miss c k e Hl Hk Hin). by rewrite <- He.
Qed.

(** X1.  [Get] on a state the engine keeps.  A resident key is answered
    with its value and its entry moves to the front, the other entries
    keeping their order; an absent key is answered with a miss and the
    engine is left as it was.  Either way no entry is added or dropped, the
    byte count stays and [OnEvicted] is not called. *)
Theorem Get_promotes c k :
  Inv c ->
  match (Get c k).2 with
  | Some v => exists es1 es2,
      entries c = es1 ++ mk_entry k v :: es2 /\
      entries (Get c k).1 = mk_entry k v :: es1 ++ es2
  | None => (k ∉ key <$> entries c) /\ (Get c k).1 = c
  end /\
  nowBytes (Get c k).1 = nowBytes c /\
  Cache_Len (Get c k).1 = Cache_Len c /\
  evicted (Get c k).1 = evicted c /\
  Inv (Get c k).1.
Proof.
  intros HI. pose proof (Get_Inv c k HI) as HI'. destruct HI as [Hl _ _].
  destruct (cache c !! k) as [a|] eqn:Hk.
  - destruct (Get_hit _ _ _ Hl Hk) as (e & l1 & l2 & Hll & _ & Hkey & Hg).
    rewrite Hg in *. simpl. split_and!; try done.
    + exists (clist.Value <$> l1), (clist.Value <$> l2).
      unfold entries. simpl. rewrite Hll, !fmap_app, fmap_cons.
      by rewrite <- Hkey, entry_eta.
    + unfold Cache_Len, clist.Len. simpl. rewrite Hll, !length_app. simpl. lia.
  - rewrite Get_miss in * by done. simpl. split_and!; try done.
    rewrite <- linked_dom by done. rewrite Hk. by intros [? ?].
Qed.

(** *** Evictions *)

Lemma RemoveOldest_entries c es (x : entry V) :
  Inv c -> entries c = es ++ [x] ->
  entries (RemoveOldest c) = es /\
  nowBytes (RemoveOldest c) = nowBytes c - weight x /\
  cache (RemoveOldest c) = delete (key x) (cache c) /\
  evicted (RemoveOldest c) =
    (if OnEvicted c then evicted c ++ [call_of x] else evicted c).
Proof.
  intros HI He. unfold entries in He.
  destruct (clist.Back (ll c)) as [e|] eqn:Hb.
  2:{ apply Back_None in Hb. rewrite Hb in He. by destruct es. }
  apply Back_Some in Hb as [l Hll].
  rewrite Hll, fmap_app in He. simpl in He.
  apply app_inj_tail in He as [<- <-].
  rewrite (RemoveOldest_snoc c l e HI Hll). by unfold entries.
Qed.

(** X2.  [RemoveOldest] drops exactly the least recently used entry: the
    last one of the recency order.  Its weight leaves the byte count, its
    key is no longer found, and a callback that is installed is called
    once, with that entry; on an empty engine nothing happens. *)
Theorem RemoveOldest_evicts_lru c :
  Inv c ->
  (entries c = [] -> RemoveOldest c = c) /\
  (forall es x, entries c = es ++ [x] ->
     entries (RemoveOldest c) = es /\
     nowBytes (RemoveOldest c) = nowBytes c - weight x /\
     Cache_Len (RemoveOldest c) = Cache_Len c - 1 /\
     evicted (RemoveOldest c) =
       (if OnEvicted c then evicted c ++ [call_of x] else evicted c) /\
     (Get (RemoveOldest c) (key x)).2 = None /\
     Inv (RemoveOldest c)).
Proof.
  intros HI. split.
  - intros He. apply RemoveOldest_empty. unfold entries in He.
    by apply fmap_nil_inv in He.
  - intros es x He.
    destruct (RemoveOldest_entries c es x HI He) as (H1 & H2 & H3 & H4).
    split_and!; try done.
    + assert (length (entries c) = S (length (entries (RemoveOldest c)))) as Hlen
        by (rewrite He, H1, length_app; simpl; lia).
      unfold entries in Hlen. rewrite !length_fmap in Hlen.
      unfold Cache_Len, clist.Len. lia.
    + rewrite Get_miss; [done|]. rewrite H3. apply lookup_delete_eq.
    + by apply RemoveOldest_Inv.
Qed.

(** [n] evictions drop the last [n] entries, oldest first. *)
Lemma iter_RemoveOldest_entries n : forall c,
  Inv c ->
  let c' := Nat.iter n RemoveOldest c in
  let m := (length (entries c) - n)%nat in
  entries c' = take m (entries c) /\
  evicted c' =
    (if OnEvicted c
     then evicted c ++ (call_of <$> reverse (drop m (entries c)))
     else evicted c).
Proof.
  induction n as [|n IH]; intros c HI; cbn zeta.
  - rewrite Nat.sub_0_r, firstn_all, drop_all. simpl.
    split; [done|]. destruct (OnEvicted c); [|done]. by rewrite app_nil_r.
  - destruct (IH c HI) as [IH1 IH2]. simpl.
    destruct (iter_RemoveOldest_Inv n c HI) as [HIn _].
    destruct (iter_RemoveOldest_frame n c) as [_ Hcb].
    set (cn := Nat.iter n RemoveOldest c) in *.
    destruct (decide (length (entries c) <= n)%nat) as [Hle|Hgt].
    + replace (length (entries c) - n)%nat with 0%nat in * by lia.
      replace (length (entries c) - S n)%nat with 0%nat by lia.
      rewrite take_0 in IH1. unfold entries in IH1.
      apply fmap_nil_inv in IH1. rewrite RemoveOldest_empty by done.
      unfold entries. by rewrite IH1.
    + assert (exists x, entries c !! (length (entries c) - S n)%nat = Some x)
        as [x Hx] by (apply lookup_lt_is_Some; lia).
      assert (length (entries c) - n = S (length (entries c) - S n))%nat
        as Hm by lia.
      rewrite Hm in IH1, IH2.
      rewrite (take_S_r _ _ _ Hx) in IH1.
      destruct (RemoveOldest_entries cn _ x HIn IH1) as (H1 & _ & _ & H4).
      split; [done|]. rewrite H4, Hcb, IH2.
      destruct (OnEvicted c); [|done].
      rewrite (drop_S _ _ _ Hx), reverse_cons, fmap_app, app_assoc. done.
Qed.

(** The recency order after the first part of [Add]. *)
Lemma Add_body_entries c k v :
  Inv c -> resident_bytes c + (len k + Len v) <= max_int64 ->
  entries (Add_body c k v) = touch k v (entries c).
Proof.
  intros HI Hfit. unfold touch. destruct (cache c !! k) as [a|] eqn:Hk.
  - destruct (Add_body_present c k v a Hk Hfit HI)
      as (old & l1 & l2 & Hll & _ & _ & ->).
    pose proof (linked_keys_NoDup c (Inv_linked c HI)) as Hnd.
    unfold entries in *. simpl. rewrite Hll, fmap_app, fmap_cons in Hnd.
    rewrite Hll, !fmap_app, fmap_cons. simpl in *. f_equal.
    destruct (NoDup_keys_middle k (mk_entry k old) _ _ Hnd eq_refl).
    by rewrite filter_middle_key.
  - rewrite Add_body_absent by done. unfold entries. simpl. f_equal.
    rewrite filter_other_keys; [done|].
    rewrite <- (linked_dom c) by apply HI. rewrite Hk. by intros [? ?].
Qed.

Lemma Add_body_evicted c k v : evicted (Add_body c k v) = evicted c.
Proof.
  unfold Add_body. destruct (cache c !! k); [|done].
  by destruct (clist.deref _ _).
Qed.

Lemma Inv_nowBytes c : Inv c -> nowBytes c = entries_weight (entries c).
Proof.
  intros HI. rewrite (Inv_bytes c HI). apply total_weight_entries.
Qed.

(** What [Add] keeps and what it evicts. *)
Lemma Add_entries fuel c k v :
  Inv c -> 0 <= maxBytes c ->
  resident_bytes c + (len k + Len v) <= max_int64 ->
  (S (length (ll c)) <= fuel)%nat ->
  exists c' kept gone,
    Add fuel c k v = Some c' /\ Inv c' /\
    touch k v (entries c) = kept ++ gone /\
    entries c' = kept /\
    nowBytes c' = entries_weight kept /\
    evicted c' =
      (if OnEvicted c then evicted c ++ (call_of <$> reverse gone)
       else evicted c) /\
    (maxBytes c = 0 \/ entries_weight kept <= maxBytes c) /\
    (forall x gone', gone = x :: gone' ->
       maxBytes c <> 0 /\ maxBytes c < entries_weight (kept ++ [x])).
Proof.
  intros HI Hmax Hfit Hfuel.
  destruct (Add_ok fuel c k v HI Hmax Hfit Hfuel)
    as (n & Hadd & HI' & Hob & Hbefore & Hm & _ & _ & _).
  cbn zeta in *.
  destruct (Add_body_Inv c k v Hfit HI) as [HIb _].
  destruct (Add_body_frame c k v) as [Hmb Hcb].
  pose proof (Add_body_entries c k v HI Hfit) as Hes.
  pose proof (Add_body_evicted c k v) as Hevb.
  set (cb := Add_body c k v) in *.
  destruct (iter_RemoveOldest_entries n cb HIb) as [He Hev].
  cbn zeta in He, Hev. rewrite Hcb, Hevb, Hes in Hev. rewrite Hes in He.
  set (es := touch k v (entries c)) in *.
  set (m := (length es - n)%nat) in *.
  exists (Nat.iter n RemoveOldest cb), (take m es), (drop m es).
  split_and!; try done.
  - by rewrite take_drop.
  - by rewrite Inv_nowBytes, He.
  - apply over_budget_false in Hob. rewrite Hm, Inv_nowBytes, He in Hob by done.
    done.
  - intros x gone' Hgone.
    assert (es !! m = Some x) as Hx.
    { rewrite <- (take_drop m es) at 1.
      assert (m < length es)%nat as Hlt.
      { destruct (decide (m < length es)%nat) as [|Hge]; [done|].
        rewrite drop_ge in Hgone by lia. done. }
      rewrite lookup_app_r by (rewrite length_take; lia).
      rewrite length_take, Hgone. by replace (m - m `min` length es)%nat with 0%nat by lia. }
    assert (m < length es)%nat as Hlt by (by apply lookup_lt_Some in Hx).
    assert (n <> 0)%nat as Hn0 by (unfold m in Hlt; lia).
    assert (n <= length es)%nat as Hn.
    { destruct (decide (n <= length es)%nat) as [|Hgt]; [done|]. exfalso.
      assert (over_budget (Nat.iter (length es) RemoveOldest cb) = true) as Ht
        by (apply Hbefore; lia).
      destruct (iter_RemoveOldest_Inv (length es) cb HIb) as [HIe _].
      destruct (iter_RemoveOldest_frame (length es) cb) as [Hme _].
      destruct (iter_RemoveOldest_entries (length es) cb HIb) as [Hee _].
      cbn zeta in Hee. rewrite Hes in Hee. fold es in Hee.
      rewrite Nat.sub_diag, take_0 in Hee.
      apply fmap_nil_inv in Hee.
      rewrite over_budget_empty in Ht; [done|done| |done].
      rewrite Hme, Hmb. done. }
    assert (over_budget (Nat.iter (n - 1) RemoveOldest cb) = true) as Ht
      by (apply Hbefore; lia).
    destruct (iter_RemoveOldest_Inv (n - 1) cb HIb) as [HIp _].
    destruct (iter_RemoveOldest_frame (n - 1) cb) as [Hmp _].
    destruct (iter_RemoveOldest_entries (n - 1) cb HIb) as [Hep _].
    cbn zeta in Hep. rewrite Hes in Hep.
    replace (length es - (n - 1))%nat with (S m) in Hep by (unfold m; lia).
    rewrite (take_S_r _ _ _ Hx) in Hep.
    apply over_budget_true in Ht.
    rewrite Hmp, Hmb, (Inv_nowBytes _ HIp), Hep in Ht. done.
Qed.

(** X3.  [Add] on a state the engine keeps, with a ceiling that is not
    negative: the recency order afterwards is the longest front part of
    "the new entry, then the others in their order" that fits under the
    ceiling.  What is cut off is evicted from the back, least recently
    used first, and reported to an installed callback in that order; with
    [maxBytes = 0] nothing is evicted, and no entry is evicted while the
    byte count is within the ceiling. *)
Theorem Add_keeps_recent_prefix fuel c k v :
  Inv c -> 0 <= maxBytes c ->
  resident_bytes c + (len k + Len v) <= max_int64 ->
  (S (length (ll c)) <= fuel)%nat ->
  exists c' kept gone,
    Add fuel c k v = Some c' /\
    touch k v (entries c) = kept ++ gone /\
    entries c' = kept /\
    nowBytes c' = entries_weight kept /\
    evicted c' =
      (if OnEvicted c then evicted c ++ (call_of <$> reverse gone)
       else evicted c) /\
    (maxBytes c = 0 \/ entries_weight kept <= maxBytes c) /\
    (forall x gone', gone = x :: gone' ->
       maxBytes c <> 0 /\ maxBytes c < entries_weight (kept ++ [x])).
Proof.
  intros HI Hmax Hfit Hfuel.
  destruct (Add_entries fuel c k v HI Hmax Hfit Hfuel)
    as (c' & kept & gone & Hadd & _ & Hrest).
  by exists c', kept, gone.
Qed.

(** X4.  [Add] followed by [Get]: an entry that fits under the ceiling is
    found again with the value just stored, at the front of the recency
    order; and whatever [Add] stores under [k], a lookup of another key
    afterwards never yields a value that key did not have before. *)
Theorem Add_then_lookup fuel c k v :
  Inv c -> 0 <= maxBytes c ->
  resident_bytes c + (len k + Len v) <= max_int64 ->
  (S (length (ll c)) <= fuel)%nat ->
  exists c', Add fuel c k v = Some c' /\
    (maxBytes c = 0 \/ len k + Len v <= maxBytes c ->
     (Get c' k).2 = Some v /\ head (entries c') = Some (mk_entry k v)) /\
    (forall k' v', k' <> k ->
       (Get c' k').2 = Some v' -> (Get c k').2 = Some v').
Proof.
  intros HI Hmax Hfit Hfuel.
  destruct (Add_entries fuel c k v HI Hmax Hfit Hfuel)
    as (c' & kept & gone & Hadd & HI' & Hsplit & He & _ & _ & _ & Hmin).
  exists c'. split; [done|]. split.
  - intros Hroom.
    assert (exists rest, kept = mk_entry k v :: rest) as [rest Hkept].
    { destruct kept as [|x rest].
      - simpl in Hsplit. unfold touch in Hsplit. symmetry in Hsplit.
        destruct (Hmin _ _ Hsplit) as [Hne Hlt]. simpl in Hlt.
        unfold weight in Hlt. simpl in Hlt. lia.
      - unfold touch in Hsplit. injection Hsplit as <- _. by eexists. }
    rewrite Get_lookup, He, Hkept by done. split; [left|done].
  - intros k' v' Hne. rewrite !Get_lookup, He by done. intros Hin.
    assert (mk_entry k' v' ∈ touch k v (entries c)) as Hin'
      by (rewrite Hsplit, elem_of_app; auto).
    unfold touch in Hin'. apply elem_of_cons in Hin' as [Heq|Hin'].
    + by injection Heq as -> _.
    + by apply list_elem_of_filter in Hin' as [_ ?].
Qed.

(** The index has one key for every linked node. *)
Lemma linked_size c : linked c -> size (cache c) = length (ll c).
Proof.
  intros Hl.
  assert (cache c
          = list_to_map ((fun e => (key (clist.Value e), clist.addr e)) <$> ll c))
    as ->.
  { pose proof (linked_keys_NoDup c Hl) as Hnd. unfold entries in Hnd.
    rewrite <- list_fmap_compose in Hnd.
    apply map_eq. intros k. apply option_eq. intros a.
    rewrite (linked_index c Hl), <- elem_of_list_to_map.
    - rewrite list_elem_of_fmap. split.
      + intros (e & ? & <- & <-). by exists e.
      + intros (e & [= -> ->] & ?). by exists e.
    - by rewrite <- list_fmap_compose. }
  rewrite map_size_list_to_map, length_fmap; [done|].
  pose proof (linked_keys_NoDup c Hl) as Hnd. unfold entries in Hnd.
  by rewrite <- !list_fmap_compose in *.
Qed.

(** X5.  After any sequence of [Add] and [Get] operations on a new engine
    whose ceiling is not negative, the index and the recency list agree:
    [Len()] is the number of keys of the index, the resident keys are
    distinct, and a key is in the index exactly when an entry carries
    it. *)
Theorem Len_counts_keys (maxB : Z) (cb : bool) (ops : list (op V)) :
  0 <= maxB -> offered_bytes ops <= max_int64 ->
  exists c, run (length ops) (New maxB cb) ops = Some c /\
    Cache_Len c = Z.of_nat (size (cache c)) /\
    NoDup (key <$> entries c) /\
    (forall k, is_Some (cache c !! k) <-> k ∈ key <$> entries c).
Proof.
  intros Hmax Hfit.
  assert (over_budget (New (V:=V) maxB cb) = false) as Hob0
    by (apply over_budget_false; simpl; lia).
  destruct (run_ok ops (length ops) (New maxB cb) (New_Inv maxB cb))
    as (c & Hrun & HI & _); try done.
  exists c. destruct HI as [Hl _ _]. split_and!; try done.
  - unfold Cache_Len, clist.Len. by rewrite linked_size.
  - by apply linked_keys_NoDup.
  - intros k. by apply linked_dom.
Qed.

(** *** What the engine holds is what was last added *)

Lemma last_added_snoc (ops : list (op V)) (o : op V) k :
  last_added (ops ++ [o]) k =
    match o with
    | OpAdd k' v => if String.eqb k' k then Some v else last_added ops k
    | OpGet _ => last_added ops k
    end.
Proof. unfold last_added. by rewrite fold_left_app. Qed.

Lemma step_holds_last_added fuel c (pre : list (op V)) (o : op V) c' :
  Inv c -> 0 <= maxBytes c ->
  resident_bytes c + offered_bytes [o] <= max_int64 ->
  (S (length (ll c)) <= fuel)%nat ->
  (forall k v, mk_entry k v ∈ entries c -> last_added pre k = Some v) ->
  step fuel c o = Some c' ->
  forall k v, mk_entry k v ∈ entries c' -> last_added (pre ++ [o]) k = Some v.
Proof.
  intros HI Hmax Hfit Hfuel Hco Hstep k v Hin. rewrite last_added_snoc.
  destruct o as [k0 v0|k0]; simpl in Hstep, Hfit.
  - destruct (Add_entries fuel c k0 v0 HI Hmax) as
      (c2 & kept & gone & Hadd & _ & Hsplit & He & _); [lia|done|].
    rewrite Hadd in Hstep. injection Hstep as <-.
    assert (mk_entry k v ∈ touch k0 v0 (entries c)) as Hin'
      by (rewrite Hsplit, elem_of_app, <- He; auto).
    unfold touch in Hin'. apply elem_of_cons in Hin' as [Heq|Hin'].
    + injection Heq as -> ->. by rewrite String.eqb_refl.
    + apply list_elem_of_filter in Hin' as [Hne Hin'']. simpl in Hne.
      destruct (String.eqb_spec k0 k) as [->|_]; [done|]. by apply Hco.
  - injection Hstep as <-. apply Hco.
    destruct (Get_promotes c k0 HI) as [Hg _].
    destruct (Get c k0).2 as [v1|].
    + destruct Hg as (es1 & es2 & E1 & E2). rewrite E2 in Hin. rewrite E1.
      rewrite elem_of_cons, elem_of_app in Hin.
      rewrite elem_of_app, elem_of_cons. tauto.
    + destruct Hg as [_ <-]. done.
Qed.

Lemma run_holds_last_added (ops : list (op V)) : forall fuel c pre,
  Inv c -> 0 <= maxBytes c -> over_budget c = false ->
  resident_bytes c + offered_bytes ops <= max_int64 ->
  (length (ll c) + length ops <= fuel)%nat ->
  (forall k v, mk_entry k v ∈ entries c -> last_added pre k = Some v) ->
  exists c', run fuel c ops = Some c' /\ Inv c' /\
    forall k v, mk_entry k v ∈ entries c' -> last_added (pre ++ ops) k = Some v.
Proof.
  induction ops as [|o ops IH]; intros fuel c pre HI Hmax Hob Hfit Hfuel Hco.
  - exists c. rewrite app_nil_r. by split_and!.
  - change (o :: ops) with ([o] ++ ops) in Hfit.
    rewrite offered_bytes_app in Hfit.
    pose proof (offered_bytes_nonneg ops) as Hnn.
    pose proof (offered_bytes_nonneg [o]) as Hnn1.
    simpl length in Hfuel.
    destruct (run_ok [o] fuel c HI Hmax Hob)
      as (c1 & Hrun1 & HI1 & Hob1 & Hm1 & _ & Hr1 & Hl1);
      [lia|simpl; lia|].
    simpl in Hrun1. destruct (step fuel c o) as [c1'|] eqn:Hstep; [|done].
    simpl in Hrun1. injection Hrun1 as ->.
    simpl run. rewrite Hstep. simpl.
    destruct (IH fuel c1 (pre ++ [o]) HI1) as (c' & Hrun & HI' & Hco');
      [lia|done|lia|simpl in Hl1; lia| |].
    { apply (step_holds_last_added fuel c pre o c1); try done; lia. }
    exists c'. split_and!; try done.
    intros k v Hin. specialize (Hco' k v Hin).
    by rewrite <- app_assoc in Hco'.
Qed.

(** X22.  After any sequence of [Add] and [Get] operations on a new
    engine whose ceiling is not negative, a lookup that hits returns the
    value of the last [Add] of that key in the sequence: a stale or a
    foreign value is never returned. *)
Theorem Get_returns_last_added (maxB : Z) (cb : bool) (ops : list (op V)) :
  0 <= maxB -> offered_bytes ops <= max_int64 ->
  exists c, run (length ops) (New maxB cb) ops = Some c /\
    forall k v, (Get c k).2 = Some v -> last_added ops k = Some v.
Proof.
  intros Hmax Hfit.
  assert (over_budget (New (V:=V) maxB cb) = false) as Hob0
    by (apply over_budget_false; simpl; lia).
  destruct (run_holds_last_added ops (length ops) (New maxB cb) []
              (New_Inv maxB cb)) as (c & Hrun & HI & Hco); try done.
  { intros k v Hin. by apply elem_of_nil in Hin. }
  exists c. split; [done|]. intros k v Hg. apply Hco. by apply Get_lookup.
Qed.

End Recency.

(** *** The engine on concrete inputs *)

Lemma S1_state_Inv : Inv S1_state.
Proof.
  destruct (run_ok S1_ops 4 (lru.New 10 true) (New_Inv 10 true))
    as (c & Hrun & HI & _); try (by vm_compute).
  unfold S1_state. by rewrite Hrun.
Qed.

Lemma Get_promotes_witness :
  match (lru.Get S1_state "b").2 with
  | Some v => exists es1 es2,
      entries S1_state = es1 ++ lru.mk_entry "b" v :: es2 /\
      entries (lru.Get S1_state "b").1 = lru.mk_entry "b" v :: es1 ++ es2
  | None => ("b" ∉ lru.key <$> entries S1_state) /\
            (lru.Get S1_state "b").1 = S1_state
  end /\
  lru.nowBytes (lru.Get S1_state "b").1 = lru.nowBytes S1_state /\
  lru.Cache_Len (lru.Get S1_state "b").1 = lru.Cache_Len S1_state /\
  lru.evicted (lru.Get S1_state "b").1 = lru.evicted S1_state /\
  Inv (lru.Get S1_state "b").1.
Proof. apply (Get_promotes S1_state "b" S1_state_Inv). Defined.

Example Get_promotes_S1 :
  (lru.Get S1_state "b").2 = Some (view "5678") /\
  entries S1_state = [lru.mk_entry "c" (view "9012"); lru.mk_entry "b" (view "5678")] /\
  entries (lru.Get S1_state "b").1
    = [lru.mk_entry "b" (view "5678"); lru.mk_entry "c" (view "9012")].
Proof. split_and!; by vm_compute. Qed.

Lemma RemoveOldest_evicts_lru_witness :
  (entries S1_state = [] -> lru.RemoveOldest S1_state = S1_state) /\
  (forall es x, entries S1_state = es ++ [x] ->
     entries (lru.RemoveOldest S1_state) = es /\
     lru.nowBytes (lru.RemoveOldest S1_state) = lru.nowBytes S1_state - weight x /\
     lru.Cache_Len (lru.RemoveOldest S1_state) = lru.Cache_Len S1_state - 1 /\
     lru.evicted (lru.RemoveOldest S1_state) =
       (if lru.OnEvicted S1_state then lru.evicted S1_state ++ [call_of x]
        else lru.evicted S1_state) /\
     (lru.Get (lru.RemoveOldest S1_state) (lru.key x)).2 = None /\
     Inv (lru.RemoveOldest S1_state)).
Proof. apply (RemoveOldest_evicts_lru S1_state S1_state_Inv). Defined.

Lemma Add_keeps_recent_prefix_witness :
  exists c' kept gone,
    lru.Add 3 S1_state "d" (view "3456") = Some c' /\
    touch "d" (view "3456") (entries S1_state) = kept ++ gone /\
    entries c' = kept /\
    lru.nowBytes c' = entries_weight kept /\
    lru.evicted c' =
      (if lru.OnEvicted S1_state
       then lru.evicted S1_state ++ (call_of <$> reverse gone)
       else lru.evicted S1_state) /\
    (lru.maxBytes S1_state = 0 \/ entries_weight kept <= lru.maxBytes S1_state) /\
    (forall x gone', gone = x :: gone' ->
       lru.maxBytes S1_state <> 0 /\
       lru.maxBytes S1_state < entries_weight (kept ++ [x])).
Proof.
  apply (Add_keeps_recent_prefix 3 S1_state "d" (view "3456") S1_state_Inv);
    by vm_compute.
Defined.

Lemma Add_then_lookup_witness :
  exists c', lru.Add 3 S1_state "d" (view "3456") = Some c' /\
    (lru.maxBytes S1_state = 0 \/
     lru.len "d" + lru.Len (view "3456") <= lru.maxBytes S1_state ->
     (lru.Get c' "d").2 = Some (view "3456") /\
     head (entries c') = Some (lru.mk_entry "d" (view "3456"))) /\
    (forall k' v', k' <> "d" ->
       (lru.Get c' k').2 = Some v' -> (lru.Get S1_state k').2 = Some v').
Proof.
  apply (Add_then_lookup 3 S1_state "d" (view "3456") S1_state_Inv);
    by vm_compute.
Defined.

Lemma Get_returns_last_added_witness :
  exists c, run (length S1_ops) (lru.New 10 true) S1_ops = Some c /\
    forall k v, (lru.Get c k).2 = Some v -> last_added S1_ops k = Some v.
Proof.
  apply (Get_returns_last_added 10 true S1_ops); [lia | by vm_compute].
Defined.

Lemma Len_counts_keys_witness :
  exists c, run (length S1_ops) (lru.New 10 true) S1_ops = Some c /\
    lru.Cache_Len c = Z.of_nat (size (lru.cache c)) /\
    NoDup (lru.key <$> entries c) /\
    (forall k, is_Some (lru.cache c !! k) <-> k ∈ lru.key <$> entries c).
Proof. apply (Len_counts_keys 10 true S1_ops); [lia | by vm_compute]. Defined.

(** ** Routing on the ring *)

Section Routing.
Import I64 consistenthash.
Implicit Types (m : Map) (l : list Z) (ps ks : list string) (key p : string).

(** *** What [Add] builds *)

Lemma fold_record_owner p (hs : list Z) : forall hm : gmap Z string,
  fold_left record_owner ((fun h => (h, p)) <$> hs) hm
  = fold_left (fun hm h => <[h := p]> hm) hs hm.
Proof. induction hs as [|h hs IH]; intros hm; simpl; [done|]. by rewrite IH. Qed.

Lemma owner_pairs_cons m p ps :
  owner_pairs m (p :: ps)
  = ((fun h => (h, p)) <$> replica_hashes m p) ++ owner_pairs m ps.
Proof. done. Qed.

Lemma owner_pairs_app m ps1 ps2 :
  owner_pairs m (ps1 ++ ps2) = owner_pairs m ps1 ++ owner_pairs m ps2.
Proof. unfold owner_pairs. apply bind_app. Qed.

Lemma owner_pairs_same m m' ps :
  hash m' = hash m -> replicas m' = replicas m ->
  owner_pairs m' ps = owner_pairs m ps.
Proof.
  intros Hh Hr. unfold owner_pairs, replica_hashes, replica_hash.
  by rewrite Hh, Hr.
Qed.

Lemma fst_owner p (hs : list Z) : ((fun h => (h, p)) <$> hs).*1 = hs.
Proof. rewrite <- list_fmap_compose. apply list_fmap_id. Qed.

Lemma Add_fold_spec ks : forall m,
  fold_left Add_key ks m =
    mkMap (hash m) (replicas m) (keys m ++ (owner_pairs m ks).*1)
          (fold_left record_owner (owner_pairs m ks) (hashMap m)).
Proof.
  induction ks as [|p ks IH]; intros m; simpl fold_left.
  - simpl. rewrite app_nil_r. by destruct m.
  - rewrite IH.
    assert (Add_key m p =
            mkMap (hash m) (replicas m) (keys m ++ replica_hashes m p)
                  (fold_left (fun hm h => <[h := p]> hm) (replica_hashes m p)
                             (hashMap m))) as E
      by (unfold Add_key; apply Add_key_spec).
    rewrite (owner_pairs_same m (Add_key m p) ks) by (by rewrite E).
    rewrite E. cbn [hash replicas keys hashMap].
    rewrite owner_pairs_cons, fmap_app, fst_owner, fold_left_app,
      fold_record_owner, <- app_assoc. done.
Qed.

Lemma Add_ring_spec m ks :
  Add m ks =
    mkMap (hash m) (replicas m)
          (sort_Ints (keys m ++ (owner_pairs m ks).*1))
          (fold_left record_owner (owner_pairs m ks) (hashMap m)).
Proof. unfold Add. by rewrite Add_fold_spec. Qed.

(** X6.  Adding peers in two calls builds the same ring as adding them
    in one call: the same hashes in the same order, the same owners, the
    same hash function and replica count. *)
Theorem Add_Add m ks1 ks2 : Add (Add m ks1) ks2 = Add m (ks1 ++ ks2).
Proof.
  rewrite (Add_ring_spec (Add m ks1)), (Add_ring_spec m (ks1 ++ ks2)).
  rewrite (owner_pairs_same m (Add m ks1) ks2) by (by rewrite Add_ring_spec).
  rewrite (Add_ring_spec m ks1). simpl.
  rewrite owner_pairs_app, fmap_app, fold_left_app. f_equal.
  unfold sort_Ints. apply (Sorted_unique Z.le).
  - apply (Sorted_merge_sort _).
  - apply (Sorted_merge_sort _).
  - rewrite !merge_sort_Permutation. by rewrite <- app_assoc.
Qed.

Lemma lookup_fold_owner (pairs : list (Z * string)) :
  forall (hm : gmap Z string) h,
  (h ∉ pairs.*1 -> fold_left record_owner pairs hm !! h = hm !! h) /\
  (h ∈ pairs.*1 ->
   exists p, (h, p) ∈ pairs /\ fold_left record_owner pairs hm !! h = Some p).
Proof.
  induction pairs as [|[h0 p0] pairs IH]; intros hm h; simpl.
  - split; [done|]. by intros ?%elem_of_nil.
  - destruct (IH (record_owner hm (h0, p0)) h) as [IH1 IH2]. split.
    + intros [Hne Hnin]%not_elem_of_cons. rewrite IH1 by done.
      unfold record_owner. simpl. by rewrite lookup_insert_ne.
    + intros Hin. destruct (decide (h ∈ pairs.*1)) as [Hin'|Hnin].
      * destruct (IH2 Hin') as (p & Hp & Hl). exists p.
        split; [by right|done].
      * apply elem_of_cons in Hin as [->|?]; [|done]. exists p0.
        split; [left|]. rewrite IH1 by done.
        unfold record_owner. simpl. by rewrite lookup_insert_eq.
Qed.

Lemma elem_of_owner_pairs m ps h p :
  (h, p) ∈ owner_pairs m ps -> p ∈ ps.
Proof.
  unfold owner_pairs. rewrite list_elem_of_bind.
  intros (q & Hin & Hq). apply list_elem_of_fmap in Hin as (? & [= -> ->] & _).
  done.
Qed.

Lemma elem_of_Add_keys m ps x :
  x ∈ keys (Add m ps) <-> x ∈ keys m \/ x ∈ (owner_pairs m ps).*1.
Proof.
  rewrite Add_ring_spec. simpl. unfold sort_Ints.
  by rewrite merge_sort_Permutation, elem_of_app.
Qed.

(** *** The hash that serves a key *)

Lemma elem_of_index l x :
  x ∈ l <-> exists j, 0 <= j < Z.of_nat (length l) /\ index l j = x.
Proof.
  rewrite list_elem_of_lookup. split.
  - intros [i Hi]. exists (Z.of_nat i). split.
    + apply lookup_lt_Some in Hi. lia.
    + by apply index_lookup.
  - intros (j & Hj & <-). exists (Z.to_nat j). unfold index.
    destruct (l !! Z.to_nat j) eqn:E; [done|].
    apply lookup_ge_None in E. lia.
Qed.

Lemma Get_next m key :
  Sorted Z.le (keys m) -> keys m <> [] ->
  exists t, clockwise_next (keys m) (uint32 (hash m key)) t /\
    Get m key = default "" (hashMap m !! t).
Proof.
  intros Hs Hk. set (h := uint32 (hash m key)).
  set (n := Z.of_nat (length (keys m))).
  assert (0 < n) as Hn by (unfold n; destruct (keys m); [done|simpl; lia]).
  pose proof (Search_successor (keys m) h Hs) as (Hi & Hlo & Hhi).
  fold n in Hi, Hlo, Hhi. set (i := Search n _) in *.
  assert (Get m key = default "" (hashMap m !! index (keys m) (Z.rem i n)))
    as ->.
  { unfold Get. fold n. destruct (Z.eqb_spec n 0) as [?|_]; [lia|]. done. }
  eexists. split; [|done]. destruct (decide (i < n)) as [Hlt|Hge].
  - rewrite Z.rem_small by lia. split.
    + apply elem_of_index. exists i. split; [lia|done].
    + left. split; [by apply Hhi|].
      intros x (j & Hj & <-)%elem_of_index Hx.
      destruct (decide (j < i)) as [Hji|Hij].
      * specialize (Hlo j). lia.
      * apply sorted_index_le; [done|lia|lia].
  - assert (i = n) as -> by lia. rewrite Z.rem_same by lia. split.
    + apply elem_of_index. exists 0. split; [lia|done].
    + right. split.
      * intros x (j & Hj & <-)%elem_of_index. apply Hlo. lia.
      * intros x (j & Hj & <-)%elem_of_index.
        apply sorted_index_le; [done|lia|lia].
Qed.

Lemma clockwise_next_unique l h t1 t2 :
  clockwise_next l h t1 -> clockwise_next l h t2 -> t1 = t2.
Proof.
  intros [H1 [[Ha1 Hb1]|[Ha1 Hb1]]] [H2 [[Ha2 Hb2]|[Ha2 Hb2]]].
  - specialize (Hb1 _ H2 Ha2). specialize (Hb2 _ H1 Ha1). lia.
  - specialize (Ha2 _ H1). lia.
  - specialize (Ha1 _ H2). lia.
  - specialize (Hb1 _ H2). specialize (Hb2 _ H1). lia.
Qed.

Lemma clockwise_next_sub l l' h t :
  (forall x, x ∈ l -> x ∈ l') -> clockwise_next l' h t -> t ∈ l ->
  clockwise_next l h t.
Proof.
  intros Hsub [_ [[Ha Hb]|[Ha Hb]]] Hin; (split; [done|]).
  - left. split; [done|]. intros x Hx. apply Hb. by apply Hsub.
  - right. split; intros x Hx; [apply Ha|apply Hb]; by apply Hsub.
Qed.

(** Where a key is served after [Add]. *)
Lemma Get_Add_cases m ps key :
  Sorted Z.le (keys m) ->
  (keys (Add m ps) = [] /\ Get (Add m ps) key = "") \/
  (exists h p, h ∈ keys (Add m ps) /\ (h, p) ∈ owner_pairs m ps /\
               Get (Add m ps) key = p) \/
  (keys m <> [] /\ Get (Add m ps) key = Get m key).
Proof.
  intros Hs. destruct (decide (keys (Add m ps) = [])) as [He|Hne].
  { left. split; [done|]. unfold Get. by rewrite He. }
  right.
  destruct (Get_next (Add m ps) key (Add_sorted m ps) Hne) as (t' & Hn' & ->).
  assert (hash (Add m ps) = hash m) as Hh by (by rewrite Add_ring_spec).
  rewrite Hh in Hn'.
  assert (hashMap (Add m ps)
          = fold_left record_owner (owner_pairs m ps) (hashMap m)) as ->
    by (by rewrite Add_ring_spec).
  destruct (lookup_fold_owner (owner_pairs m ps) (hashMap m) t') as [Hold Hnew].
  destruct (decide (t' ∈ (owner_pairs m ps).*1)) as [Hin|Hnin].
  - left. destruct (Hnew Hin) as (p & Hp & ->). exists t', p.
    split_and!; [apply Hn'|done|done].
  - right. rewrite Hold by done.
    assert (t' ∈ keys m) as Hin.
    { destruct Hn' as [Hin _]. apply elem_of_Add_keys in Hin as [?|?]; done. }
    assert (keys m <> []) as Hk by (intros E; rewrite E in Hin; by apply elem_of_nil in Hin).
    split; [done|].
    destruct (Get_next m key Hs Hk) as (t & Hn & ->).
    assert (clockwise_next (keys m) (uint32 (hash m key)) t') as Hn''.
    { apply (clockwise_next_sub _ (keys (Add m ps))); [|done|done].
      intros x Hx. apply elem_of_Add_keys. by left. }
    by rewrite (clockwise_next_unique _ _ _ _ Hn Hn'').
Qed.

(** X7.  Adding peers to a ring moves a key only to one of the added
    peers: after [Add], every key is served by the peer that served it
    before, or by one of the peers just added. *)
Theorem Add_moves_keys_to_new_peers m ps key :
  Sorted Z.le (keys m) ->
  Get (Add m ps) key = Get m key \/ Get (Add m ps) key ∈ ps.
Proof.
  intros Hs.
  destruct (Get_Add_cases m ps key Hs)
    as [[He ->]|[(h & p & _ & Hp & ->)|[_ ->]]].
  - left. unfold Get.
    assert (keys m = []) as ->; [|done].
    destruct (keys m) as [|x l] eqn:E; [done|].
    assert (x ∈ keys (Add m ps)) as Hin
      by (apply elem_of_Add_keys; rewrite E; left; left).
    rewrite He in Hin. by apply elem_of_nil in Hin.
  - right. by apply (elem_of_owner_pairs m ps h).
  - by left.
Qed.

(** A ring built from at least one peer is not empty. *)
Lemma Add_New_keys (replicas : Z) (fn : option Hash) p ps :
  0 < replicas -> keys (Add (New replicas fn) (p :: ps)) <> [].
Proof.
  intros Hr He.
  destruct (seqZ 0 replicas) as [|i ixs] eqn:E.
  { apply (f_equal length) in E. rewrite length_seqZ in E. simpl in E. lia. }
  assert (replica_hash (New replicas fn) i p
          ∈ keys (Add (New replicas fn) (p :: ps))) as Hin.
  { apply elem_of_Add_keys. right.
    rewrite owner_pairs_cons, fmap_app, fst_owner.
    apply elem_of_app. left. unfold replica_hashes. simpl. rewrite E. left. }
  rewrite He in Hin. by apply elem_of_nil in Hin.
Qed.

(** X8.  A ring built from at least one peer, with a positive number of
    replicas, serves every key by one of its peers. *)
Theorem Get_picks_a_peer (replicas : Z) (fn : option Hash) ps key :
  0 < replicas -> ps <> [] ->
  Get (Add (New replicas fn) ps) key ∈ ps.
Proof.
  intros Hr Hps.
  assert (Sorted Z.le (keys (New replicas fn))) as Hs by constructor.
  destruct (Get_Add_cases (New replicas fn) ps key Hs)
    as [[He _]|[(h & p & _ & Hp & ->)|[Hk _]]].
  - destruct ps as [|p ps]; [done|]. by destruct (Add_New_keys replicas fn p ps).
  - by apply (elem_of_owner_pairs (New replicas fn) ps h).
  - done.
Qed.

(** *** The order of the ring, and [Remove] of a peer that is not on it *)

(** X9.  Every ring that [New], [Add] and [Remove] produce has its
    hashes in ascending order, which is what the binary searches of [Get]
    and [Remove] rely on. *)
Theorem ring_always_sorted m : ring_state m -> Sorted Z.le (keys m).
Proof.
  induction 1 as [replicas fn|m ks _ _|m p m' _ IH Hr].
  - constructor.
  - apply Add_sorted.
  - unfold Remove in Hr.
    by apply (Remove_fold_sorted p (seqZ 0 (replicas m)) m m').
Qed.

Lemma Remove_fold_None p (ixs : list Z) :
  fold_left (fun om i => m' ← om; Remove_replica p m' i) ixs None = None.
Proof. induction ixs as [|i ixs IH]; [done|]. simpl. exact IH. Qed.

Lemma SearchInts_successor l h :
  Sorted Z.le l -> successor_index l h (SearchInts l h).
Proof. intros Hs. unfold SearchInts. by apply Search_successor. Qed.

Lemma SearchInts_beyond l h :
  Sorted Z.le l -> (forall x, x ∈ l -> x < h) ->
  SearchInts l h = Z.of_nat (length l).
Proof.
  intros Hs Hall. destruct (SearchInts_successor l h Hs) as (Hi & _ & Hhi).
  destruct (decide (SearchInts l h < Z.of_nat (length l))) as [Hlt|]; [|lia].
  specialize (Hhi Hlt).
  assert (index l (SearchInts l h) < h); [|lia].
  apply Hall, elem_of_index. exists (SearchInts l h). split; [lia|done].
Qed.

(** X10.  [Remove] of a peer whose first virtual node lies beyond every
    hash of the ring does not return: the slice expression
    [m.keys[idx+1:]] is out of range.  This is so in particular on a ring
    without peers. *)
Theorem Remove_beyond_ring_panics m p :
  Sorted Z.le (keys m) -> 0 < replicas m ->
  (forall x, x ∈ keys m -> x < replica_hash m 0 p) ->
  Remove m p = None.
Proof.
  intros Hs Hr Hall. unfold Remove. rewrite seqZ_cons by lia. simpl.
  assert (Remove_replica p m 0 = None) as ->; [|apply Remove_fold_None].
  unfold Remove_replica. rewrite SearchInts_beyond by done.
  destruct (Z.leb_spec (Z.of_nat (length (keys m)) + 1)
                       (Z.of_nat (length (keys m)))); [lia|done].
Qed.

(** X11.  One turn of the loop of [Remove] for a virtual node whose
    hash is not on the ring.  Either the turn panics, every hash of the
    ring being below the node's; or it deletes from the ring the next
    greater hash, a hash that was not asked for, and leaves the owner
    recorded for that hash in place: [Remove] does not check that the
    hash it searched for was found.  The deleted hash is a virtual node
    of whatever peer put it on the ring; it is not one of the peer being
    removed when none of that peer's virtual nodes is on the ring. *)
Theorem Remove_replica_absent m p (i : Z) :
  Sorted Z.le (keys m) -> replica_hash m i p ∉ keys m ->
  match Remove_replica p m i with
  | None => forall x, x ∈ keys m -> x < replica_hash m i p
  | Some m' => exists t l1 l2,
      keys m = l1 ++ t :: l2 /\ keys m' = l1 ++ l2 /\
      replica_hash m i p < t /\ (forall x, x ∈ l1 -> x < replica_hash m i p) /\
      hashMap m' !! t = hashMap m !! t /\
      hashMap m' = delete (replica_hash m i p) (hashMap m) /\
      ((forall j, replica_hash m j p ∉ keys m) ->
       forall j, t <> replica_hash m j p)
  end.
Proof.
  intros Hs Hnin. unfold Remove_replica.
  set (h := replica_hash m i p) in *.
  destruct (SearchInts_successor (keys m) h Hs) as (Hi & Hlo & Hhi).
  set (idx := SearchInts (keys m) h) in *.
  destruct (Z.leb_spec (idx + 1) (Z.of_nat (length (keys m)))) as [Hle|Hgt].
  - assert (exists t, keys m !! Z.to_nat idx = Some t) as [t Ht]
      by (apply lookup_lt_is_Some; lia).
    assert (index (keys m) idx = t) as Hix by (unfold index; by rewrite Ht).
    assert (t ∈ keys m) as Hin by (by apply list_elem_of_lookup_2 in Ht).
    assert (h < t) as Hlt.
    { assert (h <= t) by (rewrite <- Hix; apply Hhi; lia).
      assert (t <> h); [|lia]. by intros ->. }
    exists t, (take (Z.to_nat idx) (keys m)), (drop (S (Z.to_nat idx)) (keys m)).
    simpl. split_and!; try done.
    + by rewrite take_drop_middle.
    + by replace (Z.to_nat (idx + 1)) with (S (Z.to_nat idx)) by lia.
    + intros x Hx. apply list_elem_of_lookup in Hx as [j Hj].
      pose proof (lookup_lt_Some _ _ _ Hj) as Hjlt. rewrite length_take in Hjlt.
      rewrite lookup_take_lt in Hj by lia.
      rewrite <- (index_lookup _ _ _ Hj). apply Hlo. lia.
    + apply lookup_delete_ne. lia.
    + intros Hall j E. apply (Hall j). by rewrite <- E.
  - intros x (j & Hj & <-)%elem_of_index. apply Hlo. lia.
Qed.

End Routing.

(** *** The ring on concrete inputs *)

Lemma Add_moves_keys_to_new_peers_witness :
  let m := consistenthash.Add (consistenthash.New 3 None) ["P1"; "P2"] in
  consistenthash.Get (consistenthash.Add m ["P3"]) "k42"
    = consistenthash.Get m "k42" \/
  consistenthash.Get (consistenthash.Add m ["P3"]) "k42" ∈ ["P3"].
Proof.
  apply (Add_moves_keys_to_new_peers
           (consistenthash.Add (consistenthash.New 3 None) ["P1"; "P2"])
           ["P3"] "k42").
  apply (bool_decide_unpack _). by vm_compute.
Defined.

Lemma Get_picks_a_peer_witness :
  consistenthash.Get
    (consistenthash.Add (consistenthash.New 50 None) ["P1"; "P2"]) "Tom"
  ∈ ["P1"; "P2"].
Proof. apply (Get_picks_a_peer 50 None ["P1"; "P2"] "Tom"); [lia|done]. Defined.

Lemma ring_always_sorted_witness : Sorted Z.le (consistenthash.keys S4_ring).
Proof.
  apply (ring_always_sorted S4_ring).
  apply ring_Add, ring_New.
Defined.

Lemma Remove_beyond_ring_panics_witness :
  consistenthash.Remove (consistenthash.New 3 None) "P1" = None.
Proof.
  apply (Remove_beyond_ring_panics (consistenthash.New 3 None) "P1").
  - constructor.
  - simpl. lia.
  - intros x Hx. by apply elem_of_nil in Hx.
Defined.

Lemma Remove_replica_absent_witness :
  match consistenthash.Remove_replica "P9" S4_ring 0 with
  | None => forall x, x ∈ consistenthash.keys S4_ring ->
                      x < consistenthash.replica_hash S4_ring 0 "P9"
  | Some m' => exists t l1 l2,
      consistenthash.keys S4_ring = l1 ++ t :: l2 /\
      consistenthash.keys m' = l1 ++ l2 /\
      consistenthash.replica_hash S4_ring 0 "P9" < t /\
      (forall x, x ∈ l1 -> x < consistenthash.replica_hash S4_ring 0 "P9") /\
      consistenthash.hashMap m' !! t = consistenthash.hashMap S4_ring !! t /\
      consistenthash.hashMap m'
      = delete (consistenthash.replica_hash S4_ring 0 "P9")
               (consistenthash.hashMap S4_ring) /\
      ((forall j, consistenthash.replica_hash S4_ring j "P9"
                  ∉ consistenthash.keys S4_ring) ->
       forall j, t <> consistenthash.replica_hash S4_ring j "P9")
  end.
Proof.
  apply (Remove_replica_absent S4_ring "P9" 0).
  - apply (bool_decide_unpack _). by vm_compute.
  - apply (bool_decide_unpack _). by vm_compute.
Defined.

(** ** Groups: the registry, the read-through cache and what [Get] keeps *)

Section GroupMore.
Import I64 geecache.
Implicit Types (g : Group) (c : cache) (key : string).

(** X12.  [NewGroup] registers the group it creates under its name, with
    an empty cache of the given ceiling and no peer picker: [GetGroup]
    finds it there, in place of any group registered under that name
    before, and finds what it found before under every other name.  With
    a nil getter [NewGroup] panics. *)
Theorem NewGroup_registers (groups : gmap string Group) (name : string)
    (cacheBytes : Z) (f : Getter) :
  exists g,
    NewGroup groups name cacheBytes (Some f) = Done (g, <[name := g]> groups) /\
    g = mkGroup name f (mk_cache cacheBytes None) None /\
    GetGroup (<[name := g]> groups) name = Some g /\
    (forall other, other <> name ->
       GetGroup (<[name := g]> groups) other = GetGroup groups other) /\
    NewGroup groups name cacheBytes None = Panic "nil Getter".
Proof.
  eexists. split; [reflexivity|]. unfold GetGroup. split_and!; try done.
  - apply lookup_insert_eq.
  - intros other Hne. by apply lookup_insert_ne.
Qed.

(** X13.  [RegisterPeers] with a picker, on a group that has none,
    installs it and changes nothing else; from then on a [Get] that
    misses the local cache consults that picker before anything else, and
    every further [RegisterPeers] panics, whether its argument is a picker
    or nil.  [RegisterPeers(nil)] on a group that has no picker passes the
    guard and leaves the group as it was, so that a later registration
    still succeeds. *)
Theorem RegisterPeers_once g (p1 : PeerPicker) :
  peers g = None ->
  (exists g1, RegisterPeers g (Some p1) = Done g1 /\
     peers g1 = Some p1 /\ name g1 = name g /\ getter g1 = getter g /\
     mainCache g1 = mainCache g /\
     (forall p2 : option PeerPicker,
        RegisterPeers g1 p2 = Panic "RegisterPeerPicker called more than once") /\
     (forall fuel key r,
        key <> "" -> (cache_get (mainCache g) key).2 = None ->
        Get fuel g1 key = Some r ->
        head (ret_events r) = Some (EvPickPeer key))) /\
  RegisterPeers g None = Done g /\
  (forall p2 : PeerPicker, exists g2,
     RegisterPeers g None = Done g2 /\
     RegisterPeers g2 (Some p2)
     = Done (mkGroup (name g) (getter g) (mainCache g) (Some p2))).
Proof.
  intros Hp.
  assert (RegisterPeers g None = Done g) as Hnil.
  { unfold RegisterPeers. rewrite Hp. destruct g. simpl in *. by subst. }
  split_and!; [|done|].
  - unfold RegisterPeers at 1. rewrite Hp. eexists. split; [reflexivity|].
    simpl. split_and!; try done.
    intros fuel key r Hk Hm. rewrite Get_miss_load by done.
    unfold load. simpl.
    destruct (PickPeer p1 key) as [peer|].
    + destruct (getFromPeer _ peer key) as [v [err|]].
      * destruct (getLocally fuel _ key) as [r0|]; simpl; [|done].
        by intros [= <-].
      * by intros [= <-].
    + destruct (getLocally fuel _ key) as [r0|]; simpl; [|done].
      by intros [= <-].
  - intros p2. exists g. split; [done|]. unfold RegisterPeers. by rewrite Hp.
Qed.

(** *** The shell and its invariant *)

Lemma cache_get_frame c key :
  cacheBytes (cache_get c key).1 = cacheBytes c.
Proof.
  unfold cache_get. destruct (lru_ c) as [l|]; [|done].
  by destruct (lru.Get l key).
Qed.

Lemma cache_get_Inv c key : shell_Inv c -> shell_Inv (cache_get c key).1.
Proof.
  unfold shell_Inv, cache_get. destruct (lru_ c) as [l|] eqn:Hl.
  - intros (Hnn & HI & Hm). pose proof (Get_Inv l key HI) as HI'.
    destruct (Get_frame l key) as (Hmax & _).
    destruct (lru.Get l key) as [l' r]. simpl in *.
    split_and!; [done|done|congruence].
  - simpl. by rewrite Hl.
Qed.

Lemma cache_add_frame fuel c key (v : ByteView) c' :
  cache_add fuel c key v = Some c' -> cacheBytes c' = cacheBytes c.
Proof.
  unfold cache_add. destruct (lru.Add fuel _ key v); simpl; [|done].
  by intros [= <-].
Qed.

(** The result of [add] does not depend on the fuel it is given. *)
Lemma cache_add_fuel fuel1 fuel2 c key (v : ByteView) c1 c2 :
  cache_add fuel1 c key v = Some c1 -> cache_add fuel2 c key v = Some c2 ->
  c1 = c2.
Proof.
  unfold cache_add, lru.Add.
  set (body := lru.Add_body _ key v).
  destruct (lru.evict_loop fuel1 body) as [l1|] eqn:E1; simpl; [|done].
  destruct (lru.evict_loop fuel2 body) as [l2|] eqn:E2; simpl; [|done].
  intros [= <-] [= <-].
  apply (evict_loop_mono _ (fuel1 `max` fuel2)) in E1; [|lia].
  apply (evict_loop_mono _ (fuel1 `max` fuel2)) in E2; [|lia].
  congruence.
Qed.

(** An entry that alone exceeds a positive ceiling empties the shell. *)
Lemma cache_add_oversized c key (v : ByteView) :
  shell_Inv c ->
  shell_bytes c + (lru.len key + lru.Len v) <= max_int64 ->
  0 < cacheBytes c < lru.len key + lru.Len v ->
  exists c', cache_add (shell_fuel c) c key v = Some c' /\
    shell_bytes c' = 0 /\ forall k, cache_get c' k = (c', None).
Proof.
  intros HI Hfit Hbig. unfold cache_add.
  destruct (shell_engine_Inv c HI) as (HIe & Hmax & Hb & Hf).
  cbn zeta in *.
  set (engine := match lru_ c with Some l => l | None => _ end) in *.
  destruct (Add_oversized (shell_fuel c) engine key v HIe)
    as (l' & Hadd & HI' & Hll & Hc & Hnow & _); [lia|lia|lia|].
  rewrite Hadd. simpl. eexists. split; [reflexivity|]. split.
  - unfold shell_bytes, resident_bytes. simpl. by rewrite Hll.
  - intros k. unfold cache_get. simpl.
    rewrite Get_miss by (rewrite Hc; apply lookup_empty). done.
Qed.

(** *** [load] *)

Lemma load_cases fuel g key :
  (exists v, remote_fetch g key = Some (v, None) /\
     load fuel g key
     = Some (mkRet v None g [EvPickPeer key; EvPeerGet (name g) key])) \/
  ((forall v, remote_fetch g key <> Some (v, None)) /\
   exists evs, load fuel g key = add_events evs <$> getLocally fuel g key).
Proof.
  unfold load, remote_fetch.
  destruct (peers g) as [picker|]; simpl.
  2:{ right. split; [done|]. exists [].
      destruct (getLocally fuel g key) as [[]|]; done. }
  destruct (PickPeer picker key) as [peer|]; simpl.
  2:{ right. split; [done|]. by eexists. }
  destruct (getFromPeer g peer key) as [v [err|]].
  - right. split; [done|]. by eexists.
  - left. by exists v.
Qed.

Lemma last_add_events evs r e :
  last (ret_events r) = Some e -> last (ret_events (add_events evs r)) = Some e.
Proof.
  simpl. destruct (ret_events r) as [|x l] using rev_ind; [done|].
  rewrite app_assoc, !last_snoc. done.
Qed.

(** A loader that succeeds when no remote peer delivers. *)
Lemma Get_loads_locally g key bytes c' :
  key <> "" -> (cache_get (mainCache g) key).2 = None ->
  (forall v, remote_fetch g key <> Some (v, None)) ->
  getter g key = (bytes, None) ->
  cache_add (shell_fuel (mainCache g)) (mainCache g) key (mkByteView bytes)
    = Some c' ->
  exists evs,
    Get (shell_fuel (mainCache g)) g key
    = Some (mkRet (mkByteView bytes) None (set_mainCache g c')
                  (evs ++ [EvGetter key])).
Proof.
  intros Hk Hm Hremote Hload Hadd. rewrite Get_miss_load by done.
  destruct (load_cases (shell_fuel (mainCache g)) g key)
    as [(v & Hv & _)|(_ & evs & ->)]; [by destruct (Hremote v)|].
  exists evs. unfold getLocally, populateCache.
  rewrite Hload, cloneBytes_id, Hadd. done.
Qed.

(** A hit stays a hit: it returns the cached view, calls no
    collaborator, and leaves the key cached with that view. *)
Lemma Get_hit_again fuel g key (v : ByteView) :
  key <> "" -> shell_Inv (mainCache g) ->
  (cache_get (mainCache g) key).2 = Some v ->
  exists r, Get fuel g key = Some r /\
    ret_view r = v /\ ret_err r = None /\
    ret_events r = [EvLog "[GeeCache] hit"] /\
    shell_Inv (mainCache (ret_group r)) /\
    (cache_get (mainCache (ret_group r)) key).2 = Some v.
Proof.
  intros Hk HI Hhit. unfold Get. apply String.eqb_neq in Hk. rewrite Hk.
  pose proof (cache_get_Inv (mainCache g) key HI) as HI'.
  destruct (cache_get (mainCache g) key) as [c' r0] eqn:Hget.
  simpl in Hhit, HI'. subst r0. eexists. split; [reflexivity|]. simpl.
  split_and!; try done.
  unfold cache_get in Hget |- *. unfold shell_Inv in HI.
  destruct (lru_ (mainCache g)) as [l|]; [|by injection Hget].
  destruct HI as (_ & HIl & _).
  destruct (Get_promotes l key HIl) as (Hg & _ & _ & _ & HIl').
  destruct (lru.Get l key) as [l' r1] eqn:HG. injection Hget as <- ->.
  simpl in *. destruct Hg as (es1 & es2 & _ & He).
  assert ((lru.Get l' key).2 = Some v) as Hagain.
  { apply Get_lookup; [done|]. rewrite He. left. }
  by destruct (lru.Get l' key).
Qed.

Lemma Gets_hits fuel key (v : ByteView) (n : nat) : forall g,
  key <> "" -> shell_Inv (mainCache g) ->
  (cache_get (mainCache g) key).2 = Some v ->
  exists rs, Gets fuel n g key = Some rs /\ length rs = n /\
    Forall (fun r => ret_view r = v /\ ret_err r = None /\
                     ret_events r = [EvLog "[GeeCache] hit"]) rs.
Proof.
  induction n as [|n IH]; intros g Hk HI Hhit.
  - exists []. by split_and!.
  - destruct (Get_hit_again fuel g key v Hk HI Hhit)
      as (r & HG & Hv & He & Hev & HI' & Hhit').
    destruct (IH (ret_group r) Hk HI' Hhit') as (rs & Hrs & Hlen & Hall).
    exists (r :: rs). split_and!.
    + change (Gets fuel (S n) g key)
        with (r ← Get fuel g key;
              rs ← Gets fuel n (ret_group r) key; Some (r :: rs)).
      rewrite HG. simpl. by rewrite Hrs.
    + simpl. by rewrite Hlen.
    + by constructor.
Qed.

(** X14.  Read-through.  A key that misses the local cache, no value
    delivered by a remote peer, a loader that succeeds with bytes that fit
    under the ceiling: [Get] returns the loader's bytes; and each of any
    number of further calls of [Get] for that key that follow it, one
    after the other with no other call on the group in between, is a
    local hit that returns the same bytes without calling the loader or a
    peer.  (A load of another key in between may evict the entry.) *)
Theorem Get_read_through g key bytes :
  key <> "" -> (cache_get (mainCache g) key).2 = None ->
  (forall v, remote_fetch g key <> Some (v, None)) ->
  getter g key = (bytes, None) ->
  shell_Inv (mainCache g) ->
  shell_bytes (mainCache g) + (lru.len key + Z.of_nat (length bytes))
    <= max_int64 ->
  cacheBytes (mainCache g) = 0 \/
    lru.len key + Z.of_nat (length bytes) <= cacheBytes (mainCache g) ->
  exists r, Get (shell_fuel (mainCache g)) g key = Some r /\
    ret_view r = mkByteView bytes /\ ret_err r = None /\
    last (ret_events r) = Some (EvGetter key) /\
    forall fuel n, exists rs,
      Gets fuel n (ret_group r) key = Some rs /\ length rs = n /\
      Forall (fun r2 => ret_view r2 = mkByteView bytes /\ ret_err r2 = None /\
                        ret_events r2 = [EvLog "[GeeCache] hit"]) rs.
Proof.
  intros Hk Hm Hremote Hload HI Hfit Hroom.
  destruct (cache_add_ok (mainCache g) key (mkByteView bytes) HI Hfit)
    as (c' & Hadd & HI' & _ & Hfound).
  destruct (Get_loads_locally g key bytes c' Hk Hm Hremote Hload Hadd)
    as [evs HG].
  eexists. split; [exact HG|]. simpl. split_and!; try done.
  - by rewrite last_snoc.
  - intros fuel n. apply Gets_hits; simpl; auto.
Qed.

(** X15.  A loaded value that alone exceeds a positive ceiling is
    returned to the caller but not kept: the admission evicts every
    entry of the cache, the new one included, so that afterwards every
    key misses locally and the next [Get] of the key loads it again. *)
Theorem Get_oversized_not_cached g key bytes :
  key <> "" -> (cache_get (mainCache g) key).2 = None ->
  (forall v, remote_fetch g key <> Some (v, None)) ->
  getter g key = (bytes, None) ->
  shell_Inv (mainCache g) ->
  shell_bytes (mainCache g) + (lru.len key + Z.of_nat (length bytes))
    <= max_int64 ->
  0 < cacheBytes (mainCache g) < lru.len key + Z.of_nat (length bytes) ->
  exists r, Get (shell_fuel (mainCache g)) g key = Some r /\
    ret_view r = mkByteView bytes /\ ret_err r = None /\
    shell_bytes (mainCache (ret_group r)) = 0 /\
    (forall k, (cache_get (mainCache (ret_group r)) k).2 = None) /\
    forall fuel, Get fuel (ret_group r) key = load fuel (ret_group r) key.
Proof.
  intros Hk Hm Hremote Hload HI Hfit Hbig.
  destruct (cache_add_oversized (mainCache g) key (mkByteView bytes) HI Hfit Hbig)
    as (c' & Hadd & Hz & Hmiss).
  destruct (Get_loads_locally g key bytes c' Hk Hm Hremote Hload Hadd)
    as [evs HG].
  eexists. split; [exact HG|]. simpl. split_and!; try done.
  - intros k. by rewrite Hmiss.
  - intros fuel. apply Get_miss_load; [done|]. simpl. by rewrite Hmiss.
Qed.

(** X16.  What [Get] keeps.  Whenever [Get] returns, the group has the
    name, the loader, the picker and the cache ceiling it had; an error is
    returned with the zero view, and an empty key with no call to a
    collaborator; and a cache in a state the engine keeps is left in such
    a state, provided the bytes the loader yields for the key fit the
    byte counter. *)
Theorem Get_keeps_group fuel g key r :
  Get fuel g key = Some r ->
  name (ret_group r) = name g /\ getter (ret_group r) = getter g /\
  peers (ret_group r) = peers g /\
  cacheBytes (mainCache (ret_group r)) = cacheBytes (mainCache g) /\
  (ret_err r <> None -> ret_view r = mkByteView []) /\
  (key = "" -> ret_err r = Some "key is required" /\ ret_events r = [] /\
               ret_group r = g) /\
  (shell_Inv (mainCache g) ->
   (forall bytes, getter g key = (bytes, None) ->
      shell_bytes (mainCache g) + (lru.len key + Z.of_nat (length bytes))
        <= max_int64) ->
   shell_Inv (mainCache (ret_group r))).
Proof.
  unfold Get. destruct (String.eqb_spec key "") as [->|Hk].
  { intros [= <-]. simpl. by split_and!. }
  pose proof (cache_get_frame (mainCache g) key) as Hcb.
  pose proof (cache_get_Inv (mainCache g) key) as Hci.
  destruct (cache_get (mainCache g) key) as [c [v|]] eqn:Hget.
  { intros [= <-]. simpl in *. split_and!; try done. intros HI _. by apply Hci. }
  assert (c = mainCache g) as ->.
  { assert ((cache_get (mainCache g) key).2 = None) as Hm by (by rewrite Hget).
    rewrite (cache_get_miss _ _ Hm) in Hget. by injection Hget. }
  rewrite set_mainCache_id. clear Hcb Hci Hget.
  assert (forall r0, getLocally fuel g key = Some r0 ->
    name (ret_group r0) = name g /\ getter (ret_group r0) = getter g /\
    peers (ret_group r0) = peers g /\
    cacheBytes (mainCache (ret_group r0)) = cacheBytes (mainCache g) /\
    (ret_err r0 <> None -> ret_view r0 = mkByteView []) /\
    (shell_Inv (mainCache g) ->
     (forall bytes, getter g key = (bytes, None) ->
        shell_bytes (mainCache g) + (lru.len key + Z.of_nat (length bytes))
          <= max_int64) ->
     shell_Inv (mainCache (ret_group r0)))) as Hlocal.
  { intros r0. unfold getLocally, populateCache.
    destruct (getter g key) as [bytes [e|]] eqn:Hload.
    { intros [= <-]. simpl. by split_and!. }
    rewrite cloneBytes_id.
    destruct (cache_add fuel (mainCache g) key (mkByteView bytes)) as [c'|] eqn:Hadd;
      simpl; [|done].
    intros [= <-]. simpl. split_and!; try done.
    - by apply (cache_add_frame fuel _ key (mkByteView bytes)).
    - intros HI Hfit.
      destruct (cache_add_ok (mainCache g) key (mkByteView bytes) HI)
        as (c2 & Hadd2 & HI2 & _); [by apply Hfit|].
      by rewrite (cache_add_fuel _ _ _ _ _ _ _ Hadd Hadd2). }
  destruct (load_cases fuel g key) as [(v & _ & ->)|(_ & evs & ->)].
  { intros [= <-]. simpl. by split_and!. }
  destruct (getLocally fuel g key) as [r0|]; simpl; [|done].
  intros [= <-]. simpl.
  destruct (Hlocal r0 eq_refl) as (H1 & H2 & H3 & H4 & H5 & H6).
  by split_and!.
Qed.

End GroupMore.

(** *** Groups on concrete inputs, continued *)

Lemma RegisterPeers_once_witness :
  let g := scores 2048 None in
  let p1 := always failing_peer in
  (exists g1, geecache.RegisterPeers g (Some p1) = geecache.Done g1 /\
     geecache.peers g1 = Some p1 /\ geecache.name g1 = geecache.name g /\
     geecache.getter g1 = geecache.getter g /\
     geecache.mainCache g1 = geecache.mainCache g /\
     (forall p2 : option geecache.PeerPicker,
        geecache.RegisterPeers g1 p2
        = geecache.Panic "RegisterPeerPicker called more than once") /\
     (forall fuel key r,
        key <> "" ->
        (geecache.cache_get (geecache.mainCache g) key).2 = None ->
        geecache.Get fuel g1 key = Some r ->
        head (geecache.ret_events r) = Some (geecache.EvPickPeer key))) /\
  geecache.RegisterPeers g None = geecache.Done g /\
  (forall p2 : geecache.PeerPicker, exists g2,
     geecache.RegisterPeers g None = geecache.Done g2 /\
     geecache.RegisterPeers g2 (Some p2)
     = geecache.Done (geecache.mkGroup (geecache.name g) (geecache.getter g)
                                       (geecache.mainCache g) (Some p2))).
Proof.
  apply (RegisterPeers_once (scores 2048 None) (always failing_peer)).
  reflexivity.
Defined.

Lemma Get_read_through_witness :
  let g := scores 2048 None in
  exists r, geecache.Get (shell_fuel (geecache.mainCache g)) g "Tom" = Some r /\
    geecache.ret_view r = view "630" /\ geecache.ret_err r = None /\
    last (geecache.ret_events r) = Some (geecache.EvGetter "Tom") /\
    forall fuel n, exists rs,
      Gets fuel n (geecache.ret_group r) "Tom" = Some rs /\ length rs = n /\
      Forall (fun r2 => geecache.ret_view r2 = view "630" /\
                        geecache.ret_err r2 = None /\
                        geecache.ret_events r2 = [geecache.EvLog "[GeeCache] hit"])
             rs.
Proof.
  apply (Get_read_through (scores 2048 None) "Tom"
                          (String.list_byte_of_string "630")).
  - discriminate.
  - reflexivity.
  - intros v. discriminate.
  - reflexivity.
  - unfold shell_Inv. simpl. split; [lia|done].
  - by vm_compute.
  - right. by vm_compute.
Defined.

Lemma Get_oversized_not_cached_witness :
  let g := scores 4 None in
  exists r, geecache.Get (shell_fuel (geecache.mainCache g)) g "Tom" = Some r /\
    geecache.ret_view r = view "630" /\ geecache.ret_err r = None /\
    shell_bytes (geecache.mainCache (geecache.ret_group r)) = 0 /\
    (forall k, (geecache.cache_get (geecache.mainCache (geecache.ret_group r)) k).2
               = None) /\
    forall fuel, geecache.Get fuel (geecache.ret_group r) "Tom"
                 = geecache.load fuel (geecache.ret_group r) "Tom".
Proof.
  apply (Get_oversized_not_cached (scores 4 None) "Tom"
                                  (String.list_byte_of_string "630")).
  - discriminate.
  - reflexivity.
  - intros v. discriminate.
  - reflexivity.
  - unfold shell_Inv. simpl. split; [lia|done].
  - by vm_compute.
  - by vm_compute.
Defined.

Lemma Get_keeps_group_witness :
  let g := scores 2048 None in
  geecache.name (geecache.ret_group Tom_ret) = geecache.name g /\
  geecache.getter (geecache.ret_group Tom_ret) = geecache.getter g /\
  geecache.peers (geecache.ret_group Tom_ret) = geecache.peers g /\
  geecache.cacheBytes (geecache.mainCache (geecache.ret_group Tom_ret))
  = geecache.cacheBytes (geecache.mainCache g) /\
  (geecache.ret_err Tom_ret <> None ->
   geecache.ret_view Tom_ret = geecache.mkByteView []) /\
  ("Tom" = "" -> geecache.ret_err Tom_ret = Some "key is required" /\
                 geecache.ret_events Tom_ret = [] /\
                 geecache.ret_group Tom_ret = g) /\
  (shell_Inv (geecache.mainCache g) ->
   (forall bytes, geecache.getter g "Tom" = (bytes, None) ->
      shell_bytes (geecache.mainCache g)
      + (lru.len "Tom" + Z.of_nat (length bytes)) <= I64.max_int64) ->
   shell_Inv (geecache.mainCache (geecache.ret_group Tom_ret))).
Proof.
  apply (Get_keeps_group 1 (scores 2048 None) "Tom" Tom_ret).
  by vm_compute.
Defined.

(** ** The peer server: which group and key a path addresses *)

Section ServerMore.
Import geecache.
Implicit Types (s pre : string) (sep : ascii).

Lemma HasPrefix_append pre s : HasPrefix (pre +:+ s) pre = true.
Proof.
  unfold HasPrefix. induction pre as [|c pre IH].
  { rewrite append_nil. by destruct s. }
  rewrite append_cons. cbn. by destruct (Ascii.ascii_dec c c).
Qed.

Lemma slice_from_append pre s :
  slice_from (String.length pre) (pre +:+ s) = s.
Proof.
  unfold slice_from. induction pre as [|c pre IH].
  - rewrite append_nil. cbn. by rewrite Nat.sub_0_r, substring_all.
  - rewrite append_cons. cbn. exact IH.
Qed.

Lemma cut_append sep before after :
  cut sep before = None ->
  cut sep (before +:+ String sep after) = Some (before, after).
Proof.
  induction before as [|c before IH].
  - intros _. rewrite append_nil. cbn. by rewrite Ascii.eqb_refl.
  - rewrite append_cons. cbn. destruct (Ascii.eqb_spec c sep); [done|].
    destruct (cut sep before) as [[? ?]|]; [done|]. intros _.
    by rewrite IH.
Qed.

(** X17.  A path made of the base path, a group name without ['/'], a
    ['/'] and a key addresses that group with that key, further ['/'] in
    the key included.  The handler answers 404 when the group is not
    registered; otherwise it answers what [Group.Get] of the key returns
    on the group: its error with status 500, or its bytes, every one of
    them, as [application/octet-stream]; and the group as [Get] leaves it
    stays registered under the name.  On a path that does not start with
    the base path the handler panics. *)
Theorem ServeHTTP_dispatch fuel (p : HTTPPool) (groups : gmap string Group)
    (groupName key : string) :
  cut "/" groupName = None ->
  ServeHTTP fuel p groups (basePath p +:+ groupName +:+ String "/" key)
  = match groups !! groupName with
    | None =>
        Some (Done (http_Error ("no such group: " +:+ groupName) 404, groups))
    | Some group =>
        r ← Get fuel group key;
        Some (Done (match ret_err r with
                    | Some err => http_Error err 500
                    | None => Written "application/octet-stream" (b (ret_view r))
                    end, <[groupName := ret_group r]> groups))
    end /\
  forall path, HasPrefix path (basePath p) = false ->
    ServeHTTP fuel p groups path
    = Some (Panic ("HTTPPool serving unexpected path: " +:+ path)).
Proof.
  intros Hg. split.
  - unfold ServeHTTP, SplitN2, GetGroup.
    rewrite HasPrefix_append, slice_from_append, cut_append by done. simpl.
    destruct (groups !! groupName) as [group|]; [|done].
    destruct (Get fuel group key) as [r|]; simpl; [|done].
    destruct (ret_err r); [done|]. unfold ByteSlice.
    by rewrite cloneBytes_id.
  - intros path Hp. unfold ServeHTTP. by rewrite Hp.
Qed.

End ServerMore.

Lemma ServeHTTP_dispatch_witness :
  let p := geecache.NewHTTPPool "http://localhost:8001" in
  geecache.ServeHTTP 1 p one_group
    (geecache.basePath p +:+ "scores" +:+ String "/" "Tom/2024")
  = match one_group !! "scores" with
    | None =>
        Some (geecache.Done (geecache.http_Error ("no such group: " +:+ "scores") 404,
                             one_group))
    | Some group =>
        r ← geecache.Get 1 group "Tom/2024";
        Some (geecache.Done
                (match geecache.ret_err r with
                 | Some err => geecache.http_Error err 500
                 | None => geecache.Written "application/octet-stream"
                             (geecache.b (geecache.ret_view r))
                 end, <["scores" := geecache.ret_group r]> one_group))
    end /\
  forall path, geecache.HasPrefix path (geecache.basePath p) = false ->
    geecache.ServeHTTP 1 p one_group path
    = Some (geecache.Panic ("HTTPPool serving unexpected path: " +:+ path)).
Proof.
  apply (ServeHTTP_dispatch 1 (geecache.NewHTTPPool "http://localhost:8001")
                            one_group "scores" "Tom/2024").
  reflexivity.
Defined.

(** ** The peer client: the URL of a request and the outcome of [Get] *)

Section ClientFacts.
Import geecache http_client.
Implicit Types (s group key : string) (h : httpClient) (net : Transport).

Lemma unescape_QueryEscape_cons (c : ascii) s :
  unescape (QueryEscape (String c s)) = String c (unescape (QueryEscape s)).
Proof. destruct c as [[] [] [] [] [] [] [] []]; reflexivity. Qed.

(** Escaping loses nothing. *)
Lemma unescape_QueryEscape s : unescape (QueryEscape s) = s.
Proof.
  induction s as [|c s IH]; [done|].
  by rewrite unescape_QueryEscape_cons, IH.
Qed.

Lemma QueryEscape_inj s1 s2 : QueryEscape s1 = QueryEscape s2 -> s1 = s2.
Proof.
  intros E. apply (f_equal unescape) in E.
  by rewrite !unescape_QueryEscape in E.
Qed.

Lemma cut_append_None sep s1 s2 :
  cut sep s1 = None -> cut sep s2 = None -> cut sep (s1 +:+ s2) = None.
Proof.
  intros H1 H2. induction s1 as [|c s1 IH]; [by rewrite append_nil|].
  rewrite append_cons. cbn in H1 |- *.
  destruct (Ascii.eqb c sep); [done|].
  destruct (cut sep s1) as [[? ?]|]; [done|]. by rewrite IH.
Qed.

Lemma QueryEscape_cons (c : ascii) s :
  QueryEscape (String c s) = QueryEscape (String c "") +:+ QueryEscape s.
Proof. destruct c as [[] [] [] [] [] [] [] []]; reflexivity. Qed.

Lemma cut_QueryEscape_byte (c : ascii) : cut "/" (QueryEscape (String c "")) = None.
Proof. destruct c as [[] [] [] [] [] [] [] []]; reflexivity. Qed.

Lemma cut_QueryEscape_cons (c : ascii) s :
  cut "/" (QueryEscape s) = None ->
  cut "/" (QueryEscape (String c s)) = None.
Proof.
  intros E. rewrite QueryEscape_cons.
  apply cut_append_None; [apply cut_QueryEscape_byte|done].
Qed.

(** An escaped string holds no ['/']. *)
Lemma cut_QueryEscape s : cut "/" (QueryEscape s) = None.
Proof.
  induction s as [|c s IH]; [done|]. by apply cut_QueryEscape_cons.
Qed.

Lemma QueryEscape_unreserved s : unreserved s -> QueryEscape s = s.
Proof.
  unfold unreserved. induction s as [|c s IH]; [done|]. simpl.
  intros [Hc Hs]%Forall_cons. rewrite Hc, IH by done.
  destruct (Ascii.eqb_spec c " ") as [->|]; [done|done].
Qed.

Lemma append_inj_l pre s1 s2 : pre +:+ s1 = pre +:+ s2 -> s1 = s2.
Proof.
  induction pre as [|c pre IH]; [by rewrite !append_nil|].
  rewrite !append_cons. intros [= E]. by apply IH.
Qed.

(** X18.  The URL a client requests names the group and the key without
    ambiguity.  Two requests of one client have the same URL only for the
    same group and the same key; what follows the base URL holds exactly
    one unescaped ['/'], at which the server's split yields the escaped
    group and the escaped key; and a group and a key made of letters,
    digits and the marks [-_.~] are written into the URL as they are. *)
Theorem request_URL_unambiguous h :
  (forall g1 k1 g2 k2,
     request_URL h g1 k1 = request_URL h g2 k2 -> g1 = g2 /\ k1 = k2) /\
  (forall group key, exists rest,
     request_URL h group key = baseURL h +:+ rest /\
     SplitN2 rest = [QueryEscape group; QueryEscape key]) /\
  (forall group key, unreserved group -> unreserved key ->
     request_URL h group key = baseURL h +:+ group +:+ String "/" key).
Proof.
  assert (forall group key,
            cut "/" (QueryEscape group +:+ String "/" (QueryEscape key))
            = Some (QueryEscape group, QueryEscape key)) as Hcut
    by (intros; apply cut_append, cut_QueryEscape).
  split_and!.
  - intros g1 k1 g2 k2 E. unfold request_URL in E. apply append_inj_l in E.
    pose proof (Hcut g1 k1) as H1. rewrite E, Hcut in H1.
    injection H1 as E1 E2. split; by apply QueryEscape_inj.
  - intros group key. eexists. split; [reflexivity|].
    unfold SplitN2. by rewrite Hcut.
  - intros group key Hg Hk. unfold request_URL.
    by rewrite !QueryEscape_unreserved.
Qed.

(** X19.  The outcome of the client's [Get].  It returns no error exactly
    when the request was answered with status 200 and the body was read to
    the end, and then it returns the bytes of the body; with every error
    it returns no bytes.  A transport error is returned as it is, and
    another status as ["server returned: "] followed by the status. *)
Theorem Get_outcomes net h group key :
  let r := Get net h group key in
  (r.2 = None <->
   exists res, net (request_URL h group key) = inl res /\
     StatusCode res = 200 /\ Body res = (r.1, None)) /\
  (r.2 <> None -> r.1 = []) /\
  (forall err, net (request_URL h group key) = inr err ->
     r = ([], Some err)) /\
  (forall res, net (request_URL h group key) = inl res ->
     StatusCode res <> 200 ->
     r = ([], Some ("server returned: " +:+ Status res))).
Proof.
  cbn zeta. unfold Get, StatusOK.
  destruct (net (request_URL h group key)) as [res|err].
  - destruct (Z.eqb_spec (StatusCode res) 200) as [Hs|Hs]; simpl.
    + destruct (Body res) as [bytes [err|]] eqn:Hb; simpl.
      * split_and!; [split; [done|]|done|done|].
        { intros (res' & [= <-] & _ & Hb'). rewrite Hb in Hb'. done. }
        intros res' [= <-] Hs'. done.
      * split_and!; [split; [|done]|done|done|].
        { intros _. by exists res. }
        intros res' [= <-] Hs'. done.
    + split_and!; [split; [done|]|done|done|].
      { intros (res' & [= <-] & Hs' & _). done. }
      by intros res' [= <-] _.
  - simpl. split_and!; [split; [done|]|done| |done].
    + by intros (res' & ? & _).
    + by intros err' [= <-].
Qed.

End ClientFacts.

(** ** The pool of peers: what [PickPeer] picks *)

Section PoolFacts.
Import geecache http_pool.
Implicit Types (p : HTTPPool) (ps : list string) (key host : string).

Lemma lookup_clients (f : string -> http_client.httpClient) ps :
  forall (t : gmap string http_client.httpClient) host,
  fold_left (fun t peer => <[peer := f peer]> t) ps t !! host
  = if decide (host ∈ ps) then Some (f host) else t !! host.
Proof.
  induction ps as [|q ps IH]; intros t host; cbn [fold_left].
  - destruct (decide (host ∈ [])) as [Hin|_]; [|done].
    by apply elem_of_nil in Hin.
  - rewrite IH.
    destruct (decide (host ∈ ps)) as [Hin|Hnin];
      destruct (decide (host ∈ q :: ps)) as [Hin'|Hnin']; try done.
    + destruct Hnin'. by right.
    + apply elem_of_cons in Hin' as [->|?]; [|done]. apply lookup_insert_eq.
    + apply lookup_insert_ne. intros ->. apply Hnin'. left.
Qed.

(** The host the ring of a pool names for a key is one of the peers set,
    or no host at all when no peer was set. *)
Lemma Set_ring_Get ps key :
  let host := consistenthash.Get
                (consistenthash.Add (consistenthash.New defaultReplicas None) ps)
                key in
  (ps = [] /\ host = "") \/ host ∈ ps.
Proof.
  cbn zeta. destruct ps as [|q ps]; [by left|]. right.
  set (m0 := consistenthash.New defaultReplicas None).
  assert (Sorted Z.le (consistenthash.keys m0)) as Hs by constructor.
  destruct (Get_Add_cases m0 (q :: ps) key Hs)
    as [[He _]|[(h & host & _ & Hp & ->)|[Hk _]]].
  - by destruct (Add_New_keys defaultReplicas None q ps).
  - by apply (elem_of_owner_pairs m0 (q :: ps) h).
  - done.
Qed.

(** X20.  [PickPeer] on a pool after [Set].  Either no remote peer is
    picked, or the peer picked is one of the peers set, is not the pool
    itself and is not the empty name, is the host the ring names for the
    key, and comes with the client of its base URL: the peer followed by
    the base path.  A client is never missing for a picked peer.  When
    every peer set is the pool itself, no key picks a remote peer.  [Set]
    forgets the peers set before; and on a pool on which [Set] was never
    called [PickPeer] panics. *)
Theorem PickPeer_after_Set p ps key :
  let ring := consistenthash.Add (consistenthash.New defaultReplicas None) ps in
  (PickPeer (Set_ p ps) key = Done (None, false) \/
   exists host, host ∈ ps /\ host <> "" /\ host <> self p /\
     consistenthash.Get ring key = host /\
     PickPeer (Set_ p ps) key
     = Done (Some (http_client.NewHttpClient (host +:+ basePath p)), true)) /\
  ((forall host, host ∈ ps -> host = self p) ->
   PickPeer (Set_ p ps) key = Done (None, false)) /\
  (forall ps', Set_ (Set_ p ps') ps = Set_ p ps) /\
  PickPeer (NewHTTPPool (self p)) key
  = Panic "runtime error: invalid memory address or nil pointer dereference".
Proof.
  cbn zeta.
  assert (PickPeer (Set_ p ps) key = Done (None, false) \/
   exists host, host ∈ ps /\ host <> "" /\ host <> self p /\
     consistenthash.Get
       (consistenthash.Add (consistenthash.New defaultReplicas None) ps) key
     = host /\
     PickPeer (Set_ p ps) key
     = Done (Some (http_client.NewHttpClient (host +:+ basePath p)), true))
    as Hcases.
  { unfold PickPeer, Set_. simpl.
    pose proof (Set_ring_Get ps key) as Hhost. cbn zeta in Hhost.
    set (host := consistenthash.Get _ key) in *.
    destruct (String.eqb_spec host "") as [He|Hne]; simpl; [by left|].
    destruct (String.eqb_spec host (self p)) as [Hs|Hns]; simpl; [by left|].
    right. exists host. destruct Hhost as [[_ ?]|Hin]; [done|].
    split_and!; try done. rewrite lookup_clients.
    by rewrite decide_True by done. }
  split_and!; try done.
  intros Hall. destruct Hcases as [?|(host & Hin & _ & Hns & _)]; [done|].
  by destruct (Hns (Hall host Hin)).
Qed.

End PoolFacts.

(** ** Byte views *)

Section ViewFacts.
Import geecache.

Lemma length_string_of_list_byte (l : list Byte.byte) :
  String.length (String.string_of_list_byte l) = length l.
Proof.
  unfold String.string_of_list_byte.
  induction l as [|x l IH]; [done|]. simpl. by rewrite IH.
Qed.

(** The built-in [copy] fills the destination from the front and keeps
    its length. *)
Lemma copy_spec (dst src : list Byte.byte) :
  length (copy dst src) = length dst /\
  take (length src) (copy dst src) = take (length dst) src /\
  drop (length src) (copy dst src) = drop (length src) dst.
Proof.
  unfold copy. destruct (decide (length dst <= length src)%nat) as [Hle|Hgt].
  - rewrite (drop_ge dst) by lia. rewrite app_nil_r.
    rewrite length_take. split_and!; [lia| |].
    + rewrite take_ge; [done|]. rewrite length_take. lia.
    + rewrite drop_ge; [done|]. rewrite length_take. lia.
  - rewrite (take_ge src) by lia. split_and!.
    + rewrite length_app, length_drop. lia.
    + by rewrite take_app_length.
    + by rewrite drop_app_length.
Qed.

(** X21.  The accessors of a byte view agree.  [ByteSlice] yields
    exactly the bytes of the view, [Len] of them, none left zero by the
    copy; [String] yields the same bytes as a string of the same length;
    and the view of the bytes of a string reads back as that string. *)
Theorem ByteView_accessors (v : ByteView) :
  ByteSlice v = b v /\
  Z.of_nat (length (ByteSlice v)) = ByteView_Len v /\
  String.list_byte_of_string (ByteView_String v) = ByteSlice v /\
  Z.of_nat (String.length (ByteView_String v)) = ByteView_Len v /\
  forall s, ByteView_String (view s) = s.
Proof.
  unfold ByteSlice, ByteView_String, ByteView_Len. rewrite cloneBytes_id.
  split_and!; try done.
  - apply String.list_byte_of_string_of_list_byte.
  - by rewrite length_string_of_list_byte.
  - intros s. apply String.string_of_list_byte_of_string.
Qed.

End ViewFacts.
